(** * A character-level transformer playground: tokenizer, model
      construction, sampling, persistence and dataset windowing.

    The development embeds the TypeScript services of the repository
    (tokenizer.ts, transformer.ts, layers.ts, generation.ts,
    persistence.ts, training.ts, the look-ahead mask of tf-utils.ts and
    the presets of config/modelConfig.ts) as Rocq functions and proves
    the properties of the natural-language specification about them,
    then further properties of the services.

    Conventions.
    - A JavaScript string is a [string]; its UTF-16 code units are
      restricted to the 8-bit characters of [ascii].
    - JavaScript integers (ids, lengths, shapes) are [Z]; the numbers the
      sampler compares and adds (probabilities, the random draw) are exact
      rationals [Q].
    - A float32 number, the entry of a tensor, is the rational it is;
      [2^128] and [-2^128], which no finite float32 reaches, stand for
      [Infinity] and [-Infinity], so that the order and the equality of
      these rationals are those of the float32 numbers.  [NaN] is not
      modelled.
    - [Map]s and objects used as dictionaries are stdpp [gmap]s.
    - The tensor library is outside the repository: what the code needs of
      it is either written out (shapes, [topk], [argMax], the conversion
      to float32 and the float32 division of the CPU backend) or taken as
      a parameter ([softmax], the division of the backend in use, the
      forward pass, the optimizer step). *)

From Stdlib Require Import ZArith QArith Qround Qabs Lqa Ascii String List Lia.
From Equations Require Import Equations.
From stdpp Require Import base option list gmap strings pretty sorting.

Local Open Scope string_scope.
Local Open Scope list_scope.
Local Open Scope Z_scope.

(* Rationals are records of integers: equality of two is decidable. *)
#[global] Instance Q_eq_dec : EqDecision Q.
Proof. solve_decision. Defined.

(* [length] is the length of a list throughout. *)
Abbreviation length := List.length.

(** ** JavaScript helpers *)

Module Js.

(** [x || d] on a number that may be [undefined]: [undefined] and [0] are
    falsy. *)
Definition or_num (x : option Z) (d : Z) : Z :=
  match x with
  | Some v => if v =? 0 then d else v
  | None => d
  end.

(** [x || d] on a string that may be [undefined]: [undefined] and the empty
    string are falsy. *)
Definition or_str (x : option string) (d : string) : string :=
  match x with
  | Some EmptyString => d
  | Some s => s
  | None => d
  end.

(** [s.split('')]: one single-character string per code unit. *)
Fixpoint split_chars (s : string) : list string :=
  match s with
  | EmptyString => []
  | String c rest => String c EmptyString :: split_chars rest
  end.

(** [parts.join('')]. *)
Definition join (parts : list string) : string :=
  fold_right String.append EmptyString parts.

(** [Array.from(new Set(xs))]: the distinct elements in order of first
    insertion. *)
Definition set_add (seen : list string) (x : string) : list string :=
  if decide (x ∈ seen) then seen else seen ++ [x].

Definition set_from (xs : list string) : list string :=
  fold_left set_add xs [].

(** [xs.sort()] with the default comparator: ascending code-unit order. *)
Fixpoint sort_insert (x : string) (sorted : list string) : list string :=
  match sorted with
  | [] => [x]
  | y :: rest => if String.leb x y then x :: y :: rest
                 else y :: sort_insert x rest
  end.

Definition sort (xs : list string) : list string :=
  fold_right sort_insert [] xs.

(** [xs.slice(start, end)] on an array: negative positions count from the
    end, and both positions are clamped to the array. *)
Definition slice_pos (len i : Z) : Z :=
  if i <? 0 then Z.max (len + i) 0 else Z.min i len.

Definition slice {A} (xs : list A) (start stop : Z) : list A :=
  let len := Z.of_nat (length xs) in
  let k := slice_pos len start in
  let final := slice_pos len stop in
  take (Z.to_nat (final - k)) (drop (Z.to_nat k) xs).

(** [Math.floor(a / b)] on integers.  Division by zero does not throw in
    JavaScript: it yields [Infinity], [-Infinity] or [NaN], none of which
    is an integer; [None] stands for these. *)
Definition floor_div (a b : Z) : option Z :=
  if b =? 0 then None else Some (a / b).

End Js.

(** ** tokenizer.ts *)

Module Tokenizer.

Record SimpleTokenizer := mkTokenizer {
  vocab : gmap string Z;
  inverseVocab : gmap Z string;
  vocabSize : Z
}.

Record SerializedTokenizer := mkSerialized {
  charToId : gmap string Z;
  idToChar : gmap Z string;
  ser_vocabSize : Z
}.

(** The state of the constructor while it walks the sorted characters:
    the two maps and the running [idx]. *)
Definition build_state : Type := gmap string Z * gmap Z string * Z.

(** The body of [chars.forEach(char => ...)]. *)
Definition add_char (st : build_state) (char : string) : build_state :=
  let '(v, iv, idx) := st in
  (<[char := idx]> v, <[idx := char]> iv, idx + 1).

(** [new SimpleTokenizer(corpus)], the branch [typeof input === 'string']. *)
Definition from_corpus (input : string) : SimpleTokenizer :=
  let chars := Js.sort (Js.set_from (Js.split_chars input)) in
  let v0 : gmap string Z := <["<UNK>" := 1]> (<["<PAD>" := 0]> ∅) in
  let iv0 : gmap Z string := <[1 := "<UNK>"]> (<[0 := "<PAD>"]> ∅) in
  let '(v, iv, idx) := fold_left add_char chars (v0, iv0, 2) in
  mkTokenizer v iv idx.

(** [new SimpleTokenizer(serialized)], the hydration branch.  The keys of
    [idToChar] are ids; the source converts them back with [Number]. *)
Definition from_serialized (input : option SerializedTokenizer)
  : SimpleTokenizer :=
  match input with
  | Some s =>
      let v := fold_left (fun m kv => <[kv.1 := kv.2]> m)
                 (map_to_list (charToId s)) (∅ : gmap string Z) in
      let iv := fold_left (fun m kv => <[kv.1 := kv.2]> m)
                  (map_to_list (idToChar s)) (∅ : gmap Z string) in
      mkTokenizer v iv (ser_vocabSize s)
  | None => mkTokenizer ∅ ∅ 0
  end.

Definition encode (t : SimpleTokenizer) (text : string) : list Z :=
  map (fun char => Js.or_num (vocab t !! char) 1) (Js.split_chars text).

Definition decode (t : SimpleTokenizer) (ids : list Z) : string :=
  Js.join (map (fun id => Js.or_str (inverseVocab t !! id) "") ids).

Definition getVocabSize (t : SimpleTokenizer) : Z := vocabSize t.

End Tokenizer.

(** ** The tensor library, as far as the services use it *)

Module Tf.

(** What a call can end in: a value, or a thrown [Error] with its
    message. *)
Inductive result (A : Type) : Type :=
| Ok (a : A)
| Throw (msg : string).
Arguments Ok {A} a.
Arguments Throw {A} msg.

(** A dense tensor: its shape and its values, flattened row-major (what
    [data()] and [dataSync()] return). *)
Record Tensor := mkTensor {
  shape : list Z;
  values : list Q
}.

(** A [tf.Variable] is a handle on a mutable tensor.  The variables live
    in a store, in order of creation; a handle is a position in it. *)
Abbreviation Var := nat.
Abbreviation Store := (list Tensor).

Definition size (shp : list Z) : Z := fold_right Z.mul 1 shp.

(** A shape the library can allocate: no negative dimension. *)
Definition allocatable (shp : list Z) : bool := forallb (Z.leb 0) shp.

(** Computations that create variables: they thread the store and may
    throw. *)
Definition Alloc (A : Type) : Type := Store -> result A * Store.

Definition ret {A} (a : A) : Alloc A := fun st => (Ok a, st).

Definition bind {A B} (m : Alloc A) (k : A -> Alloc B) : Alloc B :=
  fun st =>
    match m st with
    | (Ok a, st') => k a st'
    | (Throw msg, st') => (Throw msg, st')
    end.

(** [tf.variable(init)] for an initial tensor of the given shape: the new
    variable is appended to the store.  The library throws on a shape it
    cannot allocate. *)
Definition variable (shp : list Z) (init : list Q) : Alloc Var :=
  fun st =>
    if allocatable shp
    then (Ok (length st), st ++ [mkTensor shp init])
    else (Throw "Invalid typed array length", st).

(** *** float32 numbers *)

(** [Infinity], as a float32 number of this development. *)
Definition infinity : Q := inject_Z (2 ^ 128).

(** [Math.floor(Math.log2(a))] for a positive rational: the exponent of
    the binade of [a]. *)
Definition ilog2 (a : Q) : Z :=
  let k := Z.log2 (Qnum a) - Z.log2 (Zpos (Qden a)) in
  if Qle_bool (Qpower 2 k) a then k else k - 1.

(** The integer nearest to a non-negative rational, the even one of the
    two when they are as near. *)
Definition round_half_even (x : Q) : Z :=
  let f := Qfloor x in
  match (x - inject_Z f ?= 1 # 2)%Q with
  | Lt => f
  | Gt => f + 1
  | Eq => if Z.even f then f else f + 1
  end.

(** The conversion of a number to float32 that a [Float32Array] does
    ([Math.fround]): the nearest number with a significand of 24 bits and
    an exponent of at least -126 (below, the subnormal numbers share the
    exponent -126), the one with the even significand of two that are as
    near; a number that rounds beyond the largest float32 becomes
    [Infinity] or [-Infinity]. *)
Definition float32 (q : Q) : Q :=
  if Qeq_bool q 0 then 0%Q
  else
    let a := Qabs q in
    let e := Z.max (ilog2 a) (-126) in
    let ulp := Qpower 2 (e - 23) in
    let m := round_half_even (a / ulp) in
    let r := Qred (inject_Z m * ulp) in
    let r := if Qle_bool infinity r then infinity else r in
    Qred (if Qle_bool 0 q then r else - r).

(** [a / b] on two float32 numbers as IEEE 754 asks for it, which is what
    the CPU backend computes: the float32 nearest to the quotient.  The
    divisor [c] is a JavaScript number, made a float32 scalar first.
    ([0 / 0] and [Infinity / Infinity] are [NaN] in the program.) *)
Definition div32 (v c : Q) : Q :=
  let c32 := float32 c in
  if Qle_bool infinity (Qabs v) then
    if Qle_bool 0 c32 then v else Qred (- v)
  else if Qeq_bool c32 0 then
    if Qeq_bool v 0 then 0%Q
    else if Qle_bool 0 v then infinity else Qred (- infinity)
  else if Qle_bool infinity (Qabs c32) then 0%Q
  else float32 (v / c32).

(** [tf.tensor(data, shape)]: the library checks that the number of values
    is the one the shape asks for, and keeps the values as float32. *)
Definition tensor (data : list Q) (shp : list Z) : result Tensor :=
  if allocatable shp && (Z.of_nat (length data) =? size shp)
  then Ok (mkTensor shp (float32 <$> data))
  else Throw "Based on the provided shape, the tensor should have a different number of values".

(** [tf.tensor2d(rows, [n, w], 'int32')]: the nested array must have [n]
    rows of [w] entries.  [n] is [None] when the caller computed a
    non-integer for it. *)
Record IntMatrix := mkIntMatrix {
  rows : list (list Z);
  mshape : Z * Z
}.

Definition tensor2d (rs : list (list Z)) (n : option Z) (w : Z)
  : result IntMatrix :=
  match n with
  | Some n =>
      if (Z.of_nat (length rs) =? n)
         && forallb (fun r => Z.of_nat (length r) =? w) rs
      then Ok (mkIntMatrix rs (n, w))
      else Throw "tensor2d() requires values to match the provided shape"
  | None => Throw "tensor2d() requires an integer shape"
  end.

(** [x.div(tf.scalar(c))]: element-wise division of float32 numbers by
    the float32 scalar made of [c].  The division is the backend's
    ([fdiv v c] is what it gives for the entry [v]): correctly rounded on
    the CPU ([div32]), and as the graphics hardware rounds it on WebGL. *)
Definition div_scalar (fdiv : Q -> Q -> Q) (x : list Q) (c : Q) : list Q :=
  map (fun v => fdiv v c) x.

(** [tf.topk(x, k)]: the [k] largest entries in decreasing order, with
    their positions; among equal entries the lower position comes first. *)
Fixpoint rank_insert (e : Q * Z) (ranked : list (Q * Z)) : list (Q * Z) :=
  match ranked with
  | [] => [e]
  | f :: rest => if Qle_bool f.1 e.1 then e :: f :: rest
                 else f :: rank_insert e rest
  end.

Fixpoint indexed_from (i : Z) (x : list Q) : list (Q * Z) :=
  match x with
  | [] => []
  | v :: rest => (v, i) :: indexed_from (i + 1) rest
  end.

Definition ranked (x : list Q) : list (Q * Z) :=
  fold_right rank_insert [] (indexed_from 0 x).

Definition topk (x : list Q) (k : Z) : list Q * list Z :=
  let best := take (Z.to_nat k) (ranked x) in
  (map fst best, map snd best).

(** [x.argMax()] on a vector: the first position of a largest entry. *)
Fixpoint argMax_from (i : Z) (best : Q * Z) (x : list Q) : Z :=
  match x with
  | [] => best.2
  | v :: rest =>
      if Qle_bool v best.1 then argMax_from (i + 1) best rest
      else argMax_from (i + 1) (v, i) rest
  end.

Definition argMax (x : list Q) : Z :=
  match x with
  | [] => 0
  | v :: rest => argMax_from 1 (v, 0) rest
  end.

End Tf.

Notation "'let*' x ':=' m 'in' k" := (Tf.bind m (fun x => k))
  (at level 10, x name, m at level 100, k at level 200, only parsing).

(** ** types.ts *)

Module Types.

Record ModelConfig := mkModelConfig {
  vocabSize : Z;
  dModel : Z;
  numHeads : Z;
  dff : Z;
  numLayers : Z;
  maxLen : Z;
  dropoutRate : Q
}.

Record GenerationConfig := mkGenerationConfig {
  maxNewTokens : Z;
  temperature : Q;
  topK : Z
}.

Record TrainingConfig := mkTrainingConfig {
  batchSize : Z;
  epochs : Z;
  learningRate : Q;
  seqLen : Z
}.

End Types.

(** ** layers.ts: the constructors of the layers *)

Module Layers.

Record TokenEmbedding := mkTokenEmbedding {
  emb_vocabSize : Z;
  emb_dModel : Z;
  embedding : Tf.Var
}.

Record MultiHeadAttention := mkMultiHeadAttention {
  mha_dModel : Z;
  mha_numHeads : Z;
  depth : option Z;
  wq : Tf.Var;
  wk : Tf.Var;
  wv : Tf.Var;
  wo : Tf.Var
}.

Record FeedForward := mkFeedForward {
  w1 : Tf.Var;
  w2 : Tf.Var
}.

Record LayerNormalization := mkLayerNormalization {
  gamma : Tf.Var;
  beta : Tf.Var
}.

Section Constructors.

(** [tf.randomNormal(shape, ...)]: the values drawn for a new tensor.  They
    may differ from call to call; the number of variables created so far
    stands for the state of the generator. *)
Variable randomNormal : nat -> list Z -> list Q.

Definition random_variable (shp : list Z) : Tf.Alloc Tf.Var :=
  fun st => Tf.variable shp (randomNormal (length st) shp) st.

Definition constant_variable (c : Q) (n : Z) : Tf.Alloc Tf.Var :=
  Tf.variable [n] (repeat c (Z.to_nat n)).

Definition TokenEmbedding_new (vocabSize dModel : Z)
  : Tf.Alloc TokenEmbedding :=
  let* e := random_variable [vocabSize; dModel] in
  Tf.ret (mkTokenEmbedding vocabSize dModel e).

Definition MultiHeadAttention_new (dModel numHeads : Z)
  : Tf.Alloc MultiHeadAttention :=
  let depth := Js.floor_div dModel numHeads in
  let* wq := random_variable [dModel; dModel] in
  let* wk := random_variable [dModel; dModel] in
  let* wv := random_variable [dModel; dModel] in
  let* wo := random_variable [dModel; dModel] in
  Tf.ret (mkMultiHeadAttention dModel numHeads depth wq wk wv wo).

Definition FeedForward_new (dModel dff : Z) : Tf.Alloc FeedForward :=
  let* w1 := random_variable [dModel; dff] in
  let* w2 := random_variable [dff; dModel] in
  Tf.ret (mkFeedForward w1 w2).

Definition LayerNormalization_new (dModel : Z)
  : Tf.Alloc LayerNormalization :=
  let* g := constant_variable 1 dModel in
  let* b := constant_variable 0 dModel in
  Tf.ret (mkLayerNormalization g b).

End Constructors.

End Layers.

(** ** transformer.ts *)

Module Transformer.

Import Types Layers.

Record EncoderBlock := mkEncoderBlock {
  mha : MultiHeadAttention;
  ffn : FeedForward;
  layernorm1 : LayerNormalization;
  layernorm2 : LayerNormalization
}.

Record TransformerModel := mkTransformerModel {
  model_embedding : TokenEmbedding;
  encoderBlocks : list EncoderBlock;
  finalLayer : Tf.Var;
  config : ModelConfig
}.

(** What [predict] returns. *)
Record Prediction := mkPrediction {
  predictedId : Z;
  attentionWeights : list (list (list (list Q)))
}.

(** What [forward] returns: logits [[batch, seqLen, vocabSize]] and the
    attention weights of the last block, [null] when there is no block. *)
Record ForwardResult := mkForwardResult {
  logits : list (list (list Q));
  fwd_attentionWeights : option (list (list (list (list Q))))
}.

Section Model.

Variable randomNormal : nat -> list Z -> list Q.

Definition EncoderBlock_new (dModel numHeads dff : Z)
  : Tf.Alloc EncoderBlock :=
  let* m := MultiHeadAttention_new randomNormal dModel numHeads in
  let* f := FeedForward_new randomNormal dModel dff in
  let* l1 := LayerNormalization_new dModel in
  let* l2 := LayerNormalization_new dModel in
  Tf.ret (mkEncoderBlock m f l1 l2).

(** [for (let i = 0; i < config.numLayers; i++) blocks.push(new
    EncoderBlock(...))], with [todo] iterations still to run. *)
Fixpoint push_blocks (todo : nat) (cfg : ModelConfig)
  (blocks : list EncoderBlock) : Tf.Alloc (list EncoderBlock) :=
  match todo with
  | O => Tf.ret blocks
  | S todo' =>
      let* b := EncoderBlock_new (dModel cfg) (numHeads cfg) (dff cfg) in
      push_blocks todo' cfg (blocks ++ [b])
  end.

(** [new TransformerModel(config)]. *)
Definition TransformerModel_new (cfg : ModelConfig)
  : Tf.Alloc TransformerModel :=
  let* e := TokenEmbedding_new randomNormal (vocabSize cfg) (dModel cfg) in
  let* blocks := push_blocks (Z.to_nat (numLayers cfg)) cfg [] in
  let* final := random_variable randomNormal [dModel cfg; vocabSize cfg] in
  Tf.ret (mkTransformerModel e blocks final cfg).

(** The forward pass is tensor arithmetic of the library; it reads the
    store and may throw. *)
Variable forward :
  TransformerModel -> Tf.Store -> Tf.IntMatrix -> bool ->
  Tf.result ForwardResult.

(** [logits.slice([0, n - 1, 0], [1, 1, -1]).squeeze()]. *)
Definition last_token_logits (lg : list (list (list Q))) (n : Z) : list Q :=
  nth (Z.to_nat (n - 1)) (nth 0 lg []) [].

(** [model.predict(tokenIds)]. *)
Definition predict (m : TransformerModel) (st : Tf.Store)
  (tokenIds : list Z) : Tf.result Prediction :=
  if Z.of_nat (length tokenIds) =? 0 then Tf.Ok (mkPrediction 0 [])
  else
    let n := Z.of_nat (length tokenIds) in
    match Tf.tensor2d [tokenIds] (Some 1) n with
    | Tf.Throw msg => Tf.Throw msg
    | Tf.Ok tensorIds =>
        match forward m st tensorIds false with
        | Tf.Throw msg => Tf.Throw msg
        | Tf.Ok out =>
            let lastTokenLogits := last_token_logits (logits out) n in
            let attnData :=
              match fwd_attentionWeights out with
              | Some w => w
              | None => []
              end in
            Tf.Ok (mkPrediction (Tf.argMax lastTokenLogits) attnData)
        end
    end.

End Model.

(** The names of one block's variables, [blk<i>_...]. *)
Definition block_variables (i : nat) (b : EncoderBlock)
  (vars : gmap string Tf.Var) : gmap string Tf.Var :=
  let prefix := "blk" +:+ pretty i in
  let vars := <[prefix +:+ "_mha_wq" := wq (mha b)]> vars in
  let vars := <[prefix +:+ "_mha_wk" := wk (mha b)]> vars in
  let vars := <[prefix +:+ "_mha_wv" := wv (mha b)]> vars in
  let vars := <[prefix +:+ "_mha_wo" := wo (mha b)]> vars in
  let vars := <[prefix +:+ "_ffn_w1" := w1 (ffn b)]> vars in
  let vars := <[prefix +:+ "_ffn_w2" := w2 (ffn b)]> vars in
  let vars := <[prefix +:+ "_ln1_g" := gamma (layernorm1 b)]> vars in
  let vars := <[prefix +:+ "_ln1_b" := beta (layernorm1 b)]> vars in
  let vars := <[prefix +:+ "_ln2_g" := gamma (layernorm2 b)]> vars in
  <[prefix +:+ "_ln2_b" := beta (layernorm2 b)]> vars.

Fixpoint blocks_variables (i : nat) (blocks : list EncoderBlock)
  (vars : gmap string Tf.Var) : gmap string Tf.Var :=
  match blocks with
  | [] => vars
  | b :: rest => blocks_variables (S i) rest (block_variables i b vars)
  end.

(** [model.getTrainableVariables()]. *)
Definition getTrainableVariables (m : TransformerModel)
  : gmap string Tf.Var :=
  let vars : gmap string Tf.Var :=
    <["emb_embedding" := embedding (model_embedding m)]> ∅ in
  let vars := blocks_variables 0 (encoderBlocks m) vars in
  <["final_proj" := finalLayer m]> vars.

End Transformer.

(** ** generation.ts: the token sampler *)

Module Generation.

(** [Math.max(a, b)]. *)
Definition max (a b : Q) : Q := if Qle_bool a b then b else a.

(** The floor of the temperature, [1e-5]. *)
Definition epsilon : Q := 1 # 100000.

(** [data[i]] on a typed array: [undefined] out of range. *)
Definition at_index (data : list Z) (i : Z) : option Z :=
  if i <? 0 then None else data !! Z.to_nat i.

(** The scan of the top-k branch, from position [i] with [acc]
    accumulated: the first position whose running sum reaches [r], and
    [selectedIndexInTopK] as it was when no position does. *)
Fixpoint scan_topk (r : Q) (probs : list Q) (i : Z) (acc : Q)
  (selectedIndexInTopK : Z) : Z :=
  match probs with
  | [] => selectedIndexInTopK
  | p :: rest =>
      let acc := (acc + p)%Q in
      if Qle_bool r acc then i
      else scan_topk r rest (i + 1) acc selectedIndexInTopK
  end.

(** The scan of the full-vocabulary branch: [Some i] when the loop
    returns [i], [None] when it runs to its end. *)
Fixpoint scan_full (r : Q) (probs : list Q) (i : Z) (acc : Q) : option Z :=
  match probs with
  | [] => None
  | p :: rest =>
      let acc := (acc + p)%Q in
      if Qle_bool r acc then Some i
      else scan_full r rest (i + 1) acc
  end.

Section Sampler.

(** The division of a float32 number by a float32 scalar, as the backend
    in use computes it. *)
Variable fdiv : Q -> Q -> Q.

(** [tf.softmax(x).dataSync()]: the probabilities, as the library rounds
    them. *)
Variable softmax : list Q -> list Q.

(** [sampleFromLogits(logits, temperature, topK)], with [r] the value
    [Math.random()] returns.  The result is [None] when the function
    returns [undefined]. *)
Definition sampleFromLogits (logits : list Q) (temperature : Q) (topK : Z)
  (r : Q) : option Z :=
  let adjusted := Tf.div_scalar fdiv logits (max temperature epsilon) in
  if (0 <? topK) && (topK <? Z.of_nat (length logits)) then
    let '(values, indices) := Tf.topk adjusted topK in
    let topKProbsData := softmax values in
    let selectedIndexInTopK := scan_topk r topKProbsData 0 0%Q 0 in
    at_index indices selectedIndexInTopK
  else
    let probsData := softmax adjusted in
    match scan_full r probsData 0 0%Q with
    | Some i => Some i
    | None => Some (Z.of_nat (length probsData) - 1)
    end.

End Sampler.

(** *** The generation loop *)

(** What a call of [generateText] leaves behind: the promise's result (the
    generated text, or the exception), the strings passed to [onStep], and
    [tokenIds] as the loop left it.  An id is [None] when the sampler
    returned [undefined]. *)
Record Generated := mkGenerated {
  gen_result : Tf.result string;
  emitted : list string;
  gen_tokenIds : list (option Z)
}.

(** [tokenIds.slice(-contextLen)] with [contextLen = Math.min(tokenIds.length,
    maxLen)]. *)
Definition context_window {A} (tokenIds : list A) (maxLen : Z) : list A :=
  let contextLen := Z.min (Z.of_nat (length tokenIds)) maxLen in
  Js.slice tokenIds (- contextLen) (Z.of_nat (length tokenIds)).

(** [tokenizer.decode([nextId])]; no key of [inverseVocab] is
    [undefined]. *)
Definition decode_next (tokenizer : Tokenizer.SimpleTokenizer)
  (nextId : option Z) : string :=
  match nextId with
  | Some id => Tokenizer.decode tokenizer [id]
  | None => ""
  end.

Section Generate.

Variable fdiv : Q -> Q -> Q.
Variable softmax : list Q -> list Q.

(** [model.forward(tf.tensor2d([contextIds], [1, contextIds.length],
    'int32'), false)]: tensor arithmetic of the library on the ids of the
    context. *)
Variable forward_ids :
  Transformer.TransformerModel -> Tf.Store -> list (option Z) ->
  Tf.result Transformer.ForwardResult.

(** The value of the [i]-th call of [Math.random()]. *)
Variable random : nat -> Q.

(** The loop of [generateText], with [todo] iterations to run from the
    [i]-th. *)
Fixpoint generate_loop (model : Transformer.TransformerModel)
  (tokenizer : Tokenizer.SimpleTokenizer) (cfg : Types.GenerationConfig)
  (st : Tf.Store) (todo : nat) (i : nat) (tokenIds : list (option Z))
  (resultText : string) (steps : list string) : Generated :=
  match todo with
  | O => mkGenerated (Tf.Ok resultText) steps tokenIds
  | S todo' =>
      let contextIds :=
        context_window tokenIds (Types.maxLen (Transformer.config model)) in
      match forward_ids model st contextIds with
      | Tf.Throw msg => mkGenerated (Tf.Throw msg) steps tokenIds
      | Tf.Ok out =>
          let lg := Transformer.logits out in
          let seqLen := Z.of_nat (length (nth 0 lg [])) in
          (* [logits.slice([0, seqLen - 1, 0], [1, 1, -1])] *)
          if seqLen - 1 <? 0 then
            mkGenerated
              (Tf.Throw "slice() does not support negative begin indexing.")
              steps tokenIds
          else
            let lastLogits := Transformer.last_token_logits lg seqLen in
            let nextId :=
              sampleFromLogits fdiv softmax lastLogits (Types.temperature cfg)
                (Types.topK cfg) (random i) in
            let nextChar := decode_next tokenizer nextId in
            generate_loop model tokenizer cfg st todo' (S i)
              (tokenIds ++ [nextId]) (resultText +:+ nextChar)
              (steps ++ [nextChar])
      end
  end.

(** [generateText(model, tokenizer, prompt, config, onStep)]. *)
Definition generateText (model : Transformer.TransformerModel)
  (tokenizer : Tokenizer.SimpleTokenizer) (prompt : string)
  (cfg : Types.GenerationConfig) (st : Tf.Store) : Generated :=
  let tokenIds := Tokenizer.encode tokenizer prompt in
  let tokenIds :=
    if Z.of_nat (length tokenIds) =? 0
    then [Js.or_num (Tokenizer.vocab tokenizer !! "<UNK>") 1]
    else tokenIds in
  generate_loop model tokenizer cfg st (Z.to_nat (Types.maxNewTokens cfg)) 0
    (Some <$> tokenIds) "" [].

End Generate.

End Generation.

(** ** persistence.ts *)

Module Persistence.

Import Types Transformer.

Record SerializedWeight := mkSerializedWeight {
  ser_shape : list Z;
  ser_data : list Q
}.

Record SavedModelState := mkSavedModelState {
  saved_config : ModelConfig;
  saved_tokenizer : Tokenizer.SerializedTokenizer;
  weights : gmap string SerializedWeight;
  timestamp : Z
}.

(** One step of the loop of [exportModelState]: read the variable and
    store its shape and values under its name. *)
Definition export_entry (st : Tf.Store)
  (acc : Tf.result (gmap string SerializedWeight)) (entry : string * Tf.Var)
  : Tf.result (gmap string SerializedWeight) :=
  match acc with
  | Tf.Throw msg => Tf.Throw msg
  | Tf.Ok ws =>
      match st !! entry.2 with
      | Some t =>
          Tf.Ok (<[entry.1 := mkSerializedWeight (Tf.shape t) (Tf.values t)]> ws)
      | None => Tf.Throw "Tensor is disposed."
      end
  end.

(** [exportModelState(model, tokenizer)]; [now] is [Date.now()].  The
    entries of [vars] are visited in the order of [map_to_list]; the
    object built does not depend on the order. *)
Definition exportModelState (model : TransformerModel)
  (tokenizer : Tokenizer.SimpleTokenizer) (st : Tf.Store) (now : Z)
  : Tf.result SavedModelState :=
  let vars := getTrainableVariables model in
  match fold_left (export_entry st) (map_to_list vars) (Tf.Ok ∅) with
  | Tf.Throw msg => Tf.Throw msg
  | Tf.Ok ws =>
      let serializedTokenizer :=
        Tokenizer.mkSerialized (Tokenizer.vocab tokenizer)
          (Tokenizer.inverseVocab tokenizer) (Tokenizer.vocabSize tokenizer) in
      Tf.Ok (mkSavedModelState (config model) serializedTokenizer ws now)
  end.

(** [console.warn] lines of the import. *)
Inductive Warning :=
| NoVariable (name : string)
| ShapeMismatch (name : string).

(** [vars[name]] on the plain object [getTrainableVariables] returns: an
    own property, a property inherited from [Object.prototype] (truthy,
    and without a [shape]), or [undefined]. *)
Inductive Property :=
| Own (v : Tf.Var)
| Inherited
| Undefined.

Definition prototype_names : list string :=
  ["constructor"; "__proto__"; "hasOwnProperty"; "isPrototypeOf";
   "propertyIsEnumerable"; "toLocaleString"; "toString"; "valueOf";
   "__defineGetter__"; "__defineSetter__"; "__lookupGetter__";
   "__lookupSetter__"].

Definition get_property (vars : gmap string Tf.Var) (name : string)
  : Property :=
  match vars !! name with
  | Some v => Own v
  | None => if decide (name ∈ prototype_names) then Inherited else Undefined
  end.

(** The state of the import loop: the store, the warnings so far, and
    whether an exception has ended the loop. *)
Record ImportState := mkImportState {
  store : Tf.Store;
  warnings : list Warning;
  thrown : option string
}.

(** The body of the loop of [importModelState] for one entry.  [v.shape]
    is the shape of the tensor behind [v], and [v.assign] puts the new
    tensor in its place; [assign] does not throw on a variable that holds
    no tensor, and the store has no place to keep what is assigned to a
    handle outside it.  No function of the services disposes a variable,
    so the handles of a model are positions of the stores it is used
    with. *)
Definition import_entry (vars : gmap string Tf.Var) (s : ImportState)
  (entry : string * SerializedWeight) : ImportState :=
  let '(name, spec) := entry in
  match thrown s with
  | Some _ => s
  | None =>
      match get_property vars name with
      | Undefined =>
          mkImportState (store s) (warnings s ++ [NoVariable name]) None
      | Inherited =>
          mkImportState (store s) (warnings s ++ [ShapeMismatch name]) None
      | Own v =>
          match store s !! v with
          | None => mkImportState (store s) (warnings s) None
          | Some live =>
              if decide (Tf.shape live = ser_shape spec) then
                match Tf.tensor (ser_data spec) (ser_shape spec) with
                | Tf.Throw msg =>
                    mkImportState (store s) (warnings s) (Some msg)
                | Tf.Ok tensor =>
                    mkImportState (<[v := tensor]> (store s)) (warnings s) None
                end
              else
                mkImportState (store s)
                  (warnings s ++ [ShapeMismatch name]) None
          end
      end
  end.

(** [importModelState(model, state)].  The entries of [state.weights] are
    visited in the order of [map_to_list], which need not be the order of
    [Object.entries]; the order matters only for the order of the
    warnings and for what has been assigned when an exception ends the
    loop. *)
Definition importModelState (model : TransformerModel)
  (state : SavedModelState) (st : Tf.Store) : ImportState :=
  let vars := getTrainableVariables model in
  fold_left (import_entry vars) (map_to_list (weights state))
    (mkImportState st [] None).

Definition importTokenizer (serialized : Tokenizer.SerializedTokenizer)
  : Tokenizer.SimpleTokenizer :=
  Tokenizer.from_serialized (Some serialized).

End Persistence.

(** ** training.ts *)

Module Training.

Import Types Transformer.

Record Dataset := mkDataset {
  inputs : Tf.IntMatrix;
  targets : Tf.IntMatrix
}.

(** The windows built so far: [inputIndices] and [targetIndices]. *)
Definition Windows : Type := list (list Z) * list (list Z).

(** The loop [for (let i = 0; i <= ids.length - seqLen - 1; i++)] of
    [buildDataset], entered at [i] with the windows pushed so far. *)
Equations? windows_from (ids : list Z) (seqLen : Z) (i : Z) (w : Windows)
  : Windows by wf (Z.to_nat (Z.of_nat (length ids) - seqLen - i)) lt :=
  windows_from ids seqLen i w
    with Z_le_dec i (Z.of_nat (length ids) - seqLen - 1) => {
    | left _ =>
        let inputWindow := Js.slice ids i (i + seqLen) in
        let targetWindow := Js.slice ids (i + 1) (i + seqLen + 1) in
        windows_from ids seqLen (i + 1)
          (w.1 ++ [inputWindow], w.2 ++ [targetWindow])
    | right _ => w
    }.
Proof. lia. Qed.

(** [Math.floor(n / batchSize) * batchSize]; [None] is [NaN]. *)
Definition truncate_to_batches (n batchSize : Z) : option Z :=
  match Js.floor_div n batchSize with
  | Some q => Some (q * batchSize)
  | None => None
  end.

(** [xs.slice(0, n)] when [n] may be [NaN], which [slice] reads as 0. *)
Definition slice_to {A} (xs : list A) (n : option Z) : list A :=
  Js.slice xs 0 (default 0 n).

Definition too_short : string :=
  "Text too short for current sequence length and batch size.".

(** [buildDataset(text, tokenizer, seqLen, batchSize)]. *)
Definition buildDataset (text : string) (tokenizer : Tokenizer.SimpleTokenizer)
  (seqLen batchSize : Z) : Tf.result Dataset :=
  let ids := Tokenizer.encode tokenizer text in
  let '(inputIndices, targetIndices) := windows_from ids seqLen 0 ([], []) in
  let numSamples :=
    truncate_to_batches (Z.of_nat (length inputIndices)) batchSize in
  if decide (numSamples = Some 0) then Tf.Throw too_short
  else
    let slicedInputs := slice_to inputIndices numSamples in
    let slicedTargets := slice_to targetIndices numSamples in
    match Tf.tensor2d slicedInputs numSamples seqLen with
    | Tf.Throw msg => Tf.Throw msg
    | Tf.Ok ins =>
        match Tf.tensor2d slicedTargets numSamples seqLen with
        | Tf.Throw msg => Tf.Throw msg
        | Tf.Ok tgts => Tf.Ok (mkDataset ins tgts)
        end
    end.

(** [t.slice([start, 0], [batchSize, seqLen])] on a matrix of ids. *)
Definition slice_rows (t : Tf.IntMatrix) (start batchSize seqLen : Z)
  : Tf.IntMatrix :=
  Tf.mkIntMatrix
    (map (fun row => take (Z.to_nat seqLen) row)
       (take (Z.to_nat batchSize) (drop (Z.to_nat start) (Tf.rows t))))
    (batchSize, seqLen).

Section Train.

(** The optimizer and its state (the moments Adam keeps). *)
Variable Optimizer : Type.
Variable adam : Q -> Optimizer.

(** One optimization step: forward pass on the batch, loss, gradients and
    [optimizer.applyGradients].  It is tensor arithmetic of the library:
    it returns the store with the variables updated, the optimizer's new
    state and the value of the loss, or throws. *)
Variable optimization_step :
  TransformerModel -> Tf.IntMatrix -> Tf.IntMatrix ->
  Tf.Store -> Optimizer -> Tf.result (Tf.Store * Optimizer * Q).

(** [x.toFixed(4)]. *)
Variable toFixed4 : Q -> string.

(** What a call of [trainModel] leaves behind: the store of the model's
    variables, the lines passed to [onLog], and whether the call returned
    or threw. *)
Record Outcome := mkOutcome {
  out_store : Tf.Store;
  out_log : list string;
  out_result : Tf.result unit
}.

Record LoopState := mkLoopState {
  ls_store : Tf.Store;
  ls_optimizer : Optimizer;
  totalLoss : Q
}.

(** The loop over the batches of one epoch, with [todo] steps to run from
    [step]. *)
Fixpoint run_steps (model : TransformerModel) (cfg : TrainingConfig)
  (ds : Dataset) (todo : nat) (step : Z) (s : LoopState)
  : LoopState * Tf.result unit :=
  match todo with
  | O => (s, Tf.Ok tt)
  | S todo' =>
      let start := step * batchSize cfg in
      let batchInputs :=
        slice_rows (inputs ds) start (batchSize cfg) (seqLen cfg) in
      let batchTargets :=
        slice_rows (targets ds) start (batchSize cfg) (seqLen cfg) in
      match optimization_step model batchInputs batchTargets
              (ls_store s) (ls_optimizer s) with
      | Tf.Throw msg => (s, Tf.Throw msg)
      | Tf.Ok (st', opt', lossVal) =>
          run_steps model cfg ds todo' (step + 1)
            (mkLoopState st' opt' (totalLoss s + lossVal)%Q)
      end
  end.

(** The loop over the epochs, with [todo] epochs to run from [epoch]. *)
Fixpoint run_epochs (model : TransformerModel) (cfg : TrainingConfig)
  (ds : Dataset) (stepsPerEpoch : Z) (todo : nat) (epoch : Z)
  (st : Tf.Store) (opt : Optimizer) (log : list string) : Outcome :=
  match todo with
  | O => mkOutcome st log (Tf.Ok tt)
  | S todo' =>
      match run_steps model cfg ds (Z.to_nat stepsPerEpoch) 0
              (mkLoopState st opt 0%Q) with
      | (s, Tf.Throw msg) => mkOutcome (ls_store s) log (Tf.Throw msg)
      | (s, Tf.Ok _) =>
          let avgLoss := (totalLoss s / inject_Z stepsPerEpoch)%Q in
          let line := "Epoch " +:+ pretty epoch +:+ "/" +:+ pretty (epochs cfg)
                      +:+ " - Loss: " +:+ toFixed4 avgLoss in
          run_epochs model cfg ds stepsPerEpoch todo' (epoch + 1)
            (ls_store s) (ls_optimizer s) (log ++ [line])
      end
  end.

(** [trainModel(model, tokenizer, corpus, config, onLog)]. *)
Definition trainModel (model : TransformerModel)
  (tokenizer : Tokenizer.SimpleTokenizer) (corpus : string)
  (cfg : TrainingConfig) (st : Tf.Store) : Outcome :=
  let log := ["Preparing dataset from "
              +:+ pretty (String.length corpus) +:+ " characters..."] in
  match buildDataset corpus tokenizer (seqLen cfg) (batchSize cfg) with
  | Tf.Throw message => mkOutcome st (log ++ ["Error: " +:+ message]) (Tf.Ok tt)
  | Tf.Ok dataset =>
      let numSamples := (Tf.mshape (inputs dataset)).1 in
      let stepsPerEpoch := numSamples / batchSize cfg in
      let log := log ++ ["Dataset created. Samples: " +:+ pretty numSamples
                         +:+ ". Batches per epoch: " +:+ pretty stepsPerEpoch] in
      let optimizer := adam (learningRate cfg) in
      let out := run_epochs model cfg dataset stepsPerEpoch
                   (Z.to_nat (epochs cfg)) 1 st optimizer log in
      match out_result out with
      | Tf.Throw msg => out
      | Tf.Ok _ =>
          mkOutcome (out_store out)
            (out_log out ++ ["Training complete. Weights updated."]) (Tf.Ok tt)
      end
  end.

End Train.

End Training.

(** ** tf-utils.ts: the look-ahead mask *)

Module TfUtils.

(** [buffer.set(value, i, j)] on a buffer of shape [[size, size]]: the
    values are kept row-major. *)
Definition buffer_set (values : list Q) (size : Z) (value : Q) (i j : Z)
  : list Q :=
  <[Z.to_nat (i * size + j) := value]> values.

(** The inner loop [for (let j = 0; j < size; j++)] of row [i], with
    [todo] iterations to run from [j]. *)
Fixpoint mask_columns (size i : Z) (todo : nat) (j : Z) (values : list Q)
  : list Q :=
  match todo with
  | O => values
  | S todo' =>
      let values :=
        if i <? j then buffer_set values size 1%Q i j
        else buffer_set values size 0%Q i j in
      mask_columns size i todo' (j + 1) values
  end.

(** The outer loop [for (let i = 0; i < size; i++)]. *)
Fixpoint mask_rows (size : Z) (todo : nat) (i : Z) (values : list Q)
  : list Q :=
  match todo with
  | O => values
  | S todo' =>
      mask_rows size todo' (i + 1)
        (mask_columns size i (Z.to_nat size) 0 values)
  end.

(** [createLookAheadMask(size)]: [tf.buffer([size, size])] is a buffer of
    [sizeFromShape([size, size])] zeros. *)
Definition createLookAheadMask (size : Z) : Tf.Tensor :=
  let buffer := repeat 0%Q (Z.to_nat (Tf.size [size; size])) in
  Tf.mkTensor [size; size] (mask_rows size (Z.to_nat size) 0 buffer).

End TfUtils.

(** ** config/modelConfig.ts *)

Module ModelConfigPresets.

Import Types.

Inductive ModelSize := tiny | small | medium.

Record PresetConfig := mkPresetConfig {
  name : string;
  preset_dModel : Z;
  preset_numHeads : Z;
  preset_numLayers : Z;
  preset_dff : Z;
  preset_maxLen : Z;
  preset_dropoutRate : Q
}.

Definition MODEL_PRESETS (size : ModelSize) : PresetConfig :=
  match size with
  | tiny => mkPresetConfig "Tiny (Playground)" 64 4 2 256 64 (1 # 10)
  | small => mkPresetConfig "Small (Learner)" 128 4 4 512 128 (1 # 10)
  | medium => mkPresetConfig "Medium (Heavy)" 256 8 6 1024 128 (1 # 10)
  end.

(** [buildModelConfig(size, vocabSize)]: the preset without its name, with
    the vocabulary size. *)
Definition buildModelConfig (size : ModelSize) (vocabSize : Z) : ModelConfig :=
  let base := MODEL_PRESETS size in
  mkModelConfig vocabSize (preset_dModel base) (preset_numHeads base)
    (preset_dff base) (preset_numLayers base) (preset_maxLen base)
    (preset_dropoutRate base).

End ModelConfigPresets.

(** * The vocabulary of the properties *)

(** ** Tokenizer *)

(** The characters the constructor registers: distinct, and exactly those
    of the corpus. *)
Definition alphabet (corpus : string) : list string :=
  Js.sort (Js.set_from (Js.split_chars corpus)).

(** What [decode] makes of the id [encode] gives one character. *)
Definition echo (corpus : string) (ch : string) : string :=
  if decide (ch ∈ Js.split_chars corpus) then ch else "<UNK>".

(** ** Construction *)

(** [allocates m n P]: from every store, [m] returns normally, having
    created exactly [n] variables; [P] relates the number of variables
    there were before to the result. *)
Definition allocates {A} (m : Tf.Alloc A) (n : nat) (P : nat -> A -> Prop)
  : Prop :=
  forall st, exists a st',
    m st = (Tf.Ok a, st')
    /\ length st' = (length st + n)%nat /\ P (length st) a.

(** The variables of a block and of a model, in order of creation. *)
Definition block_handles (b : Transformer.EncoderBlock) : list Tf.Var :=
  [Layers.wq (Transformer.mha b); Layers.wk (Transformer.mha b);
   Layers.wv (Transformer.mha b); Layers.wo (Transformer.mha b);
   Layers.w1 (Transformer.ffn b); Layers.w2 (Transformer.ffn b);
   Layers.gamma (Transformer.layernorm1 b);
   Layers.beta (Transformer.layernorm1 b);
   Layers.gamma (Transformer.layernorm2 b);
   Layers.beta (Transformer.layernorm2 b)].

Definition model_handles (m : Transformer.TransformerModel) : list Tf.Var :=
  Layers.embedding (Transformer.model_embedding m)
  :: concat (block_handles <$> Transformer.encoderBlocks m)
  ++ [Transformer.finalLayer m].

(** The entries [getTrainableVariables] writes, in order: the names with
    their variables. *)
Definition block_entries (i : nat) (b : Transformer.EncoderBlock)
  : list (string * Tf.Var) :=
  zip ((fun suffix => "blk" +:+ pretty i +:+ suffix) <$>
         ["_mha_wq"; "_mha_wk"; "_mha_wv"; "_mha_wo"; "_ffn_w1"; "_ffn_w2";
          "_ln1_g"; "_ln1_b"; "_ln2_g"; "_ln2_b"])
      (block_handles b).

Fixpoint blocks_entries (i : nat) (blocks : list Transformer.EncoderBlock)
  : list (string * Tf.Var) :=
  match blocks with
  | [] => []
  | b :: rest => block_entries i b ++ blocks_entries (S i) rest
  end.

Definition model_entries (m : Transformer.TransformerModel)
  : list (string * Tf.Var) :=
  ("emb_embedding", Layers.embedding (Transformer.model_embedding m))
  :: blocks_entries 0 (Transformer.encoderBlocks m)
  ++ [("final_proj", Transformer.finalLayer m)].

(** The depth every attention layer of a model for [cfg] is given. *)
Definition floored_depth (cfg : Types.ModelConfig)
  (b : Transformer.EncoderBlock) : Prop :=
  Layers.depth (Transformer.mha b)
  = Js.floor_div (Types.dModel cfg) (Types.numHeads cfg).

(** ** Sampling *)

(** The sum of the probabilities the scan accumulates. *)
Definition total (probs : list Q) : Q := fold_right Qplus 0%Q probs.

(** The draw is beyond the accumulated sum of a distribution. *)
Definition beyond (r : Q) (probs : list Q) : Prop :=
  Forall (fun p => (0 <= p)%Q) probs /\ (total probs < r)%Q.

(** [i] is a position of a largest entry of [x]. *)
Definition is_argmax (x : list Q) (i : Z) : Prop :=
  exists m, 0 <= i /\ x !! Z.to_nat i = Some m /\ Forall (fun v => (v <= m)%Q) x.

(** How many entries of [x] are larger than [v]. *)
Definition better_than (x : list Q) (v : Q) : nat :=
  length (filter (fun w => negb (Qle_bool w v)) x).

(** The order [topk] ranks by: the larger value first. *)
Definition ranks_before (e f : Q * Z) : Prop := (f.1 <= e.1)%Q.

(** The same with the ties: of two equal values, the lower position
    first. *)
Definition ranks_first (e f : Q * Z) : Prop :=
  (f.1 < e.1)%Q \/ ((f.1 == e.1)%Q /\ e.2 < f.2).

(** ** Persistence *)

(** The variables of a model are live in the store, and no two names
    share a variable. *)
Definition vars_ok (vars : gmap string Tf.Var) (st : Tf.Store) : Prop :=
  map_Forall (fun _ v => (v < length st)%nat) vars
  /\ NoDup (map_to_list vars).*2.

(** A saved entry is a tensor: it has as many values as its shape asks
    for. *)
Definition entry_ok (spec : Persistence.SerializedWeight) : Prop :=
  Tf.allocatable (Persistence.ser_shape spec) = true
  /\ Z.of_nat (length (Persistence.ser_data spec))
     = Tf.size (Persistence.ser_shape spec).

(** Every tensor of the store has as many values as its shape asks for,
    and they are float32 numbers: the conversion to float32 leaves them
    as they are. *)
Definition store_ok (st : Tf.Store) : Prop :=
  Forall (fun t => Tf.allocatable (Tf.shape t) = true
                   /\ Z.of_nat (length (Tf.values t)) = Tf.size (Tf.shape t)
                   /\ Tf.float32 <$> Tf.values t = Tf.values t) st.

(** [keeps_ok m]: whenever [m] returns, it leaves a store of such tensors
    if it found one. *)
Definition keeps_ok {A} (m : Tf.Alloc A) : Prop :=
  forall st a st', m st = (Tf.Ok a, st') -> store_ok st -> store_ok st'.

(** The tensor [tf.tensor] makes of a saved entry: its numbers, as
    float32. *)
Definition saved_tensor (spec : Persistence.SerializedWeight) : Tf.Tensor :=
  Tf.mkTensor (Persistence.ser_shape spec)
    (Tf.float32 <$> Persistence.ser_data spec).

(** The warning the import gives for an entry, if any; it depends on the
    shapes of the live tensors only. *)
Definition warning_of (vars : gmap string Tf.Var) (shapes : list (list Z))
  (entry : string * Persistence.SerializedWeight)
  : option Persistence.Warning :=
  match Persistence.get_property vars entry.1 with
  | Persistence.Undefined => Some (Persistence.NoVariable entry.1)
  | Persistence.Inherited => Some (Persistence.ShapeMismatch entry.1)
  | Persistence.Own v =>
      if decide (shapes !! v = Some (Persistence.ser_shape entry.2))
      then None else Some (Persistence.ShapeMismatch entry.1)
  end.

(** The tensor behind a variable after the import of the entries [ws]. *)
Definition restored (ws : gmap string Persistence.SerializedWeight)
  (name : string) (live : Tf.Tensor) : Tf.Tensor :=
  match ws !! name with
  | Some spec =>
      if decide (Tf.shape live = Persistence.ser_shape spec)
      then saved_tensor spec else live
  | None => live
  end.

(** What [exportModelState] stores for a tensor. *)
Definition serialized (t : Tf.Tensor) : Persistence.SerializedWeight :=
  Persistence.mkSerializedWeight (Tf.shape t) (Tf.values t).

(** ** The shapes of a model *)

(** The shapes of the variables the constructor creates for a block and
    for a model, in order of creation. *)
Definition block_shapes (cfg : Types.ModelConfig) : list (list Z) :=
  let d := Types.dModel cfg in
  let f := Types.dff cfg in
  [[d; d]; [d; d]; [d; d]; [d; d]; [d; f]; [f; d]; [d]; [d]; [d]; [d]].

Definition model_shapes (cfg : Types.ModelConfig) : list (list Z) :=
  [[Types.vocabSize cfg; Types.dModel cfg]]
  ++ concat (replicate (Z.to_nat (Types.numLayers cfg)) (block_shapes cfg))
  ++ [[Types.dModel cfg; Types.vocabSize cfg]].

(** ** Training *)

(** The batch of [B] consecutive windows of [L] ids from the window
    [start] on; the windows of the targets are those shifted by one id. *)
Definition batch_of (ids : list Z) (L B : Z) (shift start : nat)
  : Tf.IntMatrix :=
  Tf.mkIntMatrix
    ((fun i => take (Z.to_nat L) (drop (i + shift) ids))
       <$> seq start (Z.to_nat B))
    (B, L).

(** The line logged after the epoch [i + 1] with the average loss
    [avgLoss]. *)
Definition epoch_line (toFixed4 : Q -> string) (cfg : Types.TrainingConfig)
  (i : nat) (avgLoss : Q) : string :=
  "Epoch " +:+ pretty (Z.of_nat i + 1) +:+ "/" +:+ pretty (Types.epochs cfg)
  +:+ " - Loss: " +:+ toFixed4 avgLoss.

(** The batches of one epoch, in the order of its steps: the inputs and
    the targets of the step [k] are the [B] windows from the window
    [k * B] on. *)
Definition epoch_batches (ids : list Z) (L B : Z) (steps : nat)
  : list (Tf.IntMatrix * Tf.IntMatrix) :=
  (fun k => (batch_of ids L B 0 (k * Z.to_nat B),
             batch_of ids L B 1 (k * Z.to_nat B))) <$> seq 0 steps.

(** Steps made in turn on a list of batches, each from the store and the
    optimizer the one before left, up to the first that throws: the store
    and the optimizer after the steps that returned, their losses, and the
    message of the step that threw, if one did. *)
Fixpoint steps_over {Optimizer : Type}
  (step : Tf.IntMatrix -> Tf.IntMatrix -> Tf.Store -> Optimizer ->
          Tf.result (Tf.Store * Optimizer * Q))
  (batches : list (Tf.IntMatrix * Tf.IntMatrix))
  (st : Tf.Store) (opt : Optimizer)
  : Tf.Store * Optimizer * list Q * option string :=
  match batches with
  | [] => (st, opt, [], None)
  | (x, y) :: rest =>
      match step x y st opt with
      | Tf.Throw msg => (st, opt, [], Some msg)
      | Tf.Ok (st', opt', loss) =>
          let '(st'', opt'', losses, thrown) :=
            steps_over step rest st' opt' in
          (st'', opt'', loss :: losses, thrown)
      end
  end.

(** How a run of steps ends: it returns, or throws what a step threw. *)
Definition thrown_result (thrown : option string) : Tf.result unit :=
  match thrown with
  | Some msg => Tf.Throw msg
  | None => Tf.Ok tt
  end.

(** The losses of an epoch added up as the loop adds them, from 0, over
    the number of steps. *)
Definition average_loss (losses : list Q) (steps : Z) : Q :=
  (fold_left Qplus losses 0 / inject_Z steps)%Q.

(** ** A small model to run the persistence functions on *)

Module Sample.

Import Types Transformer.

Definition zeros (_ : nat) (shp : list Z) : list Q :=
  repeat 0%Q (Z.to_nat (Tf.size shp)).

Definition config : ModelConfig := mkModelConfig 3 2 1 4 1 8 (1 # 10).

Definition built : Tf.result TransformerModel * Tf.Store :=
  Eval vm_compute in TransformerModel_new zeros config [].

Definition model : TransformerModel :=
  match built.1 with
  | Tf.Ok m => m
  | Tf.Throw _ =>
      mkTransformerModel (Layers.mkTokenEmbedding 0 0 0%nat) [] 0%nat config
  end.

Definition store : Tf.Store := built.2.

(** A saved state for another architecture: the embedding fits, the final
    projection has another shape, and one name is unknown. *)
Definition foreign_state : Persistence.SavedModelState :=
  Persistence.mkSavedModelState config
    (Tokenizer.mkSerialized ∅ ∅ 0)
    (<["emb_embedding" :=
         Persistence.mkSerializedWeight [3; 2] [1; 2; 3; 4; 5; 6]%Q]>
       (<["final_proj" := Persistence.mkSerializedWeight [1; 1] [7]%Q]>
          (<["ghost" := Persistence.mkSerializedWeight [1] [0]%Q]> ∅)))
    0.


End Sample.

(** * Properties *)

(** ** The tensor library *)

(** A nested array that fits the shape is accepted. *)
Lemma tensor2d_ok (rs : list (list Z)) (n w : Z) :
  Z.of_nat (length rs) = n ->
  Forall (fun r => Z.of_nat (length r) = w) rs ->
  Tf.tensor2d rs (Some n) w = Tf.Ok (Tf.mkIntMatrix rs (n, w)).
Proof.
  intros Hn Hrows. unfold Tf.tensor2d.
  apply Z.eqb_eq in Hn. rewrite Hn. simpl.
  replace (forallb _ rs) with true; [done|].
  symmetry. apply forallb_forall. intros r Hr. apply Z.eqb_eq.
  rewrite Forall_forall in Hrows. apply Hrows. by apply list_elem_of_In.
Qed.

(** ** Tokenizer *)

Section TokenizerFacts.

Import Tokenizer.

Lemma split_chars_single s ch :
  ch ∈ Js.split_chars s -> exists c, ch = String c EmptyString.
Proof.
  induction s as [|a s IH]; simpl; intros H.
  - by apply elem_of_nil in H.
  - apply elem_of_cons in H as [->|H]; eauto.
Qed.

Lemma join_split_chars s : Js.join (Js.split_chars s) = s.
Proof. induction s as [|a s IH]; simpl; [done|]. by rewrite IH. Qed.

Lemma set_add_fold xs : forall acc,
  NoDup acc ->
  NoDup (fold_left Js.set_add xs acc)
  /\ forall x, x ∈ fold_left Js.set_add xs acc <-> x ∈ acc \/ x ∈ xs.
Proof.
  induction xs as [|y xs IH]; intros acc Hnd; simpl.
  - split; [done|]. intros x. rewrite elem_of_nil. tauto.
  - assert (Hnd' : NoDup (Js.set_add acc y)).
    { unfold Js.set_add. case_decide; [done|].
      apply NoDup_app. split_and!; [done| |apply NoDup_singleton].
      intros z Hz Hz'. apply list_elem_of_singleton in Hz'. by subst. }
    destruct (IH _ Hnd') as [H1 H2]. split; [done|].
    intros x. rewrite H2, elem_of_cons. unfold Js.set_add.
    case_decide; [|rewrite elem_of_app, list_elem_of_singleton];
      naive_solver.
Qed.

Lemma set_from_NoDup xs : NoDup (Js.set_from xs).
Proof. apply set_add_fold, NoDup_nil_2. Qed.

Lemma set_from_elem xs x : x ∈ Js.set_from xs <-> x ∈ xs.
Proof.
  unfold Js.set_from.
  destruct (set_add_fold xs [] (NoDup_nil_2)) as [_ H].
  rewrite H, elem_of_nil. tauto.
Qed.

Lemma sort_insert_perm x l : Js.sort_insert x l ≡ₚ x :: l.
Proof.
  induction l as [|y l IH]; simpl; [done|].
  destruct (String.leb x y); [done|].
  rewrite IH. apply Permutation_swap.
Qed.

Lemma sort_perm l : Js.sort l ≡ₚ l.
Proof.
  induction l as [|x l IH]; simpl; [done|].
  by rewrite sort_insert_perm, IH.
Qed.

Lemma alphabet_NoDup corpus : NoDup (alphabet corpus).
Proof. unfold alphabet. rewrite sort_perm. apply set_from_NoDup. Qed.

Lemma alphabet_elem corpus ch :
  ch ∈ alphabet corpus <-> ch ∈ Js.split_chars corpus.
Proof. unfold alphabet. rewrite sort_perm. apply set_from_elem. Qed.

(** The loop invariant of [chars.forEach]. *)
Lemma add_chars_spec chars : forall v iv idx,
  NoDup chars ->
  let st := fold_left add_char chars (v, iv, idx) in
  st.2 = idx + Z.of_nat (length chars)
  /\ (forall c, c ∉ chars -> st.1.1 !! c = v !! c)
  /\ (forall k, k < idx -> st.1.2 !! k = iv !! k)
  /\ (forall c, c ∈ chars ->
        exists id, idx <= id /\ st.1.1 !! c = Some id /\ st.1.2 !! id = Some c).
Proof.
  induction chars as [|c cs IH]; intros v iv idx Hnd; simpl.
  - split_and!; [lia|done|done|]. intros c Hc. by apply elem_of_nil in Hc.
  - apply NoDup_cons in Hnd as [Hc Hnd].
    destruct (IH (<[c:=idx]> v) (<[idx:=c]> iv) (idx + 1) Hnd)
      as (Hidx & Hout & Hlow & Hin).
    split_and!.
    + rewrite Hidx. lia.
    + intros c0 Hc0. apply not_elem_of_cons in Hc0 as [Hne Hc0].
      rewrite (Hout _ Hc0). by apply lookup_insert_ne.
    + intros k Hk. rewrite Hlow by lia. apply lookup_insert_ne. lia.
    + intros c0 Hc0. apply elem_of_cons in Hc0 as [->|Hc0].
      * exists idx. split; [lia|]. split.
        -- rewrite (Hout _ Hc). apply lookup_insert_eq.
        -- rewrite Hlow by lia. apply lookup_insert_eq.
      * destruct (Hin _ Hc0) as (id & Hid & H1 & H2).
        exists id. split; [lia|done].
Qed.

Lemma from_corpus_unfold corpus :
  let st := fold_left add_char (alphabet corpus)
              (<["<UNK>" := 1]> (<["<PAD>" := 0]> ∅),
               <[1 := "<UNK>"]> (<[0 := "<PAD>"]> ∅), 2) in
  from_corpus corpus = mkTokenizer st.1.1 st.1.2 st.2.
Proof.
  unfold from_corpus, alphabet. simpl.
  by destruct (fold_left _ _ _) as [[v iv] idx].
Qed.

(** Reserved ids keep their markers. *)
Lemma from_corpus_reserved corpus :
  inverseVocab (from_corpus corpus) !! 0 = Some "<PAD>"
  /\ inverseVocab (from_corpus corpus) !! 1 = Some "<UNK>".
Proof.
  rewrite from_corpus_unfold. simpl.
  edestruct add_chars_spec as (_ & _ & Hlow & _); [apply alphabet_NoDup|].
  rewrite !Hlow by lia. split; reflexivity.
Qed.

(** A character of the corpus has an id from 2 on, and the id maps back
    to it. *)
Lemma from_corpus_known corpus ch :
  ch ∈ Js.split_chars corpus ->
  exists id, 2 <= id
    /\ vocab (from_corpus corpus) !! ch = Some id
    /\ inverseVocab (from_corpus corpus) !! id = Some ch.
Proof.
  intros Hch. rewrite from_corpus_unfold. simpl.
  edestruct add_chars_spec as (_ & _ & _ & Hin); [apply alphabet_NoDup|].
  apply Hin. by apply alphabet_elem.
Qed.

(** A single character outside the corpus has no entry. *)
Lemma from_corpus_unknown corpus c :
  String c EmptyString ∉ Js.split_chars corpus ->
  vocab (from_corpus corpus) !! String c EmptyString = None.
Proof.
  intros Hch. rewrite from_corpus_unfold. simpl.
  edestruct add_chars_spec as (_ & Hout & _ & _); [apply alphabet_NoDup|].
  rewrite Hout by (by rewrite alphabet_elem).
  rewrite !lookup_insert_ne by congruence. apply lookup_empty.
Qed.

Lemma decode_encode_char corpus c :
  let t := from_corpus corpus in
  let ch := String c EmptyString in
  Js.or_str (inverseVocab t !! Js.or_num (vocab t !! ch) 1) "" = echo corpus ch.
Proof.
  simpl. unfold echo. case_decide as Hch.
  - destruct (from_corpus_known corpus _ Hch) as (id & Hid & -> & Hinv).
    simpl. destruct (Z.eqb_spec id 0); [lia|]. by rewrite Hinv.
  - rewrite (from_corpus_unknown corpus c Hch). simpl.
    by destruct (from_corpus_reserved corpus) as [_ ->].
Qed.

Lemma decode_encode_echo corpus s :
  let t := from_corpus corpus in
  decode t (encode t s) = Js.join (map (echo corpus) (Js.split_chars s)).
Proof.
  simpl. unfold decode, encode. rewrite map_map. f_equal.
  apply map_ext_in. intros ch Hch.
  apply list_elem_of_In, split_chars_single in Hch as [c ->].
  apply decode_encode_char.
Qed.

End TokenizerFacts.

(** C4. For a tokenizer built from a corpus and a string [s] all of whose
    characters occur in the corpus, decoding the encoding of [s] gives [s]
    back. *)
Theorem tokenizer_round_trip (corpus s : string) :
  Forall (fun ch => ch ∈ Js.split_chars corpus) (Js.split_chars s) ->
  let t := Tokenizer.from_corpus corpus in
  Tokenizer.decode t (Tokenizer.encode t s) = s.
Proof.
  intros Hs. simpl. rewrite decode_encode_echo.
  rewrite <- (join_split_chars s) at 2. f_equal.
  rewrite <- (map_id (Js.split_chars s)) at 2.
  apply map_ext_in. intros ch Hch. unfold echo.
  rewrite Forall_forall in Hs.
  case_decide as Hin; [done|]. destruct Hin. apply Hs. by apply list_elem_of_In.
Qed.

Lemma tokenizer_round_trip_witness :
  Forall (fun ch => ch ∈ Js.split_chars "hello world") (Js.split_chars "hold")
  /\ Tokenizer.decode (Tokenizer.from_corpus "hello world")
       (Tokenizer.encode (Tokenizer.from_corpus "hello world") "hold") = "hold".
Proof.
  assert (H : Forall (fun ch => ch ∈ Js.split_chars "hello world")
                (Js.split_chars "hold"))
    by (apply (bool_decide_unpack _); vm_compute; exact I).
  split; [exact H | exact (tokenizer_round_trip "hello world" "hold" H)].
Defined.

(** C10. The reserved ids decode to the five-character markers: [decode
    [0]] is "<PAD>" and [decode [1]] is "<UNK>"; so decoding an encoding
    keeps the characters of the corpus and puts the text "<UNK>" in the
    place of every other character. *)
Theorem reserved_ids_decode_to_markers (corpus : string) :
  let t := Tokenizer.from_corpus corpus in
  Tokenizer.decode t [0] = "<PAD>"
  /\ Tokenizer.decode t [1] = "<UNK>"
  /\ String.length (Tokenizer.decode t [0]) = 5%nat
  /\ String.length (Tokenizer.decode t [1]) = 5%nat
  /\ forall s,
       Tokenizer.decode t (Tokenizer.encode t s)
       = Js.join (map (fun ch => if decide (ch ∈ Js.split_chars corpus)
                                 then ch else "<UNK>")
                    (Js.split_chars s)).
Proof.
  simpl. destruct (from_corpus_reserved corpus) as [Hpad Hunk].
  unfold Tokenizer.decode. simpl. rewrite Hpad, Hunk. simpl.
  split_and!; try reflexivity.
  intros s. apply (decode_encode_echo corpus s).
Qed.

(** ** Model construction *)

Section ConstructionFacts.

Import Types Layers Transformer.

Variable randomNormal : nat -> list Z -> list Q.

Lemma allocates_ret {A} (a : A) (P : nat -> A -> Prop) :
  (forall base, P base a) -> allocates (Tf.ret a) 0 P.
Proof. intros H st. exists a, st. split_and!; [done|lia|done]. Qed.

(** The rule of sequence: the continuation starts where [m] stopped. *)
Lemma allocates_bind {A B} (m : Tf.Alloc A) (k : A -> Tf.Alloc B)
  n1 n2 (P : nat -> A -> Prop) (Q : nat -> B -> Prop) :
  allocates m n1 P ->
  (forall base a, P base a ->
     allocates (k a) n2 (fun base' b => base' = (base + n1)%nat -> Q base b)) ->
  allocates (Tf.bind m k) (n1 + n2) Q.
Proof.
  intros Hm Hk st. destruct (Hm st) as (a & st1 & E1 & L1 & Ha).
  destruct (Hk _ a Ha st1) as (b & st2 & E2 & L2 & Hb).
  exists b, st2. unfold Tf.bind. rewrite E1, E2.
  split_and!; [done|lia|by apply Hb].
Qed.

Lemma allocates_weaken {A} (m : Tf.Alloc A) n (P Q : nat -> A -> Prop) :
  allocates m n P -> (forall base a, P base a -> Q base a) -> allocates m n Q.
Proof.
  intros Hm HPQ st. destruct (Hm st) as (a & st' & E & L & Ha). eauto 6.
Qed.

(** A new variable is the next position of the store. *)
Lemma allocates_variable shp init :
  Tf.allocatable shp = true ->
  allocates (Tf.variable shp init) 1 (fun base v => v = base).
Proof.
  intros Hs st. unfold Tf.variable. rewrite Hs.
  eexists _, _. split_and!; [done| |done]. rewrite length_app. simpl. lia.
Qed.

Lemma allocates_random_variable shp :
  Tf.allocatable shp = true ->
  allocates (random_variable randomNormal shp) 1 (fun base v => v = base).
Proof.
  intros Hs st. unfold random_variable.
  apply (allocates_variable shp (randomNormal (length st) shp) Hs st).
Qed.

Lemma allocatable_2 a b : 0 <= a -> 0 <= b -> Tf.allocatable [a; b] = true.
Proof.
  intros Ha Hb. unfold Tf.allocatable. simpl.
  apply Z.leb_le in Ha, Hb. by rewrite Ha, Hb.
Qed.

Lemma allocatable_1 a : 0 <= a -> Tf.allocatable [a] = true.
Proof.
  intros Ha. unfold Tf.allocatable. simpl. apply Z.leb_le in Ha.
  by rewrite Ha.
Qed.

(** One more variable of a constructor: it is the next position. *)
Ltac next_variable lemma :=
  eapply (allocates_bind _ _ 1 _ (fun base v => v = base));
  [apply lemma; first [apply allocatable_2 | apply allocatable_1]; lia
  |intros ? ? ->].

(** The end of a constructor: the positions are those counted from the
    start. *)
Ltac constructed :=
  apply allocates_ret; intros; subst; simpl;
  repeat split; repeat (f_equal; try lia).

Lemma allocates_MultiHeadAttention dModel numHeads :
  0 <= dModel ->
  allocates (MultiHeadAttention_new randomNormal dModel numHeads) 4
    (fun base m =>
       depth m = Js.floor_div dModel numHeads
       /\ [wq m; wk m; wv m; wo m] = seq base 4).
Proof.
  intros Hd. unfold MultiHeadAttention_new.
  do 4 next_variable allocates_random_variable. constructed.
Qed.

Lemma allocates_FeedForward dModel dff :
  0 <= dModel -> 0 <= dff ->
  allocates (FeedForward_new randomNormal dModel dff) 2
    (fun base f => [w1 f; w2 f] = seq base 2).
Proof.
  intros Hd Hf. unfold FeedForward_new.
  do 2 next_variable allocates_random_variable. constructed.
Qed.

Lemma allocates_LayerNormalization dModel :
  0 <= dModel ->
  allocates (LayerNormalization_new dModel) 2
    (fun base l => [gamma l; beta l] = seq base 2).
Proof.
  intros Hd. unfold LayerNormalization_new, constant_variable.
  do 2 next_variable allocates_variable. constructed.
Qed.

Lemma allocates_EncoderBlock cfg :
  0 <= dModel cfg -> 0 <= dff cfg ->
  allocates (EncoderBlock_new randomNormal (dModel cfg) (numHeads cfg) (dff cfg))
    10
    (fun base b => floored_depth cfg b /\ block_handles b = seq base 10).
Proof.
  intros Hd Hf. unfold EncoderBlock_new.
  eapply (allocates_bind _ _ 4 6); [by apply allocates_MultiHeadAttention|].
  intros base m [Hdepth Hm].
  eapply (allocates_bind _ _ 2 4); [by apply allocates_FeedForward|].
  intros base1 f Hfw.
  eapply (allocates_bind _ _ 2 2); [by apply allocates_LayerNormalization|].
  intros base2 l1 Hl1.
  eapply (allocates_bind _ _ 2 0); [by apply allocates_LayerNormalization|].
  intros base3 l2 Hl2.
  apply allocates_ret. intros base4 -> -> -> ->.
  split; [exact Hdepth|]. unfold block_handles. cbn [mha ffn layernorm1 layernorm2].
  change [wq m; wk m; wv m; wo m; w1 f; w2 f; gamma l1; beta l1;
          gamma l2; beta l2]
    with ([wq m; wk m; wv m; wo m] ++ [w1 f; w2 f] ++ [gamma l1; beta l1]
          ++ [gamma l2; beta l2]).
  rewrite Hm, Hfw, Hl1, Hl2. by rewrite <- !seq_app.
Qed.

Lemma allocates_push_blocks cfg todo : forall blocks,
  0 <= dModel cfg -> 0 <= dff cfg ->
  Forall (floored_depth cfg) blocks ->
  allocates (push_blocks randomNormal todo cfg blocks) (10 * todo)
    (fun base bs =>
       length bs = (length blocks + todo)%nat
       /\ Forall (floored_depth cfg) bs
       /\ concat (block_handles <$> bs)
          = concat (block_handles <$> blocks) ++ seq base (10 * todo)).
Proof.
  induction todo as [|todo IH]; intros blocks Hd Hf Hbs; simpl push_blocks.
  - replace (10 * 0)%nat with 0%nat by lia. apply allocates_ret.
    intros base. simpl. rewrite app_nil_r. split_and!; [lia|done|done].
  - replace (10 * S todo)%nat with (10 + 10 * todo)%nat by lia.
    eapply allocates_bind; [by apply allocates_EncoderBlock|].
    intros base b [Hb Hh]. eapply allocates_weaken.
    + apply IH; [done|done|]. apply Forall_app. split; [done|].
      by apply Forall_singleton.
    + intros base' bs (Hlen & Hall & Hcat) ->. split_and!; [|done|].
      * rewrite Hlen, length_app. simpl. lia.
      * rewrite Hcat, fmap_app, concat_app.
        change (concat (block_handles <$> [b])) with (block_handles b ++ []).
        rewrite app_nil_r, Hh, <- app_assoc. f_equal.
        by rewrite seq_app.
Qed.

(** The constructor: it returns a model for the configuration, whose
    variables are the positions created, in order. *)
Lemma allocates_TransformerModel cfg :
  0 <= vocabSize cfg -> 0 <= dModel cfg -> 0 <= dff cfg ->
  allocates (TransformerModel_new randomNormal cfg)
    (2 + 10 * Z.to_nat (numLayers cfg))
    (fun base m =>
       config m = cfg
       /\ length (encoderBlocks m) = Z.to_nat (numLayers cfg)
       /\ Forall (floored_depth cfg) (encoderBlocks m)
       /\ model_handles m = seq base (2 + 10 * Z.to_nat (numLayers cfg))).
Proof.
  intros Hv Hd Hf. unfold TransformerModel_new.
  replace (2 + 10 * Z.to_nat (numLayers cfg))%nat
    with (1 + (10 * Z.to_nat (numLayers cfg) + (1 + 0)))%nat at 1 by lia.
  eapply (allocates_bind _ _ _ _ (fun base e => embedding e = base)).
  { unfold TokenEmbedding_new. next_variable allocates_random_variable.
    apply allocates_ret. by intros ? ->. }
  intros base e He. eapply allocates_bind.
  { by apply allocates_push_blocks. }
  intros base1 bs (Hlen & Hall & Hcat).
  next_variable allocates_random_variable.
  apply allocates_ret. intros base3 -> -> ->.
  split_and!; [done|done|done|].
  unfold model_handles. cbn [model_embedding encoderBlocks finalLayer].
  rewrite He, Hcat.
  change (concat (block_handles <$> [])) with (@nil nat).
  rewrite app_nil_l.
  replace (2 + 10 * Z.to_nat (numLayers cfg))%nat
    with (1 + (10 * Z.to_nat (numLayers cfg) + 1))%nat by lia.
  by rewrite !seq_app.
Qed.

End ConstructionFacts.

(** C1, as the code has it.  The constructor makes no check of the
    architecture: for every configuration whose [vocabSize], [dModel] and
    [dff] are not negative, divisible or not, it returns a model, having
    created all [2 + 10 * numLayers] parameter tensors; the depth of every
    attention layer is [Math.floor(dModel / numHeads)], and with
    [numHeads] not zero the heads fill [dModel] exactly when [dModel %
    numHeads] is 0. *)
Theorem construction_makes_no_divisibility_check
  (randomNormal : nat -> list Z -> list Q) (cfg : Types.ModelConfig)
  (st : Tf.Store) :
  0 <= Types.vocabSize cfg -> 0 <= Types.dModel cfg -> 0 <= Types.dff cfg ->
  (exists m st',
     Transformer.TransformerModel_new randomNormal cfg st = (Tf.Ok m, st')
     /\ length st' = (length st + 2 + 10 * Z.to_nat (Types.numLayers cfg))%nat
     /\ Transformer.config m = cfg
     /\ length (Transformer.encoderBlocks m) = Z.to_nat (Types.numLayers cfg)
     /\ Forall (fun b => Layers.depth (Transformer.mha b)
                         = Js.floor_div (Types.dModel cfg) (Types.numHeads cfg))
          (Transformer.encoderBlocks m))
  /\ (Types.numHeads cfg <> 0 ->
      Js.floor_div (Types.dModel cfg) (Types.numHeads cfg)
      = Some (Types.dModel cfg / Types.numHeads cfg)
      /\ (Types.numHeads cfg * (Types.dModel cfg / Types.numHeads cfg)
          = Types.dModel cfg
          <-> Types.dModel cfg mod Types.numHeads cfg = 0)).
Proof.
  intros Hv Hd Hf. split.
  - destruct (allocates_TransformerModel randomNormal cfg Hv Hd Hf st)
      as (m & st' & E & L & Hc & Hn & Hall & _).
    exists m, st'. split_and!; [done|lia|done|done|done].
  - intros Hh. unfold Js.floor_div.
    destruct (Z.eqb_spec (Types.numHeads cfg) 0); [done|].
    split; [done|].
    pose proof (Z.div_mod (Types.dModel cfg) (Types.numHeads cfg) Hh). lia.
Qed.

Lemma construction_makes_no_divisibility_check_witness :
  exists m st',
    Transformer.TransformerModel_new (fun _ shp => repeat 0%Q (Z.to_nat (Tf.size shp)))
      (Types.mkModelConfig 5 10 4 40 2 16 (1 # 10)) [] = (Tf.Ok m, st')
    /\ length st' = 22%nat.
Proof.
  destruct (construction_makes_no_divisibility_check
              (fun _ shp => repeat 0%Q (Z.to_nat (Tf.size shp)))
              (Types.mkModelConfig 5 10 4 40 2 16 (1 # 10)) [])
    as [(m & st' & E & L & _) _]; simpl; [lia|lia|lia|].
  exists m, st'. split; [exact E|exact L].
Defined.

(** C1, as the claim states it, fails: a configuration with [dModel = 10]
    and [numHeads = 4] is accepted, all twelve tensors of its one-block
    model are created, and [10 % 4] is 2. *)
Lemma construction_accepts_indivisible_config :
  let cfg := Types.mkModelConfig 5 10 4 40 1 16 (1 # 10) in
  let result := Transformer.TransformerModel_new
                  (fun _ shp => repeat 0%Q (Z.to_nat (Tf.size shp))) cfg [] in
  (exists m, result.1 = Tf.Ok m
             /\ map (fun b => Layers.depth (Transformer.mha b))
                  (Transformer.encoderBlocks m) = [Some 2])
  /\ length result.2 = 12%nat
  /\ Types.dModel cfg mod Types.numHeads cfg = 2.
Proof.
  vm_compute. split; [|split; reflexivity].
  eexists. split; reflexivity.
Qed.

(** Any other input goes through the forward pass, and an exception of
    the forward pass is an exception of [predict]. *)
Lemma predict_runs_forward
  (forward : Transformer.TransformerModel -> Tf.Store -> Tf.IntMatrix -> bool ->
             Tf.result Transformer.ForwardResult)
  (m : Transformer.TransformerModel) (st : Tf.Store) (tokenIds : list Z) msg :
  tokenIds <> [] ->
  forward m st (Tf.mkIntMatrix [tokenIds] (1, Z.of_nat (length tokenIds))) false
  = Tf.Throw msg ->
  Transformer.predict forward m st tokenIds = Tf.Throw msg.
Proof.
  intros Hne Hfw. unfold Transformer.predict.
  destruct (Z.eqb_spec (Z.of_nat (length tokenIds)) 0) as [Hz|_].
  { destruct tokenIds; [done|]. simpl in Hz. lia. }
  rewrite tensor2d_ok; [by rewrite Hfw|done|].
  apply Forall_singleton. done.
Qed.

(** C9. [predict] on an empty list of token ids returns the degenerate
    result, id 0 and no attention weights; it does not run the forward
    pass and does not throw, whatever the forward pass would do. *)
Theorem predict_empty_is_degenerate
  (forward : Transformer.TransformerModel -> Tf.Store -> Tf.IntMatrix -> bool ->
             Tf.result Transformer.ForwardResult)
  (m : Transformer.TransformerModel) (st : Tf.Store) :
  Transformer.predict forward m st []
  = Tf.Ok (Transformer.mkPrediction 0 [])
  /\ Transformer.predictedId (Transformer.mkPrediction 0 []) = 0
  /\ forall msg, Transformer.predict forward m st [] <> Tf.Throw msg.
Proof.
  assert (E : Transformer.predict forward m st []
              = Tf.Ok (Transformer.mkPrediction 0 [])).
  { unfold Transformer.predict. simpl. reflexivity. }
  split; [exact E|]. split; [reflexivity|].
  intros msg. rewrite E. discriminate.
Qed.

(** ** Sampling *)

Section SamplerFacts.

Import Generation.

Lemma total_nonneg probs :
  Forall (fun p => (0 <= p)%Q) probs -> (0 <= total probs)%Q.
Proof.
  induction 1 as [|p probs Hp _ IH]; simpl; [lra|].
  change (fold_right Qplus 0%Q probs) with (total probs). lra.
Qed.


Lemma scan_full_beyond r probs : forall i acc,
  Forall (fun p => (0 <= p)%Q) probs ->
  (acc + total probs < r)%Q ->
  scan_full r probs i acc = None.
Proof.
  induction probs as [|p probs IH]; intros i acc Hpos Hr;
    simpl in *; [done|].
  change (fold_right Qplus 0%Q probs) with (total probs) in Hr.
  apply Forall_cons in Hpos as [Hp Hpos].
  pose proof (total_nonneg probs Hpos) as Ht.
  destruct (Qle_bool r (acc + p)) eqn:E.
  - apply Qle_bool_iff in E. lra.
  - apply IH; [done|lra].
Qed.

Variable fdiv : Q -> Q -> Q.
Variable softmax : list Q -> list Q.

(** The full-vocabulary branch does fall back to the last id. *)
Lemma full_branch_falls_back_to_last logits temperature topK r :
  (0 <? topK) && (topK <? Z.of_nat (length logits)) = false ->
  beyond r (softmax (Tf.div_scalar fdiv logits (max temperature epsilon))) ->
  sampleFromLogits fdiv softmax logits temperature topK r
  = Some (Z.of_nat (length (softmax
            (Tf.div_scalar fdiv logits (max temperature epsilon)))) - 1).
Proof.
  intros Hk [Hpos Hr]. unfold sampleFromLogits. rewrite Hk.
  rewrite scan_full_beyond; [done|done|lra].
Qed.

End SamplerFacts.



(** *** Sampling with [topK = 1] *)

Section TopOneFacts.

Import Generation.

Lemma max_epsilon_pos temperature : (0 < max temperature epsilon)%Q.
Proof.
  unfold max. destruct (Qle_bool temperature epsilon) eqn:E.
  - reflexivity.
  - assert (~ (temperature <= epsilon)%Q) as H
      by (intros H; apply Qle_bool_iff in H; congruence).
    apply Qnot_le_lt in H. assert (0 < epsilon)%Q by reflexivity. lra.
Qed.

(** The entry [topk] ranks first is one of the entries, and no entry is
    larger. *)
Lemma rank_head (l : list (Q * Z)) :
  l <> [] ->
  exists h t, fold_right Tf.rank_insert [] l = h :: t
    /\ h ∈ l /\ Forall (fun f => (f.1 <= h.1)%Q) l.
Proof.
  induction l as [|e l IH]; intros Hne; [done|]. simpl.
  destruct l as [|e' l'].
  - simpl. exists e, []. split_and!; [done|set_solver|].
    apply Forall_singleton. lra.
  - destruct IH as (h & t & E & Hin & Hdom); [done|].
    rewrite E. simpl. destruct (Qle_bool h.1 e.1) eqn:Ele.
    + apply Qle_bool_iff in Ele. exists e, (h :: t).
      split_and!; [done|set_solver|].
      apply Forall_cons. split; [lra|].
      eapply Forall_impl; [exact Hdom|]. simpl. intros f Hf. lra.
    + assert (~ (h.1 <= e.1)%Q) as Hlt
        by (intros H; apply Qle_bool_iff in H; congruence).
      apply Qnot_le_lt in Hlt. exists h, (Tf.rank_insert e t).
      split_and!; [done|set_solver|].
      apply Forall_cons. split; [lra|done].
Qed.

Lemma indexed_from_elem x : forall k v i,
  (v, i) ∈ Tf.indexed_from k x ->
  k <= i /\ x !! Z.to_nat (i - k) = Some v.
Proof.
  induction x as [|w x IH]; intros k v i H; simpl in H.
  - by apply elem_of_nil in H.
  - apply elem_of_cons in H as [[= -> ->]|H].
    + split; [lia|]. by replace (k - k) with 0 by lia.
    + apply IH in H as [Hk Hl]. split; [lia|].
      replace (Z.to_nat (i - k)) with (S (Z.to_nat (i - (k + 1)))) by lia.
      done.
Qed.

Lemma indexed_from_covers x : forall k v,
  v ∈ x -> exists i, (v, i) ∈ Tf.indexed_from k x.
Proof.
  induction x as [|w x IH]; intros k v H; simpl.
  - by apply elem_of_nil in H.
  - apply elem_of_cons in H as [->|H].
    + exists k. set_solver.
    + destruct (IH (k + 1) v H) as [i Hi]. exists i. set_solver.
Qed.

Lemma rank_insert_elem e l x :
  x ∈ Tf.rank_insert e l <-> x = e \/ x ∈ l.
Proof.
  induction l as [|f l IH]; simpl; [set_solver|].
  destruct (Qle_bool f.1 e.1); [set_solver|].
  rewrite !elem_of_cons, IH. tauto.
Qed.

(** [topk] ranks by value, the larger first, and among equal values by
    position, the lower first: inserting an entry of a lower position
    than all there are keeps that order. *)
Lemma rank_insert_first e l :
  StronglySorted ranks_first l ->
  Forall (fun f => e.2 < f.2) l ->
  StronglySorted ranks_first (Tf.rank_insert e l).
Proof.
  induction 1 as [|f l Hs IH Hf]; intros Hlow; simpl.
  - repeat constructor.
  - apply Forall_cons in Hlow as [Hef Hlow].
    destruct (Qle_bool f.1 e.1) eqn:E.
    + apply Qle_bool_iff in E. constructor; [by constructor|].
      apply Forall_cons. split.
      * unfold ranks_first.
        destruct (Qlt_le_dec f.1 e.1) as [|Hle]; [by left|].
        right. split; [lra|done].
      * rewrite Forall_forall in Hf, Hlow. apply Forall_forall.
        intros g Hg. specialize (Hf g Hg). specialize (Hlow g Hg).
        unfold ranks_first in *.
        destruct (Qlt_le_dec g.1 e.1) as [|Hle]; [by left|].
        right. split; [|done]. destruct Hf as [|[? _]]; lra.
    + assert (e.1 < f.1)%Q as Hlt.
      { apply Qnot_le_lt. intros H. apply Qle_bool_iff in H. congruence. }
      constructor; [by apply IH|].
      apply Forall_forall. intros g Hg.
      apply rank_insert_elem in Hg as [->|Hg]; [by left|].
      rewrite Forall_forall in Hf. by apply Hf.
Qed.

Lemma indexed_from_low x : forall k,
  Forall (fun f => k <= f.2) (Tf.indexed_from k x).
Proof.
  induction x as [|v x IH]; intros k; simpl; [constructor|].
  apply Forall_cons. split; [simpl; lia|].
  eapply Forall_impl; [apply (IH (k + 1))|]. simpl. intros f Hf. lia.
Qed.

Lemma ranked_from_first x : forall k,
  StronglySorted ranks_first
    (fold_right Tf.rank_insert [] (Tf.indexed_from k x)).
Proof.
  induction x as [|v x IH]; intros k; simpl; [constructor|].
  apply rank_insert_first; [apply IH|].
  apply Forall_forall. intros f Hf.
  assert (Hin : f ∈ Tf.indexed_from (k + 1) x).
  { clear -Hf. revert Hf. generalize (Tf.indexed_from (k + 1) x).
    intros l. induction l as [|g l IH]; simpl; [done|].
    rewrite rank_insert_elem. set_solver. }
  pose proof (indexed_from_low x (k + 1)) as Hlow.
  rewrite Forall_forall in Hlow. specialize (Hlow f Hin). simpl. lia.
Qed.

Lemma indexed_from_lookup x : forall k (j : nat) w,
  x !! j = Some w -> (w, k + Z.of_nat j) ∈ Tf.indexed_from k x.
Proof.
  induction x as [|v x IH]; intros k [|j] w H; simplify_eq/=.
  - apply elem_of_cons. left. f_equal. lia.
  - apply elem_of_cons. right.
    replace (k + Z.of_nat (S j)) with (k + 1 + Z.of_nat j) by lia.
    by apply IH.
Qed.

(** The entry [topk] ranks first: the first position of a largest
    entry. *)
Lemma ranked_head x :
  x <> [] ->
  exists v (i : nat) t, Tf.ranked x = (v, Z.of_nat i) :: t
    /\ x !! i = Some v
    /\ Forall (fun w => (w <= v)%Q) x
    /\ forall (j : nat) w, (j < i)%nat -> x !! j = Some w -> (w < v)%Q.
Proof.
  intros Hne. unfold Tf.ranked.
  destruct (rank_head (Tf.indexed_from 0 x)) as ([v i] & t & E & Hin & Hdom).
  { destruct x; [done|]. simpl. done. }
  pose proof (ranked_from_first x 0) as Hsorted. rewrite E in Hsorted.
  apply StronglySorted_inv in Hsorted as [_ Hfirst].
  apply indexed_from_elem in Hin as [Hi Hl].
  replace (i - 0) with i in Hl by lia.
  exists v, (Z.to_nat i), t. replace (Z.of_nat (Z.to_nat i)) with i by lia.
  split_and!; [done|done| |].
  - apply Forall_forall. intros w Hw.
    destruct (indexed_from_covers x 0 w Hw) as [j Hj].
    rewrite Forall_forall in Hdom. apply (Hdom (w, j) Hj).
  - intros j w Hj Hw.
    pose proof (indexed_from_lookup x 0 j w Hw) as Hjin.
    assert (Hmem : (w, 0 + Z.of_nat j)
                   ∈ fold_right Tf.rank_insert [] (Tf.indexed_from 0 x)).
    { clear -Hjin. revert Hjin. generalize (Tf.indexed_from 0 x).
      intros l. induction l as [|g l IH]; simpl; [done|].
      rewrite rank_insert_elem. set_solver. }
    rewrite E in Hmem. apply elem_of_cons in Hmem as [Heq|Hmem].
    + injection Heq as _ Heq. lia.
    + rewrite Forall_forall in Hfirst. destruct (Hfirst _ Hmem) as [|[_ Hlt]];
        [done|simpl in Hlt; lia].
Qed.

(** A division that keeps the strict order of the entries keeps their
    largest. *)
Lemma argmax_div_scalar (fdiv : Q -> Q -> Q) logits c (i : nat) top :
  (forall u v, u ∈ logits -> v ∈ logits -> (u < v)%Q ->
     (fdiv u c < fdiv v c)%Q) ->
  Tf.div_scalar fdiv logits c !! i = Some top ->
  Forall (fun v => (v <= top)%Q) (Tf.div_scalar fdiv logits c) ->
  is_argmax logits (Z.of_nat i).
Proof.
  intros Hmono Hl Hall. unfold Tf.div_scalar in *.
  change (map (fun v => fdiv v c) logits)
    with ((fun v => fdiv v c) <$> logits) in Hl, Hall.
  rewrite list_lookup_fmap in Hl.
  destruct (logits !! i) as [u|] eqn:Eu; [|done].
  simpl in Hl. injection Hl as <-.
  exists u. rewrite Nat2Z.id. split_and!; [lia|done|].
  rewrite Forall_fmap, Forall_forall in Hall. apply Forall_forall.
  intros w Hw. destruct (Qlt_le_dec u w) as [Hlt|]; [|done].
  apply list_elem_of_lookup_2 in Eu.
  pose proof (Hmono u w Eu Hw Hlt) as Hup. specialize (Hall w Hw).
  simpl in Hall. lra.
Qed.

Lemma scan_topk_single r p : scan_topk r [p] 0 0%Q 0 = 0.
Proof. simpl. by destruct (Qle_bool r (0 + p)). Qed.

End TopOneFacts.

(** C8, as the code has it.  With [topK = 1] the sampler does not depend
    on the random draw: two runs on the same logits, at any temperature,
    return the same id.  On a non-empty vector of logits that id is the
    first position of a largest logit after the division by the
    temperature: no scaled logit is larger, and every scaled logit before
    it is smaller.  It is a position of a largest logit when the division
    keeps the strict order of the logits.  ([softmax] keeps the number of
    entries.) *)
Theorem top1_sampling_is_deterministic
  (fdiv : Q -> Q -> Q) (softmax : list Q -> list Q) (logits : list Q)
  (temperature : Q) :
  (forall x, length (softmax x) = length x) ->
  let c := Generation.max temperature Generation.epsilon in
  let scaled := Tf.div_scalar fdiv logits c in
  (forall r r',
     Generation.sampleFromLogits fdiv softmax logits temperature 1 r
     = Generation.sampleFromLogits fdiv softmax logits temperature 1 r')
  /\ (logits <> [] ->
      exists (i : nat) top,
        (forall r,
           Generation.sampleFromLogits fdiv softmax logits temperature 1 r
           = Some (Z.of_nat i))
        /\ scaled !! i = Some top
        /\ Forall (fun v => (v <= top)%Q) scaled
        /\ (forall (j : nat) w,
              (j < i)%nat -> scaled !! j = Some w -> (w < top)%Q)
        /\ ((forall u v, u ∈ logits -> v ∈ logits -> (u < v)%Q ->
               (fdiv u c < fdiv v c)%Q) ->
            is_argmax logits (Z.of_nat i))).
Proof.
  intros Hsm c scaled.
  assert (Hcore : logits <> [] ->
    exists (i : nat) top,
      (forall r,
         Generation.sampleFromLogits fdiv softmax logits temperature 1 r
         = Some (Z.of_nat i))
      /\ scaled !! i = Some top
      /\ Forall (fun v => (v <= top)%Q) scaled
      /\ (forall (j : nat) w,
            (j < i)%nat -> scaled !! j = Some w -> (w < top)%Q)).
  { intros Hne. destruct logits as [|u [|u' l]]; [done| |].
    - (* one logit: the full-vocabulary branch *)
      exists 0%nat, (fdiv u c). split_and!.
      + intros r. unfold Generation.sampleFromLogits. simpl.
        pose proof (Hsm [fdiv u c]) as Hl. fold c.
        destruct (softmax _) as [|p [|? ?]]; simpl in Hl; try lia.
        simpl. by destruct (Qle_bool r (0 + p)).
      + done.
      + apply Forall_singleton. lra.
      + intros j w Hj. lia.
    - (* two logits or more: the top-k branch *)
      set (logits := u :: u' :: l) in *.
      destruct (ranked_head scaled) as (v & i & t & E & Hl & Hall & Hlow);
        [done|].
      exists i, v. split_and!; [|done|done|done].
      intros r. unfold Generation.sampleFromLogits. fold c scaled.
      replace ((0 <? 1) && (1 <? Z.of_nat (length logits))) with true
        by (symmetry; apply andb_true_iff; split; apply Z.ltb_lt;
            subst logits; simpl length; lia).
      unfold Tf.topk. rewrite E.
      change (Z.to_nat 1) with 1%nat. simpl take. simpl map.
      pose proof (Hsm [v]) as Hlen.
      destruct (softmax [v]) as [|p [|? ?]]; simpl in Hlen; try lia.
      rewrite scan_topk_single. unfold Generation.at_index.
      destruct (Z.ltb_spec 0 0); [lia|]. done. }
  split.
  - intros r r'. destruct logits as [|u l].
    + unfold Generation.sampleFromLogits. simpl.
      pose proof (Hsm []) as Hl.
      destruct (softmax []); simpl in Hl; [done|lia].
    + destruct Hcore as (i & top & Hi & _); [done|]. by rewrite !Hi.
  - intros Hne. destruct (Hcore Hne) as (i & top & Hi & Hl & Hall & Hlow).
    exists i, top. split_and!; [done|done|done|done|].
    intros Hmono. by apply (argmax_div_scalar fdiv logits c i top).
Qed.

Lemma top1_sampling_is_deterministic_witness :
  let softmax := fun x : list Q => map (fun _ => (1 # 1)%Q) x in
  exists (i : nat) top,
    (forall r,
       Generation.sampleFromLogits Tf.div32 softmax
         [1 # 2; 3 # 1; -2 # 1]%Q (1 # 100)%Q 1 r = Some (Z.of_nat i))
    /\ Tf.div_scalar Tf.div32 [1 # 2; 3 # 1; -2 # 1]%Q
         (Generation.max (1 # 100) Generation.epsilon) !! i = Some top.
Proof.
  intros softmax.
  destruct (top1_sampling_is_deterministic Tf.div32
              (fun x : list Q => map (fun _ => (1 # 1)%Q) x)
              [1 # 2; 3 # 1; -2 # 1]%Q (1 # 100)%Q) as [_ H].
  - intros x. apply length_map.
  - destruct H as (i & top & Hi & Hl & _); [discriminate|].
    exists i, top. split; [exact Hi|exact Hl].
Defined.

(** C8, as the claim states it, fails where the division rounds two
    logits to one float32.  The logits 1.75 and 1.75 + 2^-23 are
    neighbours in float32; divided by the float32 scalar of the
    temperature 0.8 both give 2.1875, [topk] ranks the lower position
    first, and the sampler returns the id 0, whose logit is not the
    largest. *)
Lemma top1_sampling_misses_argmax :
  let softmax := fun x : list Q => map (fun _ => (1 # 1)%Q) x in
  let logits := [7 # 4; 14680065 # 8388608]%Q in
  Tf.float32 <$> logits = logits
  /\ (7 # 4 < 14680065 # 8388608)%Q
  /\ Tf.div_scalar Tf.div32 logits
       (Generation.max (8 # 10) Generation.epsilon)
     = [35 # 16; 35 # 16]%Q
  /\ (forall r,
        Generation.sampleFromLogits Tf.div32 softmax logits (8 # 10) 1 r
        = Some 0)
  /\ ~ is_argmax logits 0.
Proof.
  intros softmax logits. split_and!.
  - reflexivity.
  - reflexivity.
  - reflexivity.
  - intros r. unfold Generation.sampleFromLogits.
    change (Tf.div_scalar Tf.div32 logits
              (Generation.max (8 # 10) Generation.epsilon))
      with [35 # 16; 35 # 16]%Q.
    change ((0 <? 1) && (1 <? Z.of_nat (length logits))) with true.
    change (Tf.topk [35 # 16; 35 # 16]%Q 1) with ([35 # 16]%Q, [0]).
    cbv iota beta. change (softmax [35 # 16]%Q) with [1 # 1]%Q.
    by rewrite scan_topk_single.
  - intros (m & _ & Hm & Hall). simpl in Hm. injection Hm as <-.
    apply Forall_cons in Hall as [_ Hall].
    apply Forall_cons in Hall as [Hle _].
    revert Hle. apply Qlt_not_le. reflexivity.
Qed.

(** ** Dataset windowing *)

Section DatasetFacts.

Import Training.

Lemma slice_in_range {A} (xs : list A) (a b : Z) :
  0 <= a <= b -> b <= Z.of_nat (length xs) ->
  Js.slice xs a b = take (Z.to_nat (b - a)) (drop (Z.to_nat a) xs)
  /\ length (Js.slice xs a b) = Z.to_nat (b - a).
Proof.
  intros Ha Hb. unfold Js.slice, Js.slice_pos.
  destruct (Z.ltb_spec a 0); [lia|]. destruct (Z.ltb_spec b 0); [lia|].
  rewrite !Z.min_l by lia. split; [done|].
  rewrite length_take, length_drop. lia.
Qed.

Lemma windows_from_step ids seqLen i (w : Windows) :
  i <= Z.of_nat (length ids) - seqLen - 1 ->
  windows_from ids seqLen i w
  = windows_from ids seqLen (i + 1)
      (w.1 ++ [Js.slice ids i (i + seqLen)],
       w.2 ++ [Js.slice ids (i + 1) (i + seqLen + 1)]).
Proof.
  intros Hi. rewrite windows_from_equation_1.
  destruct (Z_le_dec i (Z.of_nat (length ids) - seqLen - 1)); [done|lia].
Qed.

Lemma windows_from_done ids seqLen i (w : Windows) :
  ~ i <= Z.of_nat (length ids) - seqLen - 1 ->
  windows_from ids seqLen i w = w.
Proof.
  intros Hi. rewrite windows_from_equation_1.
  destruct (Z_le_dec i (Z.of_nat (length ids) - seqLen - 1)); [lia|done].
Qed.

(** The loop pushes one window per start position from [i] to [length
    ids - seqLen - 1], in order. *)
Lemma windows_from_spec ids seqLen : forall (n : nat) i (w : Windows),
  n = Z.to_nat (Z.of_nat (length ids) - seqLen - i) ->
  windows_from ids seqLen i w
  = (w.1 ++ map (fun j => Js.slice ids j (j + seqLen))
              (seqZ i (Z.of_nat (length ids) - seqLen - i)),
     w.2 ++ map (fun j => Js.slice ids (j + 1) (j + seqLen + 1))
              (seqZ i (Z.of_nat (length ids) - seqLen - i))).
Proof.
  induction n as [|n IH]; intros i w Hn.
  - rewrite windows_from_done by lia. rewrite seqZ_nil by lia.
    simpl. rewrite !app_nil_r. by destruct w.
  - rewrite windows_from_step by lia. rewrite IH by lia. simpl.
    rewrite (seqZ_cons i) by lia. simpl.
    replace (Z.pred (Z.of_nat (length ids) - seqLen - i))
      with (Z.of_nat (length ids) - seqLen - (i + 1)) by lia.
    replace (Z.succ i) with (i + 1) by lia.
    by rewrite <- !app_assoc.
Qed.

Lemma encode_length tokenizer text :
  length (Tokenizer.encode tokenizer text) = String.length text.
Proof.
  unfold Tokenizer.encode. rewrite length_map.
  induction text as [|c text IH]; simpl; [done|]. by rewrite IH.
Qed.

(** The raw windows of a sequence of ids: how many, which, and how long. *)
Lemma raw_windows ids seqLen :
  0 <= seqLen ->
  let w := windows_from ids seqLen 0 ([], []) in
  let raw := Z.to_nat (Z.of_nat (length ids) - seqLen) in
  length w.1 = raw /\ length w.2 = raw
  /\ (forall i : nat, (i < raw)%nat ->
        w.1 !! i = Some (take (Z.to_nat seqLen) (drop i ids))
        /\ w.2 !! i = Some (take (Z.to_nat seqLen) (drop (S i) ids)))
  /\ Forall (fun r => Z.of_nat (length r) = seqLen) w.1
  /\ Forall (fun r => Z.of_nat (length r) = seqLen) w.2.
Proof.
  intros HL. simpl.
  rewrite (windows_from_spec ids seqLen _ 0 ([], []) eq_refl). simpl.
  replace (Z.of_nat (length ids) - seqLen - 0)
    with (Z.of_nat (length ids) - seqLen) by lia.
  set (k := Z.of_nat (length ids) - seqLen).
  rewrite !length_map, !length_seqZ.
  split_and!; [done|done| | |].
  - intros i Hi.
    change (map ?f ?l) with (f <$> l).
    rewrite !list_lookup_fmap, lookup_seqZ_lt by lia. simpl.
    rewrite !Z.add_0_l.
    destruct (slice_in_range ids (Z.of_nat i) (Z.of_nat i + seqLen))
      as [-> _]; [lia|lia|].
    destruct (slice_in_range ids (Z.of_nat i + 1) (Z.of_nat i + seqLen + 1))
      as [-> _]; [lia|lia|].
    split; repeat (f_equal; try lia).
  - apply Forall_forall. intros r Hr.
    apply list_elem_of_In, in_map_iff in Hr as (j & <- & Hj).
    apply list_elem_of_In, elem_of_seqZ in Hj.
    destruct (slice_in_range ids j (j + seqLen)) as [_ ->]; lia.
  - apply Forall_forall. intros r Hr.
    apply list_elem_of_In, in_map_iff in Hr as (j & <- & Hj).
    apply list_elem_of_In, elem_of_seqZ in Hj.
    destruct (slice_in_range ids (j + 1) (j + seqLen + 1)) as [_ ->]; lia.
Qed.

(** What [buildDataset] returns, in terms of the raw windows. *)
Lemma buildDataset_outcome text tokenizer seqLen batchSize :
  0 <= seqLen -> 0 < batchSize ->
  let ids := Tokenizer.encode tokenizer text in
  let w := windows_from ids seqLen 0 ([], []) in
  let raw := Z.max 0 (Z.of_nat (String.length text) - seqLen) in
  let n := raw / batchSize * batchSize in
  buildDataset text tokenizer seqLen batchSize
  = if decide (n = 0) then Tf.Throw too_short
    else Tf.Ok (mkDataset
                  (Tf.mkIntMatrix (take (Z.to_nat n) w.1) (n, seqLen))
                  (Tf.mkIntMatrix (take (Z.to_nat n) w.2) (n, seqLen))).
Proof.
  intros HL HB. simpl.
  destruct (raw_windows (Tokenizer.encode tokenizer text) seqLen HL)
    as (Hl1 & Hl2 & _ & Hr1 & Hr2).
  rewrite encode_length in Hl1, Hl2.
  set (raw := Z.max 0 (Z.of_nat (String.length text) - seqLen)).
  assert (Hraw : Z.of_nat (Z.to_nat (Z.of_nat (String.length text) - seqLen))
                 = raw) by lia.
  pose proof (Z.mul_div_le raw batchSize HB) as Hle.
  assert (0 <= raw / batchSize) by (apply Z.div_pos; lia).
  unfold buildDataset.
  destruct (windows_from _ seqLen 0 ([], [])) as [ins tgts]. simpl in *.
  unfold truncate_to_batches, Js.floor_div.
  destruct (Z.eqb_spec batchSize 0) as [|HB0]; [lia|].
  rewrite Hl1, Hraw.
  set (n := raw / batchSize * batchSize) in *.
  destruct (decide (Some n = Some 0)) as [[= ->]|Hn].
  - by rewrite decide_True.
  - rewrite decide_False by congruence.
    unfold slice_to. change (default 0 (Some n)) with n.
    destruct (slice_in_range ins 0 n) as [-> _]; [lia|lia|].
    destruct (slice_in_range tgts 0 n) as [-> _]; [lia|lia|].
    change (Z.to_nat 0) with 0%nat. rewrite !drop_0.
    replace (n - 0) with n by lia.
    rewrite !tensor2d_ok; [done| | | |].
    + rewrite length_take. lia.
    + by apply Forall_take.
    + rewrite length_take. lia.
    + by apply Forall_take.
Qed.

End DatasetFacts.

(** C5. For a corpus of [C] characters, a sequence length [L] and a batch
    size [B], [buildDataset] builds exactly [max(0, C - L)] raw windows,
    the [i]-th with input [ids[i .. i+L)] and target [ids[i+1 .. i+L+1)];
    the dataset it returns has [floor((C - L) / B) * B] samples, the first
    ones in order, and that is the largest multiple of [B] not above the
    number of raw windows; it returns one as soon as there are [B]
    windows. *)
Theorem buildDataset_window_count
  (text : string) (tokenizer : Tokenizer.SimpleTokenizer) (L B : Z) :
  0 <= L -> 0 < B ->
  let ids := Tokenizer.encode tokenizer text in
  let C := Z.of_nat (String.length text) in
  let w := Training.windows_from ids L 0 ([], []) in
  let raw := Z.max 0 (C - L) in
  (Z.of_nat (length w.1) = raw /\ Z.of_nat (length w.2) = raw
   /\ forall i : nat, Z.of_nat i < raw ->
        w.1 !! i = Some (take (Z.to_nat L) (drop i ids))
        /\ w.2 !! i = Some (take (Z.to_nat L) (drop (S i) ids)))
  /\ (forall ds, Training.buildDataset text tokenizer L B = Tf.Ok ds ->
        let n := (C - L) / B * B in
        Tf.mshape (Training.inputs ds) = (n, L)
        /\ Tf.mshape (Training.targets ds) = (n, L)
        /\ Tf.rows (Training.inputs ds) = take (Z.to_nat n) w.1
        /\ Tf.rows (Training.targets ds) = take (Z.to_nat n) w.2
        /\ Z.of_nat (length (Tf.rows (Training.inputs ds))) = n
        /\ n mod B = 0 /\ n <= raw < n + B)
  /\ (B <= C - L ->
      exists ds, Training.buildDataset text tokenizer L B = Tf.Ok ds).
Proof.
  intros HL HB. simpl.
  destruct (raw_windows (Tokenizer.encode tokenizer text) L HL)
    as (Hl1 & Hl2 & Hw & _ & _).
  rewrite encode_length in Hl1, Hl2, Hw.
  pose proof (buildDataset_outcome text tokenizer L B HL HB) as Hout.
  simpl in Hout.
  set (C := Z.of_nat (String.length text)) in *.
  set (raw := Z.max 0 (C - L)) in *.
  split_and!; [lia|lia| | |].
  - intros i Hi. apply Hw. lia.
  - intros ds Hds. rewrite Hout in Hds.
    destruct (decide (raw / B * B = 0)) as [|Hn]; [done|].
    injection Hds as <-. simpl.
    assert (Hpos : 0 < C - L).
    { destruct (Z.le_gt_cases (C - L) 0) as [Hle|]; [|done].
      destruct Hn. replace raw with 0 by lia. done. }
    replace raw with (C - L) in * by lia.
    pose proof (Z.mul_div_le (C - L) B HB).
    pose proof (Z.mul_succ_div_gt (C - L) B HB).
    assert (0 <= (C - L) / B) by (apply Z.div_pos; lia).
    split_and!; try done.
    + rewrite length_take. lia.
    + apply Z.mod_mul. lia.
    + lia.
    + lia.
  - intros Hge. rewrite Hout. rewrite decide_False; [eauto|].
    replace raw with (C - L) by lia.
    assert (1 <= (C - L) / B) by (apply Z.div_le_lower_bound; lia).
    nia.
Qed.

Lemma buildDataset_window_count_witness :
  exists ds,
    Training.buildDataset "HELLO WORLD" (Tokenizer.from_corpus "HELLO WORLD") 3 3
    = Tf.Ok ds.
Proof.
  apply (buildDataset_window_count "HELLO WORLD"
           (Tokenizer.from_corpus "HELLO WORLD") 3 3); simpl; lia.
Defined.

(** C6. When the construction of the dataset fails, [trainModel] reports
    the error and returns, with the store of the parameter tensors as it
    was: no optimization step has run, whatever the step does.  The
    construction fails when the corpus is shorter than [seqLen + 1] or the
    batch size is larger than the number of windows. *)
Theorem trainModel_failed_dataset_leaves_parameters
  (Optimizer : Type) (adam : Q -> Optimizer)
  (optimization_step :
     Transformer.TransformerModel -> Tf.IntMatrix -> Tf.IntMatrix ->
     Tf.Store -> Optimizer -> Tf.result (Tf.Store * Optimizer * Q))
  (toFixed4 : Q -> string)
  (model : Transformer.TransformerModel)
  (tokenizer : Tokenizer.SimpleTokenizer) (corpus : string)
  (cfg : Types.TrainingConfig) (st : Tf.Store) :
  let C := Z.of_nat (String.length corpus) in
  let L := Types.seqLen cfg in
  let B := Types.batchSize cfg in
  let run := Training.trainModel Optimizer adam optimization_step toFixed4
               model tokenizer corpus cfg st in
  (forall message,
     Training.buildDataset corpus tokenizer L B = Tf.Throw message ->
     Training.out_store run = st
     /\ Training.out_result run = Tf.Ok tt
     /\ last (Training.out_log run) = Some ("Error: " +:+ message))
  /\ (0 <= L -> 0 < B -> C < L + 1 \/ Z.max 0 (C - L) < B ->
      Training.buildDataset corpus tokenizer L B
      = Tf.Throw Training.too_short
      /\ Training.out_store run = st
      /\ Training.out_result run = Tf.Ok tt
      /\ last (Training.out_log run)
         = Some ("Error: " +:+ Training.too_short)).
Proof.
  simpl.
  assert (Hfail : forall message,
    Training.buildDataset corpus tokenizer (Types.seqLen cfg)
      (Types.batchSize cfg) = Tf.Throw message ->
    let run := Training.trainModel Optimizer adam optimization_step toFixed4
                 model tokenizer corpus cfg st in
    Training.out_store run = st
    /\ Training.out_result run = Tf.Ok tt
    /\ last (Training.out_log run) = Some ("Error: " +:+ message)).
  { intros message Hds. unfold Training.trainModel. rewrite Hds. done. }
  split; [exact Hfail|].
  intros HL HB Hsmall.
  assert (Hds : Training.buildDataset corpus tokenizer (Types.seqLen cfg)
                  (Types.batchSize cfg) = Tf.Throw Training.too_short).
  { rewrite (buildDataset_outcome corpus tokenizer _ _ HL HB).
    rewrite decide_True; [done|].
    rewrite Z.div_small; lia. }
  split; [exact Hds|]. by apply Hfail.
Qed.

Lemma trainModel_failed_dataset_leaves_parameters_witness :
  let cfg := Types.mkTrainingConfig 4 10 (1 # 200) 32 in
  let st := [Tf.mkTensor [2] [1; 1]%Q] in
  let run := Training.trainModel unit (fun _ => tt)
               (fun _ _ _ _ _ => Tf.Ok ([], tt, 0%Q))
               (fun _ => "0.0000")
               (Transformer.mkTransformerModel
                  (Layers.mkTokenEmbedding 2 1 0%nat) [] 0%nat
                  (Types.mkModelConfig 2 1 1 1 0 8 0%Q))
               (Tokenizer.from_corpus "HELLO") "HELLO" cfg st in
  Training.out_store run = st /\ Training.out_result run = Tf.Ok tt.
Proof.
  simpl.
  destruct (trainModel_failed_dataset_leaves_parameters unit (fun _ => tt)
              (fun _ _ _ _ _ => Tf.Ok ([], tt, 0%Q)) (fun _ => "0.0000")
              (Transformer.mkTransformerModel
                 (Layers.mkTokenEmbedding 2 1 0%nat) [] 0%nat
                 (Types.mkModelConfig 2 1 1 1 0 8 0%Q))
              (Tokenizer.from_corpus "HELLO") "HELLO"
              (Types.mkTrainingConfig 4 10 (1 # 200) 32)
              [Tf.mkTensor [2] [1; 1]%Q]) as [_ H].
  destruct H as (_ & Hst & Hres & _); simpl; [lia|lia|lia|].
  split; [exact Hst|exact Hres].
Defined.

(** ** Persistence *)

Section MapFacts.

Context `{Countable K} {A : Type}.

(** Filling an empty [Map] entry by entry from the entries of a
    dictionary gives the dictionary back. *)
Lemma fold_insert_lookup (l : list (K * A)) : forall (m : gmap K A) k,
  NoDup l.*1 ->
  fold_left (fun m kv => <[kv.1 := kv.2]> m) l m !! k
  = match (list_to_map l : gmap K A) !! k with
    | Some x => Some x
    | None => m !! k
    end.
Proof.
  induction l as [|[k0 x0] l IH]; intros m k Hnd.
  - simpl. by rewrite lookup_empty.
  - rewrite fmap_cons in Hnd. apply NoDup_cons in Hnd as [Hk0 Hnd].
    cbn [fold_left fst snd]. rewrite IH by done.
    rewrite list_to_map_cons.
    destruct (decide (k = k0)) as [->|Hne].
    + rewrite (not_elem_of_list_to_map_1 _ k0 Hk0).
      by rewrite !lookup_insert_eq.
    + by rewrite !(lookup_insert_ne _ k0 k).
Qed.

Lemma fold_insert_map_to_list (m : gmap K A) :
  fold_left (fun m kv => <[kv.1 := kv.2]> m) (map_to_list m) ∅ = m.
Proof.
  apply map_eq. intros k.
  rewrite fold_insert_lookup by apply NoDup_fst_map_to_list.
  rewrite list_to_map_to_list, lookup_empty. by destruct (m !! k).
Qed.

Lemma NoDup_snd_inj (l : list (K * A)) k1 k2 x :
  NoDup l.*2 -> (k1, x) ∈ l -> (k2, x) ∈ l -> k1 = k2.
Proof.
  induction l as [|[k y] l IH]; intros Hnd H1 H2.
  - by apply elem_of_nil in H1.
  - rewrite fmap_cons in Hnd. apply NoDup_cons in Hnd as [Hy Hnd].
    apply elem_of_cons in H1 as [E1|H1];
      apply elem_of_cons in H2 as [E2|H2]; simplify_eq.
    + done.
    + destruct Hy. apply list_elem_of_fmap. by exists (k2, y).
    + destruct Hy. apply list_elem_of_fmap. by exists (k1, y).
    + by apply IH.
Qed.

End MapFacts.

Lemma fold_insert_from {K A} `{Countable K} (l : list (K * A)) :
  forall (m : gmap K A) k x,
  fold_left (fun m kv => <[kv.1 := kv.2]> m) l m !! k = Some x ->
  (k, x) ∈ l \/ m !! k = Some x.
Proof.
  induction l as [|[k0 x0] l IH]; intros m k x Hk; [by right|].
  cbn [fold_left fst snd] in Hk. apply IH in Hk as [Hin|Hk].
  - left. set_solver.
  - apply lookup_insert_Some in Hk as [[<- <-]|[_ Hk]]; [left; set_solver|].
    by right.
Qed.

Section VariablesFacts.

Import Types Layers Transformer.

Lemma blocks_variables_fold blocks : forall i (vars : gmap string Tf.Var),
  blocks_variables i blocks vars
  = fold_left (fun m kv => <[kv.1 := kv.2]> m) (blocks_entries i blocks) vars.
Proof.
  induction blocks as [|b rest IH]; intros i vars; [done|].
  cbn [blocks_variables blocks_entries]. rewrite IH, fold_left_app.
  reflexivity.
Qed.

Lemma getTrainableVariables_fold m :
  getTrainableVariables m
  = fold_left (fun m kv => <[kv.1 := kv.2]> m) (model_entries m) ∅.
Proof.
  unfold getTrainableVariables, model_entries.
  cbn [fold_left fst snd]. rewrite fold_left_app, blocks_variables_fold.
  reflexivity.
Qed.

Lemma blocks_entries_handles blocks : forall i,
  (blocks_entries i blocks).*2 = concat (block_handles <$> blocks).
Proof.
  induction blocks as [|b rest IH]; intros i; [done|].
  cbn [blocks_entries]. rewrite fmap_app, IH. reflexivity.
Qed.

Lemma model_entries_handles m : (model_entries m).*2 = model_handles m.
Proof.
  unfold model_entries, model_handles.
  rewrite fmap_cons, fmap_app, blocks_entries_handles. reflexivity.
Qed.

(** A model whose variables are distinct positions of the store is well
    formed. *)
Lemma distinct_handles_vars_ok m (st : Tf.Store) :
  NoDup (model_handles m) ->
  Forall (fun v => (v < length st)%nat) (model_handles m) ->
  vars_ok (getTrainableVariables m) st.
Proof.
  intros Hnd Hlive. rewrite <- model_entries_handles in Hnd, Hlive.
  assert (Hfrom : forall name v,
    getTrainableVariables m !! name = Some v -> (name, v) ∈ model_entries m).
  { intros name v Hv. rewrite getTrainableVariables_fold in Hv.
    apply fold_insert_from in Hv as [Hin|Hv]; [done|].
    by rewrite lookup_empty in Hv. }
  split.
  - intros name v Hv. rewrite Forall_forall in Hlive. apply Hlive.
    apply list_elem_of_fmap. exists (name, v). split; [done|by apply Hfrom].
  - apply NoDup_fmap_2_strong; [|apply NoDup_map_to_list].
    intros [n1 v1] [n2 v2] H1 H2 Heq. simpl in Heq. subst v2.
    apply elem_of_map_to_list in H1, H2. f_equal.
    apply (NoDup_snd_inj (model_entries m) n1 n2 v1 Hnd); by apply Hfrom.
Qed.

(** Every model the constructor returns is well formed in the store the
    constructor leaves. *)
Lemma constructed_vars_ok
  (randomNormal : nat -> list Z -> list Q) cfg (st st' : Tf.Store) m :
  0 <= vocabSize cfg -> 0 <= dModel cfg -> 0 <= dff cfg ->
  TransformerModel_new randomNormal cfg st = (Tf.Ok m, st') ->
  vars_ok (getTrainableVariables m) st'.
Proof.
  intros Hv Hd Hf E.
  destruct (allocates_TransformerModel randomNormal cfg Hv Hd Hf st)
    as (m0 & st0 & E0 & L & _ & _ & _ & Hh).
  rewrite E in E0. injection E0 as <- <-.
  apply distinct_handles_vars_ok; rewrite Hh.
  - apply NoDup_seq.
  - apply Forall_forall. intros v Hin. apply elem_of_seq in Hin. lia.
Qed.

End VariablesFacts.

(** The store the constructor leaves holds tensors with as many values
    as their shapes ask for, float32 numbers, when [randomNormal] draws
    as many float32 numbers. *)
Section StoreFacts.

Variable randomNormal : nat -> list Z -> list Q.
Hypothesis randomNormal_size :
  forall n shp, length (randomNormal n shp) = Z.to_nat (Tf.size shp).
Hypothesis randomNormal_float32 :
  forall n shp, Tf.float32 <$> randomNormal n shp = randomNormal n shp.

Lemma keeps_ret {A} (a : A) : keeps_ok (Tf.ret a).
Proof. intros st a' st' [= _ <-]. done. Qed.

Lemma keeps_bind {A B} (m : Tf.Alloc A) (k : A -> Tf.Alloc B) :
  keeps_ok m -> (forall a, keeps_ok (k a)) -> keeps_ok (Tf.bind m k).
Proof.
  intros Hm Hk st b st' E Hst. unfold Tf.bind in E.
  destruct (m st) as [[a|msg] st1] eqn:E1; [|done].
  eapply Hk; [exact E|]. by eapply Hm.
Qed.

Lemma keeps_variable shp init :
  (Tf.allocatable shp = true -> Z.of_nat (length init) = Tf.size shp) ->
  Tf.float32 <$> init = init ->
  keeps_ok (Tf.variable shp init).
Proof.
  intros Hlen Hf32 st v st' E Hst. unfold Tf.variable in E.
  destruct (Tf.allocatable shp) eqn:Ha; [|done].
  injection E as _ <-. apply Forall_app. split; [done|].
  apply Forall_singleton. simpl. split_and!; [done|by apply Hlen|done].
Qed.

Lemma size_nonneg shp : Tf.allocatable shp = true -> 0 <= Tf.size shp.
Proof.
  unfold Tf.allocatable, Tf.size.
  induction shp as [|d shp IH]; simpl; [lia|].
  intros [Hd Hs]%andb_true_iff. apply Z.leb_le in Hd.
  specialize (IH Hs). nia.
Qed.

Lemma keeps_random_variable shp :
  keeps_ok (Layers.random_variable randomNormal shp).
Proof.
  intros st v st' E. unfold Layers.random_variable in E.
  eapply keeps_variable; [| |exact E].
  - intros Ha. rewrite randomNormal_size.
    pose proof (size_nonneg shp Ha). lia.
  - apply randomNormal_float32.
Qed.

Lemma keeps_constant_variable c n :
  Tf.float32 c = c ->
  keeps_ok (Layers.constant_variable c n).
Proof.
  intros Hc. apply keeps_variable.
  - intros Ha. rewrite repeat_length.
    pose proof (size_nonneg [n] Ha) as Hn.
    unfold Tf.size in *. simpl in *. lia.
  - induction (Z.to_nat n) as [|k IH]; [done|].
    cbn [repeat]. rewrite fmap_cons. by rewrite Hc, IH.
Qed.

Lemma keeps_push_blocks cfg todo : forall blocks,
  keeps_ok (Transformer.push_blocks randomNormal todo cfg blocks).
Proof.
  induction todo as [|todo IH]; intros blocks; simpl.
  - apply keeps_ret.
  - apply keeps_bind; [|intros b; apply IH].
    unfold Transformer.EncoderBlock_new, Layers.MultiHeadAttention_new,
      Layers.FeedForward_new, Layers.LayerNormalization_new.
    repeat first
      [ apply keeps_ret
      | apply keeps_random_variable
      | apply keeps_constant_variable; reflexivity
      | apply keeps_bind; [|intros ?] ].
Qed.

Lemma constructed_store_ok cfg (st st' : Tf.Store) m :
  Transformer.TransformerModel_new randomNormal cfg st = (Tf.Ok m, st') ->
  store_ok st -> store_ok st'.
Proof.
  revert st m st'.
  change (keeps_ok (Transformer.TransformerModel_new randomNormal cfg)).
  unfold Transformer.TransformerModel_new, Layers.TokenEmbedding_new.
  repeat first
    [ apply keeps_ret
    | apply keeps_random_variable
    | apply keeps_push_blocks
    | apply keeps_bind; [|intros ?] ].
Qed.

End StoreFacts.


Lemma vars_ok_live vars st name v :
  vars_ok vars st -> vars !! name = Some v -> is_Some (st !! v).
Proof.
  intros [Hlive _] Hv. apply lookup_lt_is_Some. by apply (Hlive name).
Qed.

Lemma vars_ok_inj vars st n1 n2 v :
  vars_ok vars st -> vars !! n1 = Some v -> vars !! n2 = Some v -> n1 = n2.
Proof.
  intros [_ Hnd] H1 H2.
  apply (NoDup_snd_inj (map_to_list vars) n1 n2 v Hnd);
    by apply elem_of_map_to_list.
Qed.

Section ImportFacts.

Import Persistence.

Variable vars : gmap string Tf.Var.

Lemma vars_ok_same_shapes (st st' : Tf.Store) :
  Tf.shape <$> st' = Tf.shape <$> st -> vars_ok vars st -> vars_ok vars st'.
Proof.
  intros Hs [Hlive Hnd]. split; [|done].
  assert (length st' = length st) as ->; [|done].
  by rewrite <- (length_fmap Tf.shape st'), Hs, length_fmap.
Qed.

Lemma tensor_of_entry spec :
  entry_ok spec ->
  Tf.tensor (ser_data spec) (ser_shape spec) = Tf.Ok (saved_tensor spec).
Proof.
  intros [Ha Hl]. unfold Tf.tensor. rewrite Ha.
  apply Z.eqb_eq in Hl. by rewrite Hl.
Qed.

(** One entry: it throws nothing, leaves every shape as it is, and either
    warns or overwrites the variable of its name and no other. *)
Lemma import_entry_step (s : ImportState) name spec :
  thrown s = None -> vars_ok vars (store s) ->
  (warning_of vars (Tf.shape <$> store s) (name, spec) = None ->
   entry_ok spec) ->
  let s1 := import_entry vars s (name, spec) in
  thrown s1 = None
  /\ Tf.shape <$> store s1 = Tf.shape <$> store s
  /\ warnings s1
     = warnings s
       ++ option_list (warning_of vars (Tf.shape <$> store s) (name, spec))
  /\ (forall v live,
        vars !! name = Some v -> store s !! v = Some live ->
        store s1 !! v
        = Some (if decide (Tf.shape live = ser_shape spec)
                then saved_tensor spec else live))
  /\ (forall v', vars !! name <> Some v' -> store s1 !! v' = store s !! v').
Proof.
  intros Hthrown Hok Hspec. simpl. unfold import_entry, warning_of.
  rewrite Hthrown. simpl. unfold get_property.
  destruct (vars !! name) as [v|] eqn:Hv.
  - destruct (vars_ok_live vars _ name v Hok Hv) as [live Hlive].
    rewrite Hlive, list_lookup_fmap, Hlive. simpl.
    destruct (decide (Tf.shape live = ser_shape spec)) as [Hsh|Hsh].
    + rewrite tensor_of_entry.
      2:{ apply Hspec. unfold warning_of, get_property. cbn [fst snd].
          rewrite Hv, list_lookup_fmap, Hlive. simpl.
          rewrite decide_True; [done|congruence]. }
      simpl. rewrite decide_True by congruence. simpl.
      split_and!; [done| |by rewrite app_nil_r| |].
      * rewrite list_fmap_insert. apply list_insert_id.
        rewrite list_lookup_fmap, Hlive. simpl. by rewrite Hsh.
      * intros v0 live0 [= <-] Hl0. rewrite Hlive in Hl0.
        injection Hl0 as <-. rewrite decide_True by done.
        apply list_lookup_insert_eq. by apply lookup_lt_Some in Hlive.
      * intros v' Hv'. apply list_lookup_insert_ne. congruence.
    + rewrite decide_False by congruence. simpl.
      split_and!; [done|done|done| |done].
      intros v0 live0 [= <-] Hl0. rewrite Hlive in Hl0.
      injection Hl0 as <-. by rewrite decide_False.
  - case_decide; simpl; split_and!; done.
Qed.

(** The whole loop over entries with distinct names. *)
Lemma import_fold entries : forall s : ImportState,
  NoDup entries.*1 -> thrown s = None -> vars_ok vars (store s) ->
  Forall (fun e => warning_of vars (Tf.shape <$> store s) e = None ->
                   entry_ok e.2) entries ->
  let s' := fold_left (import_entry vars) entries s in
  thrown s' = None
  /\ Tf.shape <$> store s' = Tf.shape <$> store s
  /\ warnings s'
     = warnings s ++ omap (warning_of vars (Tf.shape <$> store s)) entries
  /\ (forall name v live,
        vars !! name = Some v -> store s !! v = Some live ->
        store s' !! v = Some (restored (list_to_map entries) name live))
  /\ (forall v, (forall name, vars !! name <> Some v) ->
        store s' !! v = store s !! v).
Proof.
  induction entries as [|[name spec] entries IH];
    intros s Hnd Hthrown Hok Hspecs.
  - simpl. split_and!; [done|done|by rewrite app_nil_r| |done].
    intros name v live _ Hl. unfold restored.
    by rewrite lookup_empty.
  - rewrite fmap_cons in Hnd. apply NoDup_cons in Hnd as [Hname Hnd].
    apply Forall_cons in Hspecs as [Hspec Hspecs].
    destruct (import_entry_step s name spec Hthrown Hok Hspec)
      as (Ht1 & Hs1 & Hw1 & Hown & Hother).
    cbn [fold_left].
    set (s1 := import_entry vars s (name, spec)) in *.
    rewrite <- Hs1 in Hspecs.
    destruct (IH s1 Hnd Ht1 (vars_ok_same_shapes _ _ Hs1 Hok) Hspecs)
      as (Ht & Hs & Hw & Hres & Hrest).
    split_and!.
    + done.
    + by rewrite Hs.
    + rewrite Hw, Hw1, Hs1. rewrite <- app_assoc. f_equal.
      cbn [omap list_omap]. by destruct (warning_of _ _ _).
    + intros name' v live Hv Hl. unfold restored.
      rewrite list_to_map_cons. destruct (decide (name' = name)) as [->|Hne].
      * rewrite lookup_insert_eq.
        rewrite (Hres name v _ Hv (Hown v live Hv Hl)).
        unfold restored. simpl in Hname.
        by rewrite (not_elem_of_list_to_map_1 _ name Hname).
      * rewrite lookup_insert_ne by done.
        assert (Hl1 : store s1 !! v = Some live).
        { rewrite Hother; [done|]. intros Hv'.
          apply Hne. by apply (vars_ok_inj vars (store s) name' name v). }
        by rewrite (Hres name' v live Hv Hl1).
    + intros v Hv. rewrite (Hrest v Hv). by apply Hother.
Qed.

End ImportFacts.

Section ExportFacts.

Import Persistence.

Lemma export_fold (st : Tf.Store) (l : list (string * Tf.Var)) :
  forall acc : gmap string SerializedWeight,
  Forall (fun e => is_Some (st !! e.2)) l ->
  exists ws,
    fold_left (export_entry st) l (Tf.Ok acc) = Tf.Ok ws
    /\ dom ws = dom acc ∪ list_to_set l.*1
    /\ forall name spec, ws !! name = Some spec ->
         acc !! name = Some spec
         \/ exists v t, (name, v) ∈ l /\ st !! v = Some t
                        /\ spec = serialized t.
Proof.
  induction l as [|[name v] l IH]; intros acc Hlive.
  - exists acc. simpl. split_and!; [done|set_solver|by left].
  - apply Forall_cons in Hlive as [[t Ht] Hlive]. simpl in Ht.
    cbn [fold_left]. unfold export_entry at 2. simpl. rewrite Ht.
    destruct (IH (<[name := serialized t]> acc) Hlive)
      as (ws & E & Hdom & Hfrom).
    exists ws. split_and!; [done| |].
    + rewrite Hdom, dom_insert_L. simpl. set_solver.
    + intros n spec Hn. destruct (Hfrom n spec Hn) as [Hacc|Hl].
      * apply lookup_insert_Some in Hacc as [[<- <-]|[_ Hacc]].
        -- right. exists v, t. split_and!; [set_solver|done|done].
        -- by left.
      * right. destruct Hl as (v' & t' & Hin & Ht' & ->).
        exists v', t'. split_and!; [set_solver|done|done].
Qed.

(** Importing entries that hold what the variables hold changes
    nothing. *)
Lemma import_identity (vars : gmap string Tf.Var) (st : Tf.Store)
  (entries : list (string * SerializedWeight)) :
  store_ok st ->
  Forall (fun e => exists v t, vars !! e.1 = Some v /\ st !! v = Some t
                               /\ e.2 = serialized t) entries ->
  fold_left (import_entry vars) entries (mkImportState st [] None)
  = mkImportState st [] None.
Proof.
  intros Hst. induction 1 as [|[name spec] entries Hx _ IH]; [done|].
  cbn [fold_left]. destruct Hx as (v & t & Hv & Ht & Hspec).
  simpl in Hv, Hspec. subst spec.
  replace (import_entry vars (mkImportState st [] None) (name, serialized t))
    with (mkImportState st [] None); [exact IH|].
  unfold import_entry, get_property. simpl. rewrite Hv, Ht.
  rewrite decide_True by done.
  unfold store_ok in Hst. rewrite Forall_forall in Hst.
  destruct (Hst t) as (Ha & Hl & Hf32); [by eapply list_elem_of_lookup_2|].
  unfold Tf.tensor. rewrite Ha. apply Z.eqb_eq in Hl. rewrite Hl. simpl.
  rewrite Hf32.
  f_equal. symmetry. apply list_insert_id. rewrite Ht. by destruct t.
Qed.

Lemma importTokenizer_exported (t : Tokenizer.SimpleTokenizer) :
  importTokenizer
    (Tokenizer.mkSerialized (Tokenizer.vocab t) (Tokenizer.inverseVocab t)
       (Tokenizer.vocabSize t)) = t.
Proof.
  unfold importTokenizer, Tokenizer.from_serialized. simpl.
  rewrite !fold_insert_map_to_list. by destruct t.
Qed.

End ExportFacts.

(** C3. Exporting a model and importing the result into the same model
    leaves every parameter tensor as it was, value for value: every
    variable of the model is saved under its name, none is skipped, and
    the store after the import is the store before it.  The tokenizer
    rebuilt from the saved vocabulary is the tokenizer that was saved. *)
Theorem export_import_round_trip
  (model : Transformer.TransformerModel)
  (tokenizer : Tokenizer.SimpleTokenizer) (st : Tf.Store) (now : Z) :
  map_Forall (fun _ v => (v < length st)%nat)
    (Transformer.getTrainableVariables model) ->
  store_ok st ->
  exists state,
    Persistence.exportModelState model tokenizer st now = Tf.Ok state
    /\ dom (Persistence.weights state)
       = dom (Transformer.getTrainableVariables model)
    /\ Persistence.importModelState model state st
       = Persistence.mkImportState st [] None
    /\ Persistence.importTokenizer (Persistence.saved_tokenizer state)
       = tokenizer.
Proof.
  intros Hlive Hst. unfold Persistence.exportModelState.
  set (vars := Transformer.getTrainableVariables model) in *.
  destruct (export_fold st (map_to_list vars) ∅) as (ws & E & Hdom & Hfrom).
  { apply Forall_forall. intros [name v] Hin. simpl.
    apply elem_of_map_to_list in Hin. apply lookup_lt_is_Some.
    by apply (Hlive name). }
  rewrite E. eexists. split; [reflexivity|]. simpl. split_and!.
  - apply set_eq. intros name.
    rewrite Hdom, dom_empty_L, elem_of_union, elem_of_list_to_set,
      list_elem_of_fmap, elem_of_dom.
    split.
    + intros [Hf|([n v] & -> & Hin)]; [by apply elem_of_empty in Hf|].
      apply elem_of_map_to_list in Hin. by exists v.
    + intros [v Hv]. right. exists (name, v). split; [done|].
      by apply elem_of_map_to_list.
  - unfold Persistence.importModelState. simpl. fold vars.
    apply import_identity; [done|].
    apply Forall_forall. intros [name spec] Hin. simpl.
    apply elem_of_map_to_list in Hin.
    destruct (Hfrom name spec Hin) as [Hempty|(v & t & Hv & Ht & ->)].
    + by rewrite lookup_empty in Hempty.
    + exists v, t. split_and!; [|done|done]. by apply elem_of_map_to_list.
  - apply importTokenizer_exported.
Qed.


Lemma export_import_round_trip_witness :
  exists state,
    Persistence.exportModelState Sample.model (Tokenizer.from_corpus "ab")
      Sample.store 0 = Tf.Ok state
    /\ Persistence.importModelState Sample.model state Sample.store
       = Persistence.mkImportState Sample.store [] None.
Proof.
  destruct (export_import_round_trip Sample.model (Tokenizer.from_corpus "ab")
              Sample.store 0) as (state & E & _ & I & _).
  - apply (bool_decide_unpack _). vm_compute. exact I.
  - unfold store_ok. apply (bool_decide_unpack _). vm_compute. exact I.
  - exists state. split; [exact E|exact I].
Defined.


Example import_foreign_state :
  let after := Persistence.importModelState Sample.model Sample.foreign_state
                 Sample.store in
  Persistence.store after !! 0%nat
  = Some (Tf.mkTensor [3; 2] [1; 2; 3; 4; 5; 6]%Q)
  /\ Persistence.store after !! 11%nat = Sample.store !! 11%nat
  /\ length (Persistence.warnings after) = 2%nat
  /\ Persistence.thrown after = None.
Proof. vm_compute. split_and!; reflexivity. Qed.


(** ** The examples of the source *)

(** The example in the comment of [buildDataset]: text "HELLO" and
    sequence length 3 give the windows HEL/ELL and ELL/LLO. *)
Example hello_windows :
  let t := Tokenizer.from_corpus "HELLO" in
  Tokenizer.encode t "HELLO" = [3; 2; 4; 4; 5]
  /\ Training.windows_from (Tokenizer.encode t "HELLO") 3 0 ([], [])
     = ([Tokenizer.encode t "HEL"; Tokenizer.encode t "ELL"],
        [Tokenizer.encode t "ELL"; Tokenizer.encode t "LLO"])
  /\ Training.buildDataset "HELLO" t 3 3 = Tf.Throw Training.too_short.
Proof. vm_compute. split_and!; reflexivity. Qed.

Example tokenizer_markers :
  let t := Tokenizer.from_corpus "hello" in
  Tokenizer.getVocabSize t = 6
  /\ Tokenizer.encode t "hole!" = [3; 5; 4; 2; 1]
  /\ Tokenizer.decode t [3; 5; 4; 2; 1; 0; 9] = "hole<UNK><PAD>".
Proof. vm_compute. split_and!; reflexivity. Qed.

(** The sampler on three logits: with [topK = 0] the whole vocabulary is
    scanned and the draw selects the first id whose running sum reaches
    it; beyond the sum, the last id. *)
Example full_vocabulary_scan :
  let softmax := fun _ : list Q => [1 # 2; 1 # 4; 1 # 8]%Q in
  Generation.sampleFromLogits Tf.div32 softmax [3; 2; 1]%Q 1%Q 0 (3 # 5)%Q
  = Some 1
  /\ Generation.sampleFromLogits Tf.div32 softmax [3; 2; 1]%Q 1%Q 0
       (9 # 10)%Q
     = Some 2.
Proof. vm_compute. split; reflexivity. Qed.

(** The conversion to float32: 2^24 + 1 is halfway between two float32
    numbers and goes to the even one; 0.1 and 0.8 go to their
    neighbours; a number below half the smallest subnormal goes to 0;
    the largest float32 stays, and what rounds beyond it is
    [Infinity]. *)
Example float32_conversions :
  Tf.float32 16777217 = 16777216%Q
  /\ Tf.float32 16777219 = 16777220%Q
  /\ Tf.float32 (1 # 10) = (13421773 # 134217728)%Q
  /\ Tf.float32 (8 # 10) = (13421773 # 16777216)%Q
  /\ Tf.float32 (- (1 # 3)) = (- (11184811 # 33554432))%Q
  /\ Tf.float32 (Qpower 2 (-150)) = 0%Q
  /\ Tf.float32 (3 * Qpower 2 (-150)) = Qred (Qpower 2 (-148))
  /\ Tf.float32 (inject_Z ((2 ^ 24 - 1) * 2 ^ 104))
     = inject_Z ((2 ^ 24 - 1) * 2 ^ 104)
  /\ Tf.float32 (inject_Z (10 ^ 39)) = Tf.infinity
  /\ Tf.float32 (- inject_Z (10 ^ 39)) = Qred (- Tf.infinity).
Proof. vm_compute. split_and!; reflexivity. Qed.

(** An entry of the saved state that holds 2^24 + 1: the tensor holds
    2^24 after the import. *)
Example import_converts_to_float32 :
  let state :=
    Persistence.mkSavedModelState Sample.config
      (Tokenizer.mkSerialized ∅ ∅ 0)
      (<["blk0_ln1_g" :=
           Persistence.mkSerializedWeight [2] [16777217; 1 # 2]%Q]> ∅) 0 in
  let after := Persistence.importModelState Sample.model state Sample.store in
  Transformer.getTrainableVariables Sample.model !! "blk0_ln1_g"
  = Some 7%nat
  /\ Persistence.store after !! 7%nat
     = Some (Tf.mkTensor [2] [16777216; 1 # 2]%Q)
  /\ Persistence.thrown after = None.
Proof. vm_compute. split_and!; reflexivity. Qed.

(** With [topK = 1] and the temperature at its floor, two logits that
    both overflow in the division: the scaled logits are [Infinity]
    twice and the sampler returns the id 0, though the logit of the id 1
    is twice as large. *)
Example top1_sampling_on_overflow :
  let softmax := fun x : list Q => map (fun _ => (1 # 1)%Q) x in
  let logits :=
    [Tf.float32 (inject_Z (10 ^ 35)); Tf.float32 (inject_Z (2 * 10 ^ 35))] in
  Tf.div_scalar Tf.div32 logits (Generation.max 0 Generation.epsilon)
  = [Tf.infinity; Tf.infinity]
  /\ Generation.sampleFromLogits Tf.div32 softmax logits 0 1 (1 # 2)
     = Some 0.
Proof. vm_compute. split; reflexivity. Qed.

(** * Further properties of the services *)

(** ** Tokenizer: the vocabulary a corpus gives *)

Section VocabularyFacts.

Import Tokenizer.

(** The loop of the constructor puts the [i]-th character at id [idx + i],
    in both maps, and no other id from [idx] on is used. *)
Lemma add_chars_at chars : forall v iv idx i c,
  NoDup chars -> chars !! i = Some c ->
  let st := fold_left add_char chars (v, iv, idx) in
  st.1.1 !! c = Some (idx + Z.of_nat i)
  /\ st.1.2 !! (idx + Z.of_nat i) = Some c.
Proof.
  induction chars as [|c0 cs IH]; intros v iv idx i c Hnd Hi; [done|].
  apply NoDup_cons in Hnd as [Hc0 Hnd]. cbn [fold_left add_char]. cbv zeta.
  destruct i as [|i]; simpl in Hi.
  - injection Hi as ->.
    destruct (add_chars_spec cs (<[c:=idx]> v) (<[idx:=c]> iv) (idx + 1) Hnd)
      as (_ & Hout & Hlow & _).
    replace (idx + Z.of_nat 0) with idx by lia.
    rewrite (Hout _ Hc0), Hlow by lia. by rewrite !lookup_insert_eq.
  - destruct (IH (<[c0:=idx]> v) (<[idx:=c0]> iv) (idx + 1) i c Hnd Hi)
      as [H1 H2].
    replace (idx + Z.of_nat (S i)) with (idx + 1 + Z.of_nat i) by lia. done.
Qed.

Lemma add_chars_beyond chars : forall v iv idx k,
  idx + Z.of_nat (length chars) <= k ->
  (fold_left add_char chars (v, iv, idx)).1.2 !! k = iv !! k.
Proof.
  induction chars as [|c0 cs IH]; intros v iv idx k Hk; [done|].
  cbn [fold_left add_char]. simpl in Hk. rewrite IH by lia.
  apply lookup_insert_ne. lia.
Qed.

Lemma from_corpus_vocabSize corpus :
  vocabSize (from_corpus corpus) = 2 + Z.of_nat (length (alphabet corpus)).
Proof.
  rewrite from_corpus_unfold. simpl.
  edestruct add_chars_spec as (Hidx & _); [apply alphabet_NoDup|].
  exact Hidx.
Qed.

(** The [i]-th character of the alphabet has id [2 + i], both ways. *)
Lemma from_corpus_at corpus i ch :
  alphabet corpus !! i = Some ch ->
  vocab (from_corpus corpus) !! ch = Some (2 + Z.of_nat i)
  /\ inverseVocab (from_corpus corpus) !! (2 + Z.of_nat i) = Some ch.
Proof.
  intros Hi. rewrite from_corpus_unfold. simpl.
  by apply add_chars_at; [apply alphabet_NoDup|].
Qed.

(** The ids in use are exactly those from 0 to [vocabSize - 1]. *)
Lemma from_corpus_inverse_domain corpus k :
  is_Some (inverseVocab (from_corpus corpus) !! k)
  <-> 0 <= k < vocabSize (from_corpus corpus).
Proof.
  rewrite from_corpus_vocabSize.
  destruct (from_corpus_reserved corpus) as [H0 H1].
  destruct (decide (k = 0)) as [->|Hk0]; [rewrite H0; split; [lia|eauto]|].
  destruct (decide (k = 1)) as [->|Hk1]; [rewrite H1; split; [lia|eauto]|].
  destruct (decide (2 <= k < 2 + Z.of_nat (length (alphabet corpus))))
    as [Hin|Hout].
  - destruct (lookup_lt_is_Some_2 (alphabet corpus) (Z.to_nat (k - 2)))
      as [ch Hch]; [lia|].
    apply from_corpus_at in Hch as [_ Hinv].
    replace (2 + Z.of_nat (Z.to_nat (k - 2))) with k in Hinv by lia.
    rewrite Hinv. split; [lia|eauto].
  - split; [|lia]. intros [ch Hch]. exfalso.
    rewrite from_corpus_unfold in Hch. simpl in Hch.
    destruct (decide (k < 2)) as [Hlow|Hhigh].
    + edestruct add_chars_spec as (_ & _ & Hl & _); [apply alphabet_NoDup|].
      rewrite Hl in Hch by lia.
      rewrite !lookup_insert_ne, lookup_empty in Hch by lia. done.
    + rewrite add_chars_beyond in Hch by lia.
      rewrite !lookup_insert_ne, lookup_empty in Hch by lia. done.
Qed.

Lemma alphabet_single corpus ch :
  ch ∈ alphabet corpus -> exists c, ch = String c EmptyString.
Proof. rewrite alphabet_elem. apply split_chars_single. Qed.

(** [Js.sort] sorts. *)
Lemma sort_insert_sorted x l :
  Sorted String.le l -> Sorted String.le (Js.sort_insert x l).
Proof.
  induction 1 as [|y l Hs IH Hhd]; simpl; [by repeat constructor|].
  destruct (String.leb x y) eqn:E.
  - constructor; [by constructor|]. constructor. unfold String.le. by rewrite E.
  - assert (String.le y x) as Hyx.
    { unfold String.le.
      destruct (String.leb_total x y) as [H|H]; [congruence|by rewrite H]. }
    constructor; [done|].
    destruct l as [|z l]; simpl; [by constructor|].
    inversion Hhd; subst. destruct (String.leb x z); by constructor.
Qed.

Lemma sort_sorted l : Sorted String.le (Js.sort l).
Proof.
  induction l as [|x l IH]; simpl; [constructor|].
  by apply sort_insert_sorted.
Qed.

Lemma alphabet_sorted corpus : StronglySorted String.le (alphabet corpus).
Proof. apply Sorted_StronglySorted; [apply _|apply sort_sorted]. Qed.

(** Corpora with the same characters have the same alphabet. *)
Lemma alphabet_same_characters c1 c2 :
  (forall ch, ch ∈ Js.split_chars c1 <-> ch ∈ Js.split_chars c2) ->
  alphabet c1 = alphabet c2.
Proof.
  intros Hsame. apply (StronglySorted_unique String.le);
    [apply alphabet_sorted..|].
  apply NoDup_Permutation; [apply alphabet_NoDup..|].
  intros ch. by rewrite !alphabet_elem.
Qed.

End VocabularyFacts.

Lemma StronglySorted_lookup_le {A} (R : relation A) (l : list A) :
  StronglySorted R l ->
  forall i j x y, (i < j)%nat -> l !! i = Some x -> l !! j = Some y -> R x y.
Proof.
  induction 1 as [|z l Hs IH Hall]; intros i j x y Hij Hi Hj; [done|].
  destruct j as [|j]; [lia|]. simpl in Hj. destruct i as [|i]; simpl in Hi.
  - injection Hi as <-. rewrite Forall_forall in Hall. apply Hall.
    by eapply list_elem_of_lookup_2.
  - apply (IH i j); [lia|done|done].
Qed.

(** X1. The vocabulary size of a tokenizer built from a corpus is 2 plus
    the number of distinct characters of the corpus. *)
Theorem vocabSize_counts_distinct_characters (corpus : string) :
  Tokenizer.getVocabSize (Tokenizer.from_corpus corpus)
  = 2 + Z.of_nat (size (list_to_set (Js.split_chars corpus) : gset string)).
Proof.
  unfold Tokenizer.getVocabSize. rewrite from_corpus_vocabSize. do 2 f_equal.
  rewrite <- (size_list_to_set (C:=gset string) (alphabet corpus))
    by apply alphabet_NoDup.
  f_equal. apply set_eq. intros ch.
  by rewrite !elem_of_list_to_set, alphabet_elem.
Qed.

(** X2. [encode] never fails and never yields the padding id: it gives one
    id per character of the text, each from 1 to [vocabSize - 1], whatever
    the text. *)
Theorem encode_ids_in_vocabulary (corpus text : string) :
  let t := Tokenizer.from_corpus corpus in
  length (Tokenizer.encode t text) = String.length text
  /\ Forall (fun id => 1 <= id < Tokenizer.getVocabSize t)
       (Tokenizer.encode t text).
Proof.
  simpl. split; [apply encode_length|].
  unfold Tokenizer.getVocabSize. rewrite from_corpus_vocabSize.
  unfold Tokenizer.encode. apply Forall_forall. intros id Hid.
  apply list_elem_of_In, in_map_iff in Hid as (ch & <- & _).
  destruct (Tokenizer.vocab (Tokenizer.from_corpus corpus) !! ch)
    as [id|] eqn:Hv; simpl; [|lia].
  rewrite from_corpus_unfold in Hv. simpl in Hv.
  destruct (decide (ch ∈ alphabet corpus)) as [Hin|Hout].
  - apply list_elem_of_lookup in Hin as [i Hi].
    assert (i < length (alphabet corpus))%nat by by eapply lookup_lt_Some.
    destruct (add_chars_at (alphabet corpus)
                (<["<UNK>":=1]> (<["<PAD>":=0]> ∅))
                (<[1:="<UNK>"]> (<[0:="<PAD>"]> ∅)) 2 i ch
                (alphabet_NoDup corpus) Hi) as [Hv' _].
    rewrite Hv in Hv'. injection Hv' as ->.
    destruct (Z.eqb_spec (2 + Z.of_nat i) 0); lia.
  - edestruct add_chars_spec as (_ & Hkeep & _); [apply alphabet_NoDup|].
    rewrite (Hkeep _ Hout) in Hv.
    apply lookup_insert_Some in Hv as [[_ <-]|[_ Hv]]; simpl; [lia|].
    apply lookup_insert_Some in Hv as [[_ <-]|[_ Hv]]; simpl; [lia|].
    by rewrite lookup_empty in Hv.
Qed.

Lemma split_chars_cons c rest :
  Js.split_chars (String c EmptyString +:+ rest)
  = String c EmptyString :: Js.split_chars rest.
Proof. reflexivity. Qed.

(** X3. Ids of characters survive decoding and encoding again: for ids
    from 2 to [vocabSize - 1], [encode(decode(ids))] gives the ids back. *)
Theorem encode_decode_character_ids (corpus : string) (ids : list Z) :
  let t := Tokenizer.from_corpus corpus in
  Forall (fun id => 2 <= id < Tokenizer.getVocabSize t) ids ->
  Tokenizer.encode t (Tokenizer.decode t ids) = ids.
Proof.
  simpl. unfold Tokenizer.getVocabSize. rewrite from_corpus_vocabSize.
  induction 1 as [|id ids Hid _ IH]; [done|].
  destruct (lookup_lt_is_Some_2 (alphabet corpus) (Z.to_nat (id - 2)))
    as [ch Hch]; [lia|].
  destruct (alphabet_single corpus ch) as [c ->];
    [by eapply list_elem_of_lookup_2|].
  apply from_corpus_at in Hch as [Hv Hinv].
  replace (2 + Z.of_nat (Z.to_nat (id - 2))) with id in Hv, Hinv by lia.
  unfold Tokenizer.decode, Tokenizer.encode in *. cbn [map Js.join fold_right].
  rewrite Hinv. cbn [Js.or_str].
  rewrite (split_chars_cons c). cbn [map].
  rewrite Hv. cbn [Js.or_num]. destruct (Z.eqb_spec id 0); [lia|].
  f_equal. exact IH.
Qed.

Lemma encode_decode_character_ids_witness :
  Tokenizer.encode (Tokenizer.from_corpus "hello")
    (Tokenizer.decode (Tokenizer.from_corpus "hello") [5; 2; 4; 3]) = [5; 2; 4; 3].
Proof.
  apply (encode_decode_character_ids "hello" [5; 2; 4; 3]).
  apply (bool_decide_unpack _). vm_compute. exact I.
Defined.

Lemma string_app_assoc (a b c : string) :
  (a +:+ b) +:+ c = a +:+ (b +:+ c).
Proof.
  induction a as [|x a IH]; [reflexivity|].
  change (String x ((a +:+ b) +:+ c) = String x (a +:+ (b +:+ c))).
  by rewrite IH.
Qed.

Lemma join_cons x xs : Js.join (x :: xs) = x +:+ Js.join xs.
Proof. reflexivity. Qed.

(** X4. [decode] drops the ids that are not in the vocabulary, silently:
    decoding a list is decoding its ids from 0 to [vocabSize - 1], and
    decoding distributes over concatenation. *)
Theorem decode_drops_unmapped_ids (corpus : string) (ids ids' : list Z) :
  let t := Tokenizer.from_corpus corpus in
  Tokenizer.decode t ids
  = Tokenizer.decode t
      (filter (fun id => 0 <= id < Tokenizer.getVocabSize t) ids)
  /\ Tokenizer.decode t (ids ++ ids')
     = Tokenizer.decode t ids +:+ Tokenizer.decode t ids'.
Proof.
  simpl. split.
  - unfold Tokenizer.decode, Tokenizer.getVocabSize.
    induction ids as [|id ids IH]; [done|].
    rewrite filter_cons. case_decide as Hin.
    + rewrite !map_cons, !join_cons. by rewrite IH.
    + rewrite map_cons, join_cons, IH.
      pose proof (from_corpus_inverse_domain corpus id) as Hdom.
      destruct (Tokenizer.inverseVocab (Tokenizer.from_corpus corpus) !! id)
        eqn:E; [|done].
      destruct Hin. apply Hdom. eauto.
  - unfold Tokenizer.decode. rewrite map_app.
    induction (map _ ids) as [|x xs IH]; [done|].
    rewrite <- app_comm_cons, !join_cons, IH.
    by rewrite string_app_assoc.
Qed.

(** X5. The tokenizer depends on the set of characters of the corpus only:
    two corpora with the same characters, in whatever order and number,
    give the same tokenizer. *)
Theorem tokenizer_depends_on_character_set (corpus corpus' : string) :
  Forall (fun ch => ch ∈ Js.split_chars corpus') (Js.split_chars corpus) ->
  Forall (fun ch => ch ∈ Js.split_chars corpus) (Js.split_chars corpus') ->
  Tokenizer.from_corpus corpus = Tokenizer.from_corpus corpus'.
Proof.
  rewrite !Forall_forall. intros H1 H2.
  rewrite !from_corpus_unfold. cbv zeta.
  rewrite (alphabet_same_characters corpus corpus'); [done|].
  intros ch. split; [apply H1|apply H2].
Qed.

Lemma tokenizer_depends_on_character_set_witness :
  Tokenizer.from_corpus "baobab" = Tokenizer.from_corpus "oba".
Proof.
  apply (tokenizer_depends_on_character_set "baobab" "oba");
    apply (bool_decide_unpack _); vm_compute; exact I.
Defined.

(** X6. The ids follow the order of the characters: for two characters of
    the corpus, the one with the smaller code has the smaller id. *)
Theorem ids_follow_character_order (corpus : string) (a b : string)
  (ida idb : Z) :
  let t := Tokenizer.from_corpus corpus in
  a ∈ Js.split_chars corpus -> b ∈ Js.split_chars corpus ->
  Tokenizer.vocab t !! a = Some ida -> Tokenizer.vocab t !! b = Some idb ->
  (String.leb a b = true <-> ida <= idb).
Proof.
  simpl. intros Ha Hb Hida Hidb.
  apply alphabet_elem, list_elem_of_lookup in Ha as [i Hi].
  apply alphabet_elem, list_elem_of_lookup in Hb as [j Hj].
  destruct (from_corpus_at corpus i a Hi) as [Hva _].
  destruct (from_corpus_at corpus j b Hj) as [Hvb _].
  rewrite Hida in Hva. rewrite Hidb in Hvb.
  injection Hva as ->. injection Hvb as ->.
  pose proof (alphabet_sorted corpus) as Hsorted.
  pose proof (alphabet_NoDup corpus) as Hnd.
  split.
  - intros Hab. destruct (decide (i <= j)%nat) as [|Hgt]; [lia|]. exfalso.
    assert (String.le b a) as Hba
      by (apply (StronglySorted_lookup_le _ _ Hsorted j i); [lia|done|done]).
    assert (a = b) as ->
      by (apply String.leb_antisym; [done|by apply Is_true_true]).
    pose proof (NoDup_lookup _ _ _ _ Hnd Hi Hj). lia.
  - intros Hij. destruct (decide (i = j)) as [->|Hne].
    + rewrite Hi in Hj. injection Hj as ->.
      destruct (String.leb_total b b) as [H|H]; exact H.
    + apply Is_true_true.
      apply (StronglySorted_lookup_le _ _ Hsorted i j); [lia|done|done].
Qed.

Lemma ids_follow_character_order_witness :
  String.leb "e" "l" = true <-> 2 <= 4.
Proof.
  apply (ids_follow_character_order "hello" "e" "l" 2 4).
  - apply (bool_decide_unpack _). vm_compute. exact I.
  - apply (bool_decide_unpack _). vm_compute. exact I.
  - reflexivity.
  - reflexivity.
Defined.

(** ** The sampler: which id it returns *)

Section SamplerRange.

Import Generation.

Lemma rank_insert_perm e l : Tf.rank_insert e l ≡ₚ e :: l.
Proof.
  induction l as [|f l IH]; simpl; [done|].
  destruct (Qle_bool f.1 e.1); [done|]. rewrite IH. apply Permutation_swap.
Qed.

Lemma ranked_perm x : Tf.ranked x ≡ₚ Tf.indexed_from 0 x.
Proof.
  unfold Tf.ranked. induction (Tf.indexed_from 0 x) as [|e l IH]; simpl; [done|].
  by rewrite rank_insert_perm, IH.
Qed.

Lemma indexed_from_length x : forall k, length (Tf.indexed_from k x) = length x.
Proof. induction x as [|v x IH]; intros k; simpl; [done|]. by rewrite IH. Qed.

Lemma ranked_length x : length (Tf.ranked x) = length x.
Proof. by rewrite ranked_perm, indexed_from_length. Qed.

Lemma rank_insert_sorted e l :
  StronglySorted ranks_before l ->
  StronglySorted ranks_before (Tf.rank_insert e l).
Proof.
  induction 1 as [|f l Hs IH Hall]; simpl; [by repeat constructor|].
  destruct (Qle_bool f.1 e.1) eqn:E.
  - apply Qle_bool_iff in E. constructor; [by constructor|].
    constructor; [exact E|].
    eapply Forall_impl; [exact Hall|]. unfold ranks_before. intros g Hg. lra.
  - assert (~ (f.1 <= e.1)%Q) as Hlt
      by (intros H; apply Qle_bool_iff in H; congruence).
    apply Qnot_le_lt in Hlt. constructor; [exact IH|].
    rewrite rank_insert_perm. constructor; [|exact Hall].
    unfold ranks_before. lra.
Qed.

Lemma ranked_sorted x : StronglySorted ranks_before (Tf.ranked x).
Proof.
  unfold Tf.ranked. induction (Tf.indexed_from 0 x) as [|e l IH]; simpl.
  - constructor.
  - by apply rank_insert_sorted.
Qed.

(** An entry of the ranking is an entry of the vector at its position. *)
Lemma ranked_elem x v i :
  (v, i) ∈ Tf.ranked x -> 0 <= i /\ x !! Z.to_nat i = Some v.
Proof.
  rewrite ranked_perm. intros H. apply indexed_from_elem in H as [Hi Hl].
  replace (i - 0) with i in Hl by lia. done.
Qed.

(** Where the scans stop. *)
Lemma scan_topk_bound r probs : forall i acc,
  let selected := scan_topk r probs i acc 0 in
  selected = 0 \/ i <= selected < i + Z.of_nat (length probs).
Proof.
  induction probs as [|p probs IH]; intros i acc; simpl; [by left|].
  destruct (Qle_bool r (acc + p)); [right; lia|].
  destruct (IH (i + 1) (acc + p)%Q) as [H|H]; [by left|right; lia].
Qed.

Lemma scan_full_bound r probs : forall i acc k,
  scan_full r probs i acc = Some k -> i <= k < i + Z.of_nat (length probs).
Proof.
  induction probs as [|p probs IH]; intros i acc k; simpl; [done|].
  destruct (Qle_bool r (acc + p)).
  - intros [= <-]. lia.
  - intros H. apply IH in H. lia.
Qed.

Variable fdiv : Q -> Q -> Q.
Variable softmax : list Q -> list Q.
Hypothesis softmax_length : forall x, length (softmax x) = length x.

(** In the top-k branch the id returned is one of the first [topK] of the
    ranking. *)
Lemma topk_branch_selects logits temperature topK r :
  0 < topK < Z.of_nat (length logits) ->
  let adjusted := Tf.div_scalar fdiv logits (max temperature epsilon) in
  exists (p : nat) v id,
    (p < Z.to_nat topK)%nat
    /\ Tf.ranked adjusted !! p = Some (v, id)
    /\ sampleFromLogits fdiv softmax logits temperature topK r = Some id.
Proof.
  intros Hk adjusted. unfold sampleFromLogits. fold adjusted.
  replace ((0 <? topK) && (topK <? Z.of_nat (length logits))) with true
    by (symmetry; apply andb_true_iff; split; apply Z.ltb_lt; lia).
  unfold Tf.topk.
  set (best := take (Z.to_nat topK) (Tf.ranked adjusted)).
  assert (Hbest : length best = Z.to_nat topK).
  { unfold best. rewrite length_take, ranked_length.
    unfold adjusted, Tf.div_scalar. rewrite length_map. lia. }
  pose proof (scan_topk_bound r (softmax (map fst best)) 0 0%Q) as Hsel.
  simpl in Hsel. rewrite softmax_length, length_map, Hbest in Hsel.
  set (selected := scan_topk r (softmax (map fst best)) 0 0%Q 0) in *.
  assert (Hrange : 0 <= selected < topK) by lia.
  destruct (lookup_lt_is_Some_2 best (Z.to_nat selected)) as [[v id] Hp];
    [lia|].
  exists (Z.to_nat selected), v, id. split_and!; [lia| |].
  - unfold best in Hp. by apply lookup_take_Some in Hp as [Hp _].
  - unfold at_index. destruct (Z.ltb_spec selected 0); [lia|].
    change (map snd best) with (snd <$> best).
    rewrite list_lookup_fmap, Hp. done.
Qed.

End SamplerRange.

Section TopKFacts.

Import Generation.

Lemma filter_none {A} (P : A -> Prop) `{forall x, Decision (P x)} (l : list A) :
  Forall (fun x => ~ P x) l -> filter P l = [].
Proof.
  induction 1 as [|x l Hx _ IH]; [done|]. by rewrite filter_cons_False.
Qed.

(** In a ranking, fewer entries than its position are larger than an
    entry. *)
Lemma ranked_position_bound (l : list (Q * Z)) (p : nat) (e : Q * Z) :
  StronglySorted ranks_before l -> l !! p = Some e ->
  (length (filter (fun f : Q * Z => negb (Qle_bool f.1 e.1)) l) <= p)%nat.
Proof.
  intros Hs Hp. rewrite <- (take_drop p l) at 1. rewrite filter_app, length_app.
  assert (filter (fun f : Q * Z => negb (Qle_bool f.1 e.1)) (drop p l) = [])
    as ->.
  { apply filter_none. apply Forall_forall. intros f Hf HP.
    apply list_elem_of_lookup in Hf as [q Hq]. rewrite lookup_drop in Hq.
    assert (f.1 <= e.1)%Q as Hle.
    { destruct q as [|q].
      - replace (p + 0)%nat with p in Hq by lia. rewrite Hp in Hq.
        injection Hq as <-. lra.
      - apply (StronglySorted_lookup_le _ _ Hs p (p + S q)); [lia|done|done]. }
    apply Qle_bool_iff in Hle. rewrite Hle in HP. done. }
  simpl. pose proof (length_filter (fun f : Q * Z => negb (Qle_bool f.1 e.1))
                       (take p l)) as Hlen.
  rewrite length_take in Hlen. lia.
Qed.

Lemma better_than_indexed x v : forall k,
  better_than x v
  = length (filter (fun f : Q * Z => negb (Qle_bool f.1 v))
              (Tf.indexed_from k x)).
Proof.
  unfold better_than. induction x as [|w x IH]; intros k; [done|].
  cbn [Tf.indexed_from]. rewrite !filter_cons. simpl.
  destruct (Qle_bool w v); simpl; by rewrite (IH (k + 1)).
Qed.

(** A function that keeps what is larger than [v] larger keeps the count
    of it, or raises it. *)
Lemma better_than_fmap (f : Q -> Q) x v :
  (forall u, u ∈ x -> (v < u)%Q -> (f v < f u)%Q) ->
  (better_than x v <= better_than (f <$> x) (f v))%nat.
Proof.
  unfold better_than. induction x as [|w x IH]; intros Hf; [done|].
  rewrite fmap_cons, !filter_cons.
  assert (IH' : (length (filter (fun w => negb (Qle_bool w v)) x)
                 <= length (filter (fun w => negb (Qle_bool w (f v)))
                              (f <$> x)))%nat).
  { apply IH. intros u Hu. apply Hf. by apply elem_of_cons; right. }
  destruct (Qle_bool w v) eqn:E; simpl.
  - destruct (negb (Qle_bool (f w) (f v))); simpl; lia.
  - assert (v < w)%Q as Hlt.
    { apply Qnot_le_lt. intros H. apply Qle_bool_iff in H. congruence. }
    assert (Qle_bool (f w) (f v) = false) as ->.
    { destruct (Qle_bool (f w) (f v)) eqn:E'; [|done].
      apply Qle_bool_iff in E'.
      pose proof (Hf w ltac:(apply elem_of_cons; by left) Hlt). lra. }
    simpl. lia.
Qed.

End TopKFacts.

(** X7. On a non-empty vector of logits the sampler returns a position of
    the vector, for every temperature, every [topK] and every draw: the
    next token is an id of the vocabulary.  ([softmax] keeps the number of
    entries.) *)
Theorem sampled_id_is_a_position
  (fdiv : Q -> Q -> Q) (softmax : list Q -> list Q) (logits : list Q)
  (temperature : Q) (topK : Z) (r : Q) :
  (forall x, length (softmax x) = length x) ->
  logits <> [] ->
  exists id,
    Generation.sampleFromLogits fdiv softmax logits temperature topK r
    = Some id
    /\ 0 <= id < Z.of_nat (length logits).
Proof.
  intros Hsm Hne.
  destruct ((0 <? topK) && (topK <? Z.of_nat (length logits))) eqn:Hk.
  - apply andb_true_iff in Hk as [H1%Z.ltb_lt H2%Z.ltb_lt].
    destruct (topk_branch_selects fdiv softmax Hsm logits temperature topK r)
      as (p & v & id & _ & Hp & ->); [lia|].
    exists id. split; [done|].
    apply list_elem_of_lookup_2, ranked_elem in Hp as [Hid Hl].
    apply lookup_lt_Some in Hl. unfold Tf.div_scalar in Hl.
    rewrite length_map in Hl. lia.
  - unfold Generation.sampleFromLogits. rewrite Hk.
    set (probs := softmax _).
    assert (Hlen : length probs = length logits).
    { unfold probs. rewrite Hsm. unfold Tf.div_scalar. apply length_map. }
    assert (length logits <> 0)%nat by (by destruct logits).
    destruct (Generation.scan_full r probs 0 0%Q) as [k|] eqn:E.
    + exists k. split; [done|]. apply scan_full_bound in E. lia.
    + eexists. split; [done|]. lia.
Qed.

Lemma sampled_id_is_a_position_witness :
  exists id,
    Generation.sampleFromLogits Tf.div32
      (fun x => map (fun _ => (1 # 3)%Q) x)
      [1; 5; 2]%Q (4 # 5)%Q 2 (1 # 2)%Q = Some id
    /\ 0 <= id < 3.
Proof.
  apply (sampled_id_is_a_position Tf.div32
           (fun x => map (fun _ => (1 # 3)%Q) x)
           [1; 5; 2]%Q (4 # 5)%Q 2 (1 # 2)%Q).
  - intros x. apply length_map.
  - discriminate.
Defined.

(** X8. Top-k filtering: with [0 < topK < vocabulary size] the id returned
    is one of the [topK] best after the division by the temperature:
    fewer than [topK] scaled logits are larger than the scaled logit of
    the id returned, for every temperature and every draw.  The same
    holds of the logits themselves when the division keeps the logits
    that are larger than the one returned larger; a division that rounds
    two logits to one float32 need not. *)
Theorem topk_sampling_stays_in_top_k
  (fdiv : Q -> Q -> Q) (softmax : list Q -> list Q) (logits : list Q)
  (temperature : Q) (topK : Z) (r : Q) :
  (forall x, length (softmax x) = length x) ->
  0 < topK < Z.of_nat (length logits) ->
  let c := Generation.max temperature Generation.epsilon in
  let scaled := Tf.div_scalar fdiv logits c in
  exists (id : nat) v,
    Generation.sampleFromLogits fdiv softmax logits temperature topK r
    = Some (Z.of_nat id)
    /\ logits !! id = Some v /\ scaled !! id = Some (fdiv v c)
    /\ (better_than scaled (fdiv v c) < Z.to_nat topK)%nat
    /\ ((forall u, u ∈ logits -> (v < u)%Q -> (fdiv v c < fdiv u c)%Q) ->
        (better_than logits v < Z.to_nat topK)%nat).
Proof.
  intros Hsm Hk c scaled.
  destruct (topk_branch_selects fdiv softmax Hsm logits temperature topK r Hk)
    as (p & v' & id & Hp & Hrank & ->).
  fold c scaled in Hrank.
  pose proof Hrank as Hel.
  apply list_elem_of_lookup_2, ranked_elem in Hel as [Hid Hl].
  pose proof Hl as Hl'. unfold scaled, Tf.div_scalar in Hl'.
  change (map ?f ?l) with (f <$> l) in Hl'. rewrite list_lookup_fmap in Hl'.
  destruct (logits !! Z.to_nat id) as [v|] eqn:Hv; [|done].
  simpl in Hl'. injection Hl' as <-.
  exists (Z.to_nat id), v. replace (Z.of_nat (Z.to_nat id)) with id by lia.
  assert (Hbound : (better_than scaled (fdiv v c) < Z.to_nat topK)%nat).
  { rewrite (better_than_indexed _ _ 0), <- ranked_perm.
    pose proof (ranked_position_bound _ p _ (ranked_sorted _) Hrank) as Hb.
    simpl in Hb. lia. }
  split_and!; [done|done|done|done|].
  intros Hkeeps.
  pose proof (better_than_fmap (fun u => fdiv u c) logits v Hkeeps) as Hle.
  unfold scaled, Tf.div_scalar in Hbound.
  change (map ?f ?l) with (f <$> l) in Hbound. lia.
Qed.

Lemma topk_sampling_stays_in_top_k_witness :
  exists (id : nat) v,
    Generation.sampleFromLogits Tf.div32
      (fun x => map (fun _ => (1 # 2)%Q) x)
      [1; 5; 2; 7]%Q 1%Q 2 (9 # 10)%Q = Some (Z.of_nat id)
    /\ [1; 5; 2; 7]%Q !! id = Some v
    /\ (better_than
          (Tf.div_scalar Tf.div32 [1; 5; 2; 7]%Q
             (Generation.max 1 Generation.epsilon))
          (Tf.div32 v (Generation.max 1 Generation.epsilon)) < 2)%nat.
Proof.
  destruct (topk_sampling_stays_in_top_k Tf.div32
              (fun x => map (fun _ => (1 # 2)%Q) x)
              [1; 5; 2; 7]%Q 1%Q 2 (9 # 10)%Q)
    as (id & v & Hs & Hv & _ & Hb & _).
  - intros x. apply length_map.
  - simpl. lia.
  - exists id, v. split_and!; [exact Hs|exact Hv|exact Hb].
Defined.





(** ** The generation loop *)

Section GenerationFacts.

Import Generation.

Lemma string_app_nil_r (a : string) : a +:+ "" = a.
Proof.
  induction a as [|x a IH]; [reflexivity|].
  change (String x (a +:+ "") = String x a). by rewrite IH.
Qed.

Lemma join_app xs ys : Js.join (xs ++ ys) = Js.join xs +:+ Js.join ys.
Proof.
  induction xs as [|x xs IH]; [reflexivity|].
  rewrite <- app_comm_cons, !join_cons, IH. by rewrite string_app_assoc.
Qed.

(** Clipping to a context of at least one token keeps the last
    [min(length, maxLen)] tokens. *)
Lemma context_window_suffix {A} (tokenIds : list A) (maxLen : Z) :
  1 <= maxLen ->
  let keep := Z.to_nat (Z.min (Z.of_nat (length tokenIds)) maxLen) in
  context_window tokenIds maxLen = drop (length tokenIds - keep) tokenIds
  /\ length (context_window tokenIds maxLen) = keep.
Proof.
  intros Hmax keep. unfold context_window, Js.slice, Js.slice_pos.
  set (len := Z.of_nat (length tokenIds)).
  set (c := Z.min len maxLen).
  assert (0 <= c <= len) by lia.
  destruct (Z.ltb_spec len 0); [lia|]. rewrite (Z.min_l len len) by lia.
  assert ((if - c <? 0 then Z.max (len + - c) 0 else Z.min (- c) len)
          = len - c) as ->.
  { destruct (Z.ltb_spec (- c) 0); lia. }
  replace (Z.to_nat (len - c)) with (length tokenIds - keep)%nat by lia.
  replace (Z.to_nat (len - (len - c))) with keep by lia.
  assert (Hall : take keep (drop (length tokenIds - keep) tokenIds)
                 = drop (length tokenIds - keep) tokenIds).
  { apply take_ge. rewrite length_drop. lia. }
  rewrite Hall. split; [done|]. rewrite length_drop. lia.
Qed.

Variable fdiv : Q -> Q -> Q.
Variable softmax : list Q -> list Q.
Variable forward_ids :
  Transformer.TransformerModel -> Tf.Store -> list (option Z) ->
  Tf.result Transformer.ForwardResult.
Variable random : nat -> Q.

(** The id one iteration samples from the logits the forward pass
    returned. *)
Let sampled (cfg : Types.GenerationConfig) (out : Transformer.ForwardResult)
  (i : nat) : option Z :=
  sampleFromLogits fdiv softmax
    (Transformer.last_token_logits (Transformer.logits out)
       (Z.of_nat (length (nth 0 (Transformer.logits out) []))))
    (Types.temperature cfg) (Types.topK cfg) (random i).

(** What the loop leaves: the ids it appended, each sampled from the
    logits of the context at its step, one string per id, the text when it
    ran to its end, and the reason when it did not. *)
Lemma generate_loop_trace model tokenizer cfg st todo :
  forall i tokenIds resultText steps,
  let maxLen := Types.maxLen (Transformer.config model) in
  let g := generate_loop fdiv softmax forward_ids random model tokenizer cfg
             st todo i tokenIds resultText steps in
  exists new,
    gen_tokenIds g = tokenIds ++ new
    /\ emitted g = steps ++ (decode_next tokenizer <$> new)
    /\ (forall (k : nat) id, new !! k = Some id ->
          exists out,
            forward_ids model st
              (context_window (tokenIds ++ take k new) maxLen) = Tf.Ok out
            /\ nth 0 (Transformer.logits out) [] <> []
            /\ id = sampled cfg out (i + k))
    /\ match gen_result g with
       | Tf.Ok text =>
           text = resultText +:+ Js.join (decode_next tokenizer <$> new)
           /\ length new = todo
       | Tf.Throw msg =>
           (length new < todo)%nat
           /\ (forward_ids model st (context_window (tokenIds ++ new) maxLen)
               = Tf.Throw msg
               \/ exists out,
                    forward_ids model st
                      (context_window (tokenIds ++ new) maxLen) = Tf.Ok out
                    /\ nth 0 (Transformer.logits out) [] = []
                    /\ msg
                       = "slice() does not support negative begin indexing.")
       end.
Proof.
  induction todo as [|todo IH]; intros i tokenIds resultText steps maxLen.
  - exists []. simpl. rewrite !app_nil_r, string_app_nil_r.
    split_and!; done.
  - cbn [generate_loop]. cbv zeta. fold maxLen.
    destruct (forward_ids model st (context_window tokenIds maxLen))
      as [out|msg] eqn:Hfw.
    + destruct (Z.ltb_spec
                  (Z.of_nat (length (nth 0 (Transformer.logits out) [])) - 1)
                  0) as [Hrow|Hrow].
      * exists []. simpl. rewrite !app_nil_r.
        split; [done|]. split; [done|]. split.
        -- intros k id Hk. by destruct k.
        -- split; [lia|]. right. exists out. split_and!; [done| |done].
           destruct (nth 0 (Transformer.logits out) []); [done|].
           simpl in Hrow. lia.
      * fold (sampled cfg out i).
        destruct (IH (S i) (tokenIds ++ [sampled cfg out i])
                    (resultText +:+ decode_next tokenizer (sampled cfg out i))
                    (steps ++ [decode_next tokenizer (sampled cfg out i)]))
          as (new & Hids & Hem & Hnew & Hres).
        fold maxLen in Hnew, Hres.
        exists (sampled cfg out i :: new). rewrite Hids, Hem, <- !app_assoc.
        split; [done|]. split; [done|]. split.
        -- intros [|k] id Hk.
           ++ injection Hk as <-. exists out. simpl take.
              rewrite app_nil_r, Nat.add_0_r. split_and!; [done| |done].
              intros Hnil. rewrite Hnil in Hrow. simpl in Hrow. lia.
           ++ simpl in Hk. destruct (Hnew k id Hk) as (out' & H1 & H2 & H3).
              exists out'. simpl take.
              rewrite <- app_assoc in H1. simpl in H1.
              replace (i + S k)%nat with (S i + k)%nat by lia. done.
        -- destruct (gen_result _) as [text|msg].
           ++ destruct Hres as [-> <-]. split; [|done].
              rewrite fmap_cons, join_cons. by rewrite string_app_assoc.
           ++ destruct Hres as [Hlen Hwhy]. split; [simpl; lia|].
              rewrite <- app_assoc in Hwhy. exact Hwhy.
    + exists []. simpl. rewrite !app_nil_r.
      split; [done|]. split; [done|]. split.
      * intros k id Hk. by destruct k.
      * split; [lia|]. by left.
Qed.

(** The loop runs to its end when the forward pass returns logits for
    every context of 1 to [maxLen] tokens. *)
Lemma generate_loop_returns model tokenizer cfg st todo :
  1 <= Types.maxLen (Transformer.config model) ->
  (forall ctx : list (option Z),
     1 <= Z.of_nat (length ctx) <= Types.maxLen (Transformer.config model) ->
     exists out, forward_ids model st ctx = Tf.Ok out
                 /\ nth 0 (Transformer.logits out) [] <> []) ->
  forall i tokenIds resultText steps,
  tokenIds <> [] ->
  exists text,
    gen_result (generate_loop fdiv softmax forward_ids random model tokenizer
                  cfg st todo i tokenIds resultText steps) = Tf.Ok text.
Proof.
  intros Hmax Hfw.
  induction todo as [|todo IH]; intros i tokenIds resultText steps Hne.
  - eexists. reflexivity.
  - cbn [generate_loop]. cbv zeta.
    destruct (context_window_suffix tokenIds _ Hmax) as [_ Hlen].
    destruct (Hfw (context_window tokenIds
                     (Types.maxLen (Transformer.config model))))
      as (out & -> & Hrow).
    { rewrite Hlen. destruct tokenIds; [done|]. simpl length. lia. }
    destruct (Z.ltb_spec
                (Z.of_nat (length (nth 0 (Transformer.logits out) [])) - 1) 0)
      as [Hlt|_].
    { destruct (nth 0 (Transformer.logits out) []); [done|].
      simpl in Hlt. lia. }
    apply IH. by destruct tokenIds.
Qed.

End GenerationFacts.

(** X10. [generateText] starts from the ids of the prompt (from the id of
    [<UNK>], or 1, for a prompt that encodes to nothing) and appends one id
    per step: the [k]-th is what [sampleFromLogits] returns, with the
    [k]-th random draw, on the last row of the logits the forward pass
    gives for the context of that step, the last [maxLen] ids of the
    sequence so far.  Each id is decoded to the string passed to
    [onStep]; when the function returns, it returns the concatenation of
    those strings after exactly [maxNewTokens] steps.  It rejects after
    fewer steps, with the exception of the forward pass, or with that of
    [logits.slice] when the logits have no row. *)
Theorem generateText_emits_what_it_returns
  (fdiv : Q -> Q -> Q) (softmax : list Q -> list Q)
  (forward_ids : Transformer.TransformerModel -> Tf.Store ->
                 list (option Z) -> Tf.result Transformer.ForwardResult)
  (random : nat -> Q)
  (model : Transformer.TransformerModel)
  (tokenizer : Tokenizer.SimpleTokenizer) (prompt : string)
  (cfg : Types.GenerationConfig) (st : Tf.Store) :
  let g := Generation.generateText fdiv softmax forward_ids random model
             tokenizer prompt cfg st in
  let steps := Z.to_nat (Types.maxNewTokens cfg) in
  let maxLen := Types.maxLen (Transformer.config model) in
  let start :=
    match Tokenizer.encode tokenizer prompt with
    | [] => [Some (Js.or_num (Tokenizer.vocab tokenizer !! "<UNK>") 1)]
    | ids => Some <$> ids
    end in
  exists new,
    start <> []
    /\ Generation.gen_tokenIds g = start ++ new
    /\ Generation.emitted g = Generation.decode_next tokenizer <$> new
    /\ (forall (k : nat) id, new !! k = Some id ->
          exists out,
            forward_ids model st
              (Generation.context_window (start ++ take k new) maxLen)
            = Tf.Ok out
            /\ nth 0 (Transformer.logits out) [] <> []
            /\ id = Generation.sampleFromLogits fdiv softmax
                      (Transformer.last_token_logits (Transformer.logits out)
                         (Z.of_nat
                            (length (nth 0 (Transformer.logits out) []))))
                      (Types.temperature cfg) (Types.topK cfg) (random k))
    /\ match Generation.gen_result g with
       | Tf.Ok text =>
           text = Js.join (Generation.emitted g) /\ length new = steps
       | Tf.Throw msg =>
           (length new < steps)%nat
           /\ (forward_ids model st
                 (Generation.context_window (start ++ new) maxLen)
               = Tf.Throw msg
               \/ exists out,
                    forward_ids model st
                      (Generation.context_window (start ++ new) maxLen)
                    = Tf.Ok out
                    /\ nth 0 (Transformer.logits out) [] = []
                    /\ msg
                       = "slice() does not support negative begin indexing.")
       end.
Proof.
  intros g steps maxLen start. subst g. unfold Generation.generateText.
  cbv zeta. fold steps.
  assert (Hstart :
    Some <$> (if Z.of_nat (length (Tokenizer.encode tokenizer prompt)) =? 0
              then [Js.or_num (Tokenizer.vocab tokenizer !! "<UNK>") 1]
              else Tokenizer.encode tokenizer prompt) = start).
  { unfold start. by destruct (Tokenizer.encode tokenizer prompt). }
  rewrite Hstart.
  destruct (generate_loop_trace fdiv softmax forward_ids random model
              tokenizer cfg st steps 0%nat start "" [])
    as (new & Hids & Hem & Hnew & Hres).
  fold maxLen in Hnew, Hres.
  exists new. split; [|split; [done|split; [done|split; [exact Hnew|]]]].
  - unfold start. by destruct (Tokenizer.encode tokenizer prompt).
  - revert Hres. rewrite Hem.
    destruct (Generation.gen_result _); [|done].
    intros [-> <-]. split; [|done]. reflexivity.
Qed.

(** X11. [generateText] never hands the model an empty context or one
    longer than [maxLen]: if the forward pass returns logits, with a row
    to sample from, for every context of 1 to [maxLen] tokens, the
    generation returns, for every prompt, the empty one included, and
    every temperature and [topK]. *)
Theorem generateText_contexts_fit_the_model
  (fdiv : Q -> Q -> Q) (softmax : list Q -> list Q)
  (forward_ids : Transformer.TransformerModel -> Tf.Store ->
                 list (option Z) -> Tf.result Transformer.ForwardResult)
  (random : nat -> Q)
  (model : Transformer.TransformerModel)
  (tokenizer : Tokenizer.SimpleTokenizer) (prompt : string)
  (cfg : Types.GenerationConfig) (st : Tf.Store) :
  1 <= Types.maxLen (Transformer.config model) ->
  (forall ctx : list (option Z),
     1 <= Z.of_nat (length ctx) <= Types.maxLen (Transformer.config model) ->
     exists out, forward_ids model st ctx = Tf.Ok out
                 /\ nth 0 (Transformer.logits out) [] <> []) ->
  exists text,
    Generation.gen_result
      (Generation.generateText fdiv softmax forward_ids random model tokenizer
         prompt cfg st) = Tf.Ok text.
Proof.
  intros Hmax Hfw. unfold Generation.generateText.
  apply generate_loop_returns; [done|done|].
  destruct (Z.eqb_spec (Z.of_nat (length (Tokenizer.encode tokenizer prompt))) 0)
    as [|Hn]; [done|].
  destruct (Tokenizer.encode tokenizer prompt); [simpl in Hn; lia|done].
Qed.

Lemma generateText_contexts_fit_the_model_witness :
  exists text,
    Generation.gen_result
      (Generation.generateText Tf.div32 (fun x => x)
         (fun m _ ctx =>
            if (1 <=? Z.of_nat (length ctx))
               && (Z.of_nat (length ctx)
                   <=? Types.maxLen (Transformer.config m))
            then Tf.Ok (Transformer.mkForwardResult
                          [(fun _ => [0; 1; 0]%Q) <$> ctx] None)
            else Tf.Throw "shape mismatch")
         (fun _ => 1 # 2) Sample.model (Tokenizer.from_corpus "ab") ""
         (Types.mkGenerationConfig 12 1 0) Sample.store) = Tf.Ok text.
Proof.
  apply generateText_contexts_fit_the_model.
  - vm_compute. discriminate.
  - intros ctx [Hlo Hhi]. pose proof Hlo as Hlo'.
    apply Z.leb_le in Hlo, Hhi.
    rewrite Hlo, Hhi. eexists. split; [reflexivity|].
    destruct ctx; [simpl in Hlo'; lia|done].
Defined.

(** X12. The context [generateText] cuts for the model is a tail of the
    token sequence: its last [maxLen] tokens for a positive [maxLen] (all
    of them when there are fewer).  For [maxLen <= 0] the cut is
    [slice(-contextLen)] with a [contextLen] that is not positive, which
    drops the first [-maxLen] tokens instead: a [maxLen] of 0 keeps the
    whole sequence. *)
Theorem context_window_keeps_the_tail {A} (tokenIds : list A) (maxLen : Z) :
  Generation.context_window tokenIds maxLen
  = if 0 <? maxLen
    then drop (length tokenIds - Z.to_nat maxLen) tokenIds
    else drop (Z.to_nat (- maxLen)) tokenIds.
Proof.
  destruct (Z.ltb_spec 0 maxLen) as [Hpos|Hneg].
  - destruct (context_window_suffix tokenIds maxLen) as [-> _]; [lia|].
    f_equal. lia.
  - unfold Generation.context_window, Js.slice, Js.slice_pos.
    set (len := Z.of_nat (length tokenIds)).
    assert (Z.min len maxLen = maxLen) as -> by lia.
    destruct (Z.ltb_spec len 0); [lia|]. rewrite (Z.min_l len len) by lia.
    destruct (Z.ltb_spec (- maxLen) 0); [lia|].
    destruct (Z.le_gt_cases (- maxLen) len) as [Hin|Hout].
    + rewrite (Z.min_l (- maxLen) len) by lia.
      apply take_ge. rewrite length_drop. unfold len. lia.
    + rewrite (Z.min_r (- maxLen) len) by lia.
      rewrite Z.sub_diag. unfold len in *. simpl.
      rewrite (drop_ge tokenIds (Z.to_nat (- maxLen))) by lia. done.
Qed.

(** ** The look-ahead mask *)

Section MaskFacts.

Import TfUtils.

Variable size : Z.
Hypothesis size_nonneg : 0 <= size.

(** The inner loop writes the columns from [j] on of row [i], and nothing
    else. *)
Lemma mask_columns_spec i : 0 <= i ->
  forall todo j values,
  0 <= j ->
  i * size + j + Z.of_nat todo <= Z.of_nat (length values) ->
  let r := mask_columns size i todo j values in
  length r = length values
  /\ forall k : nat,
       r !! k
       = if decide (i * size + j <= Z.of_nat k
                    < i * size + j + Z.of_nat todo)
         then Some (if i <? Z.of_nat k - i * size then 1%Q else 0%Q)
         else values !! k.
Proof.
  intros Hi. induction todo as [|todo IH]; intros j values Hj Hlen.
  - simpl. split; [done|]. intros k. case_decide; [lia|done].
  - cbn [mask_columns]. cbv zeta.
    assert ((if i <? j then buffer_set values size 1%Q i j
             else buffer_set values size 0%Q i j)
            = <[Z.to_nat (i * size + j) := if i <? j then 1%Q else 0%Q]>
                values) as ->.
    { unfold buffer_set. by destruct (i <? j). }
    assert (0 <= i * size) by nia.
    destruct (IH (j + 1) (<[Z.to_nat (i * size + j) :=
                              if i <? j then 1%Q else 0%Q]> values))
      as [Hl Hk]; [lia|rewrite length_insert; lia|].
    rewrite Hl, length_insert. split; [done|]. intros k. rewrite Hk.
    repeat case_decide; try lia; try done.
    + assert (k = Z.to_nat (i * size + j)) as -> by lia.
      rewrite list_lookup_insert_eq by lia.
      replace (Z.of_nat (Z.to_nat (i * size + j)) - i * size) with j by lia.
      done.
    + rewrite list_lookup_insert_ne by lia. done.
Qed.

(** The outer loop writes the rows from [i] on, and nothing else. *)
Lemma mask_rows_spec : forall todo i values,
  0 <= i -> i + Z.of_nat todo <= size ->
  Z.of_nat (length values) = size * size ->
  let r := mask_rows size todo i values in
  length r = length values
  /\ forall i' j', 0 <= i' < size -> 0 <= j' < size ->
       r !! Z.to_nat (i' * size + j')
       = if decide (i <= i' < i + Z.of_nat todo)
         then Some (if i' <? j' then 1%Q else 0%Q)
         else values !! Z.to_nat (i' * size + j').
Proof.
  induction todo as [|todo IH]; intros i values Hi Hend Hlen.
  - simpl. split; [done|]. intros i' j' _ _. case_decide; [lia|done].
  - cbn [mask_rows].
    destruct (mask_columns_spec i Hi (Z.to_nat size) 0 values) as [Hl Hk];
      [lia|nia|].
    destruct (IH (i + 1) (mask_columns size i (Z.to_nat size) 0 values))
      as [Hl' Hk']; [lia|lia|by rewrite Hl|].
    rewrite Hl', Hl. split; [done|]. intros i' j' Hi' Hj'.
    rewrite Hk' by done. rewrite Hk.
    assert (0 <= i' * size) by nia.
    destruct (decide (i' = i)) as [->|Hne].
    + repeat case_decide; try lia.
      replace (Z.of_nat (Z.to_nat (i * size + j')) - i * size) with j'
        by lia.
      done.
    + assert (i' * size + j' < i * size \/ i * size + size <= i' * size + j')
        by nia.
      repeat case_decide; try lia; done.
Qed.

End MaskFacts.

(** X13. [createLookAheadMask(size)] is the [size] by [size] matrix with 1
    strictly above the diagonal and 0 on and below it: the entry of row
    [i] and column [j] is 1 exactly when [j > i], so a position is masked
    from every later one and from no other. *)
Theorem look_ahead_mask_is_strictly_upper (size i j : Z) :
  0 <= i < size -> 0 <= j < size ->
  let mask := TfUtils.createLookAheadMask size in
  Tf.shape mask = [size; size]
  /\ Z.of_nat (length (Tf.values mask)) = size * size
  /\ Tf.values mask !! Z.to_nat (i * size + j)
     = Some (if i <? j then 1%Q else 0%Q).
Proof.
  intros Hi Hj mask. unfold mask, TfUtils.createLookAheadMask.
  cbn [Tf.shape Tf.values]. cbv zeta.
  assert (Hsz : Tf.size [size; size] = size * size).
  { unfold Tf.size. simpl. lia. }
  rewrite Hsz.
  destruct (mask_rows_spec size ltac:(lia) (Z.to_nat size) 0
              (repeat 0%Q (Z.to_nat (size * size))))
    as [Hl Hk]; [lia|lia|rewrite repeat_length; nia|].
  split; [done|]. split.
  - rewrite Hl, repeat_length. nia.
  - rewrite Hk by done. case_decide; [done|lia].
Qed.

Lemma look_ahead_mask_is_strictly_upper_witness :
  Tf.shape (TfUtils.createLookAheadMask 3) = [3; 3]
  /\ Z.of_nat (length (Tf.values (TfUtils.createLookAheadMask 3))) = 3 * 3
  /\ Tf.values (TfUtils.createLookAheadMask 3) !! Z.to_nat (1 * 3 + 2)
     = Some (if 1 <? 2 then 1%Q else 0%Q).
Proof. apply (look_ahead_mask_is_strictly_upper 3 1 2); lia. Defined.

(** ** The presets of the application *)

(** X14. Every preset of the application gives a configuration the model
    can be built from, for the vocabulary of any corpus: the constructor
    returns, having created [2 + 10 * numLayers] variables; the model
    dimension is a multiple of the number of heads, so the depth of every
    attention layer times the number of heads is the model dimension; and
    the feed-forward width is four times the model dimension. *)
Theorem preset_models_are_constructed
  (randomNormal : nat -> list Z -> list Q) (size : ModelConfigPresets.ModelSize)
  (corpus : string) (st : Tf.Store) :
  let cfg := ModelConfigPresets.buildModelConfig size
               (Tokenizer.getVocabSize (Tokenizer.from_corpus corpus)) in
  exists m st',
    Transformer.TransformerModel_new randomNormal cfg st = (Tf.Ok m, st')
    /\ Transformer.config m = cfg
    /\ length st' = (length st + 2 + 10 * Z.to_nat (Types.numLayers cfg))%nat
    /\ Forall (fun b => exists depth,
                 Layers.depth (Transformer.mha b) = Some depth
                 /\ depth * Types.numHeads cfg = Types.dModel cfg)
         (Transformer.encoderBlocks m)
    /\ Types.dff cfg = 4 * Types.dModel cfg
    /\ Types.vocabSize cfg
       = Tokenizer.getVocabSize (Tokenizer.from_corpus corpus).
Proof.
  intros cfg.
  assert (Hv : 0 <= Types.vocabSize cfg).
  { unfold cfg, ModelConfigPresets.buildModelConfig. cbn [Types.vocabSize].
    unfold Tokenizer.getVocabSize. rewrite from_corpus_vocabSize. lia. }
  assert (Hd : 0 <= Types.dModel cfg) by (destruct size; simpl; lia).
  assert (Hf : 0 <= Types.dff cfg) by (destruct size; simpl; lia).
  destruct (allocates_TransformerModel randomNormal cfg Hv Hd Hf st)
    as (m & st' & E & Hlen & Hcfg & _ & Hdepth & _).
  exists m, st'. split_and!; [done|done|lia| |by destruct size|done].
  eapply Forall_impl; [exact Hdepth|]. intros b Hb. unfold floored_depth in Hb.
  rewrite Hb. destruct size; vm_compute; eexists; split; reflexivity.
Qed.

(** ** The training loop *)

Section BatchFacts.

Import Training.

(** The raw windows, as functions of their start position. *)
Lemma windows_as_maps ids L :
  0 <= L ->
  let w := windows_from ids L 0 ([], []) in
  let raw := Z.to_nat (Z.of_nat (length ids) - L) in
  w.1 = (fun i => take (Z.to_nat L) (drop (i + 0) ids)) <$> seq 0 raw
  /\ w.2 = (fun i => take (Z.to_nat L) (drop (i + 1) ids)) <$> seq 0 raw.
Proof.
  intros HL w raw.
  destruct (raw_windows ids L HL) as (L1 & L2 & Hat & _).
  fold w raw in L1, L2, Hat.
  split; apply list_eq; intros i; rewrite list_lookup_fmap;
    destruct (decide (i < raw)%nat) as [Hi|Hi].
  - destruct (Hat i Hi) as [-> _]. rewrite lookup_seq_lt by done.
    simpl. by rewrite Nat.add_0_r.
  - rewrite !lookup_ge_None_2; [done|rewrite length_seq; lia|lia].
  - destruct (Hat i Hi) as [_ ->]. rewrite lookup_seq_lt by done.
    simpl. by replace (i + 1)%nat with (S i) by lia.
  - rewrite !lookup_ge_None_2; [done|rewrite length_seq; lia|lia].
Qed.

(** The dataset [buildDataset] returns, sample by sample. *)
Lemma dataset_rows text tokenizer L B ds :
  0 <= L -> 0 < B ->
  buildDataset text tokenizer L B = Tf.Ok ds ->
  let ids := Tokenizer.encode tokenizer text in
  let steps := (Z.of_nat (String.length text) - L) / B in
  let n := Z.to_nat (steps * B) in
  ds = mkDataset
         (Tf.mkIntMatrix
            ((fun i => take (Z.to_nat L) (drop (i + 0) ids)) <$> seq 0 n)
            (steps * B, L))
         (Tf.mkIntMatrix
            ((fun i => take (Z.to_nat L) (drop (i + 1) ids)) <$> seq 0 n)
            (steps * B, L))
  /\ 0 < steps
  /\ steps * B + L <= Z.of_nat (length ids).
Proof.
  intros HL HB Hds ids steps n.
  rewrite (buildDataset_outcome text tokenizer L B HL HB) in Hds.
  set (C := Z.of_nat (String.length text)) in *.
  assert (Hpos : 0 < C - L).
  { destruct (Z.lt_ge_cases 0 (C - L)) as [|Hle]; [done|].
    rewrite (Z.max_l 0 (C - L)) in Hds by lia.
    rewrite Z.div_0_l in Hds by lia. rewrite decide_True in Hds by lia.
    discriminate. }
  rewrite (Z.max_r 0 (C - L)) in Hds by lia. fold steps in Hds.
  case_decide as Hn; [discriminate|].
  assert (0 <= steps) by (apply Z.div_pos; lia).
  assert (steps * B <= C - L).
  { rewrite Z.mul_comm. apply Z.mul_div_le. lia. }
  assert (Hlen : Z.of_nat (length ids) = C).
  { unfold ids. by rewrite encode_length. }
  destruct (windows_as_maps ids L HL) as [H1 H2].
  injection Hds as <-. fold ids. rewrite H1, H2.
  rewrite <- !fmap_take, !take_seq.
  rewrite Nat.min_l by lia. fold n.
  split_and!; [done|nia|lia].
Qed.

(** The batch [slice] cuts at a step is the batch of the windows of that
    step. *)
Lemma slice_rows_batch ids L B shift (n k : nat) :
  0 <= L -> 0 < B ->
  Z.of_nat (S k) * B <= Z.of_nat n ->
  slice_rows
    (Tf.mkIntMatrix
       ((fun i => take (Z.to_nat L) (drop (i + shift) ids)) <$> seq 0 n)
       (Z.of_nat n, L))
    (Z.of_nat k * B) B L
  = batch_of ids L B shift (k * Z.to_nat B).
Proof.
  intros HL HB Hk. unfold slice_rows, batch_of. cbn [Tf.rows].
  f_equal. rewrite <- fmap_drop, <- fmap_take, drop_seq, take_seq.
  change (map ?f ?l) with (f <$> l). rewrite <- list_fmap_compose.
  replace (Z.to_nat (Z.of_nat k * B)) with (k * Z.to_nat B)%nat by nia.
  rewrite Nat.min_l by nia. simpl.
  apply list_fmap_ext. intros _ i _. simpl. apply take_idemp.
Qed.

End BatchFacts.

Section StepsFacts.

Context {Optimizer : Type}.
Variable step :
  Tf.IntMatrix -> Tf.IntMatrix -> Tf.Store -> Optimizer ->
  Tf.result (Tf.Store * Optimizer * Q).

(** Steps on batches put one after the other. *)
Lemma steps_over_app b1 b2 st opt :
  steps_over step (b1 ++ b2) st opt
  = match steps_over step b1 st opt with
    | (st', opt', l1, None) =>
        let '(st'', opt'', l2, thrown) := steps_over step b2 st' opt' in
        (st'', opt'', l1 ++ l2, thrown)
    | r => r
    end.
Proof.
  revert st opt. induction b1 as [|[x y] b1 IH]; intros st opt.
  - simpl. by destruct (steps_over step b2 st opt) as [[[? ?] ?] ?].
  - cbn [app steps_over].
    destruct (step x y st opt) as [[[st1 opt1] loss]|msg]; [|done].
    rewrite IH.
    destruct (steps_over step b1 st1 opt1) as [[[st2 opt2] l1] [msg|]];
      [done|].
    by destruct (steps_over step b2 st2 opt2) as [[[? ?] ?] ?].
Qed.

(** One loss per step that returned. *)
Lemma steps_over_length b st opt st' opt' losses thrown :
  steps_over step b st opt = (st', opt', losses, thrown) ->
  match thrown with
  | None => length losses = length b
  | Some _ => (length losses < length b)%nat
  end.
Proof.
  revert st opt losses.
  induction b as [|[x y] b IH]; intros st opt losses Hover.
  - simpl in Hover. by injection Hover as <- <- <- <-.
  - cbn [steps_over] in Hover.
    destruct (step x y st opt) as [[[st1 opt1] loss]|msg].
    + destruct (steps_over step b st1 opt1) as [[[st2 opt2] l2] t2] eqn:E.
      injection Hover as <- <- <- <-.
      pose proof (IH _ _ _ E) as Hl. destruct t2; simpl; lia.
    + injection Hover as <- <- <- <-. simpl. lia.
Qed.

(** When a step throws, the steps before it have returned, and what they
    left is what the run leaves. *)
Lemma steps_over_thrown b st opt st' opt' losses msg :
  steps_over step b st opt = (st', opt', losses, Some msg) ->
  exists x y,
    b !! length losses = Some (x, y)
    /\ steps_over step (take (length losses) b) st opt
       = (st', opt', losses, None)
    /\ step x y st' opt' = Tf.Throw msg.
Proof.
  revert st opt losses.
  induction b as [|[x y] b IH]; intros st opt losses Hover.
  - simpl in Hover. discriminate.
  - cbn [steps_over] in Hover.
    destruct (step x y st opt) as [[[st1 opt1] loss]|msg'] eqn:Hstep.
    + destruct (steps_over step b st1 opt1) as [[[st2 opt2] l2] t2] eqn:E.
      injection Hover as <- <- <- ->.
      destruct (IH _ _ _ E) as (x' & y' & Hat & Hbefore & Hthrow).
      exists x', y'. split; [done|]. split; [|done].
      cbn [length take steps_over]. by rewrite Hstep, Hbefore.
    + injection Hover as <- <- <- <-. exists x, y. done.
Qed.

End StepsFacts.

Section TrainingFacts.

Import Training.

Variable Optimizer : Type.
Variable adam : Q -> Optimizer.
Variable optimization_step :
  Transformer.TransformerModel -> Tf.IntMatrix -> Tf.IntMatrix ->
  Tf.Store -> Optimizer -> Tf.result (Tf.Store * Optimizer * Q).
Variable toFixed4 : Q -> string.

Variable model : Transformer.TransformerModel.
Variable cfg : Types.TrainingConfig.
Variable ids : list Z.
Variable steps : Z.

Let L := Types.seqLen cfg.
Let B := Types.batchSize cfg.
Let n := Z.to_nat (steps * B).

Let ds :=
  mkDataset
    (Tf.mkIntMatrix
       ((fun i => take (Z.to_nat L) (drop (i + 0) ids)) <$> seq 0 n)
       (steps * B, L))
    (Tf.mkIntMatrix
       ((fun i => take (Z.to_nat L) (drop (i + 1) ids)) <$> seq 0 n)
       (steps * B, L)).

Hypothesis L_nonneg : 0 <= L.
Hypothesis B_pos : 0 < B.
Hypothesis steps_nonneg : 0 <= steps.

(** What the step does on the batch of the [k]-th step of an epoch. *)
Let step_on (k : nat) :=
  optimization_step model (batch_of ids L B 0 (k * Z.to_nat B))
    (batch_of ids L B 1 (k * Z.to_nat B)).

Lemma run_steps_unfold (k : nat) todo s :
  Z.of_nat k < steps ->
  run_steps Optimizer optimization_step model cfg ds (S todo) (Z.of_nat k) s
  = match step_on k (ls_store Optimizer s) (ls_optimizer Optimizer s) with
    | Tf.Throw msg => (s, Tf.Throw msg)
    | Tf.Ok (st', opt', lossVal) =>
        run_steps Optimizer optimization_step model cfg ds todo
          (Z.of_nat (S k))
          (mkLoopState Optimizer st' opt'
             (totalLoss Optimizer s + lossVal)%Q)
    end.
Proof.
  intros Hk. cbn [run_steps]. cbv zeta. unfold step_on, ds.
  cbn [inputs targets]. fold L B.
  assert (Hn : Z.of_nat n = steps * B) by (unfold n; nia).
  rewrite <- Hn.
  rewrite !(slice_rows_batch ids L B _ n k) by (try done; nia).
  replace (Z.of_nat k + 1) with (Z.of_nat (S k)) by lia. done.
Qed.

(** The steps left of an epoch are steps made in turn on its batches. *)
Lemma run_steps_over todo :
  forall (k : nat) s st' opt' losses thrown,
  Z.of_nat (k + todo) <= steps ->
  steps_over (optimization_step model)
    ((fun k => (batch_of ids L B 0 (k * Z.to_nat B),
                batch_of ids L B 1 (k * Z.to_nat B))) <$> seq k todo)
    (ls_store Optimizer s) (ls_optimizer Optimizer s)
  = (st', opt', losses, thrown) ->
  run_steps Optimizer optimization_step model cfg ds todo (Z.of_nat k) s
  = (mkLoopState Optimizer st' opt'
       (fold_left Qplus losses (totalLoss Optimizer s)),
     thrown_result thrown).
Proof.
  induction todo as [|todo IH]; intros k s st' opt' losses thrown Hk Hover.
  - simpl in Hover. injection Hover as <- <- <- <-. by destruct s.
  - rewrite run_steps_unfold by lia. unfold step_on.
    cbn [seq fmap list_fmap steps_over] in Hover.
    destruct (optimization_step model _ _ _ _) as [[[st1 opt1] loss]|msg].
    + destruct (steps_over _ _ st1 opt1) as [[[st2 opt2] l2] t2] eqn:E.
      injection Hover as <- <- <- <-.
      rewrite (IH (S k) (mkLoopState Optimizer st1 opt1
                           (totalLoss Optimizer s + loss)%Q)
                 st2 opt2 l2 t2); [done|lia|exact E].
    + injection Hover as <- <- <- <-. by destruct s.
Qed.

(** The epochs are steps made in turn on the batches of one epoch after
    those of the other; each epoch that ran to its end logs the average
    of its losses. *)
Lemma run_epochs_over todo :
  forall (i : nat) st opt log st' opt' losses thrown,
  steps_over (optimization_step model)
    (concat (replicate todo (epoch_batches ids L B (Z.to_nat steps)))) st opt
  = (st', opt', losses, thrown) ->
  exists chunks rest,
    losses = concat chunks ++ rest
    /\ Forall (fun c => length c = Z.to_nat steps) chunks
    /\ match thrown with
       | None => rest = [] /\ length chunks = todo
       | Some _ =>
           (length rest < Z.to_nat steps)%nat /\ (length chunks < todo)%nat
       end
    /\ run_epochs Optimizer optimization_step toFixed4 model cfg ds steps
         todo (Z.of_nat i + 1) st opt log
       = mkOutcome st'
           (log ++ imap (fun j c => epoch_line toFixed4 cfg (i + j)
                                      (average_loss c steps)) chunks)
           (thrown_result thrown).
Proof.
  induction todo as [|todo IH];
    intros i st opt log st' opt' losses thrown Hover.
  - simpl in Hover. injection Hover as <- <- <- <-.
    exists [], []. simpl. by rewrite app_nil_r.
  - cbn [replicate concat] in Hover. rewrite steps_over_app in Hover.
    cbn [run_epochs].
    destruct (steps_over (optimization_step model)
                (epoch_batches ids L B (Z.to_nat steps)) st opt)
      as [[[st1 opt1] l1] t1] eqn:E1.
    pose proof (steps_over_length _ _ _ _ _ _ _ _ E1) as Hl1.
    unfold epoch_batches in E1, Hl1. rewrite length_fmap, length_seq in Hl1.
    pose proof (run_steps_over (Z.to_nat steps) 0
                  (mkLoopState Optimizer st opt 0%Q) st1 opt1 l1 t1
                  ltac:(lia) E1) as Hrun.
    change (Z.of_nat 0) with 0 in Hrun. rewrite Hrun.
    cbn [totalLoss ls_store ls_optimizer].
    destruct t1 as [msg|].
    + injection Hover as <- <- <- <-.
      exists [], l1. simpl. rewrite app_nil_r.
      split_and!; [done|done|lia|lia|done].
    + cbn [thrown_result]. cbv zeta.
      destruct (steps_over (optimization_step model)
                  (concat (replicate todo
                             (epoch_batches ids L B (Z.to_nat steps))))
                  st1 opt1) as [[[st2 opt2] l2] t2] eqn:E2.
      injection Hover as <- <- <- <-.
      replace (Z.of_nat i + 1 + 1) with (Z.of_nat (S i) + 1) by lia.
      destruct (IH (S i) st1 opt1
                  (log ++ ["Epoch " +:+ pretty (Z.of_nat i + 1) +:+ "/"
                           +:+ pretty (Types.epochs cfg) +:+ " - Loss: "
                           +:+ toFixed4
                                 (fold_left Qplus l1 0 / inject_Z steps)%Q])
                  st2 opt2 l2 t2 E2)
        as (chunks & rest & -> & Hall & Hend & ->).
      exists (l1 :: chunks), rest.
      split; [cbn [concat]; by rewrite <- app_assoc|].
      split; [by constructor|].
      split; [destruct t2; destruct Hend; simpl; split; (done || lia)|].
      f_equal. rewrite <- app_assoc. f_equal. rewrite imap_cons. simpl.
      f_equal.
      * unfold epoch_line, average_loss. by rewrite Nat.add_0_r.
      * apply imap_ext. intros j x _. simpl. f_equal. lia.
Qed.

End TrainingFacts.

(** X15. In the dataset [buildDataset] returns, the target of a sample is
    its input moved on by one token: at position [k] of sample [i] the
    input holds the token [i + k] of the text and the target the token
    [i + k + 1], the one that follows it. *)
Theorem dataset_targets_are_next_tokens
  (text : string) (tokenizer : Tokenizer.SimpleTokenizer) (L B : Z)
  (ds : Training.Dataset) (i k : nat) :
  0 <= L -> 0 < B ->
  Training.buildDataset text tokenizer L B = Tf.Ok ds ->
  Z.of_nat i < (Tf.mshape (Training.inputs ds)).1 -> Z.of_nat k < L ->
  let ids := Tokenizer.encode tokenizer text in
  exists x y,
    ids !! (i + k)%nat = Some x /\ ids !! (i + k + 1)%nat = Some y
    /\ Tf.rows (Training.inputs ds) !! i ≫= (.!! k) = Some x
    /\ Tf.rows (Training.targets ds) !! i ≫= (.!! k) = Some y.
Proof.
  intros HL HB Hds Hi Hk ids.
  destruct (dataset_rows text tokenizer L B ds HL HB Hds)
    as (-> & Hsteps & Hfit).
  fold ids in Hfit |- *. cbn [Training.inputs Training.targets Tf.rows Tf.mshape] in *.
  simpl in Hi.
  destruct (lookup_lt_is_Some_2 ids (i + k)) as [x Hx]; [lia|].
  destruct (lookup_lt_is_Some_2 ids (i + k + 1)) as [y Hy]; [lia|].
  exists x, y. split_and!; [done|done| |].
  - rewrite list_lookup_fmap, lookup_seq_lt by lia. simpl.
    rewrite lookup_take_lt by lia. rewrite lookup_drop.
    by replace (i + 0 + k)%nat with (i + k)%nat by lia.
  - rewrite list_lookup_fmap, lookup_seq_lt by lia. simpl.
    rewrite lookup_take_lt by lia. rewrite lookup_drop.
    by replace (i + 1 + k)%nat with (i + k + 1)%nat by lia.
Qed.

Lemma dataset_targets_are_next_tokens_witness :
  exists ds x y,
    Training.buildDataset "HELLO WORLD" (Tokenizer.from_corpus "HELLO WORLD")
      3 3 = Tf.Ok ds
    /\ Tokenizer.encode (Tokenizer.from_corpus "HELLO WORLD") "HELLO WORLD"
       !! (1 + 2)%nat = Some x
    /\ Tf.rows (Training.inputs ds) !! 1%nat ≫= (.!! 2%nat) = Some x
    /\ Tf.rows (Training.targets ds) !! 1%nat ≫= (.!! 2%nat) = Some y.
Proof.
  destruct (Training.buildDataset "HELLO WORLD"
              (Tokenizer.from_corpus "HELLO WORLD") 3 3) as [ds|msg] eqn:E;
    [|vm_compute in E; discriminate].
  destruct (dataset_targets_are_next_tokens "HELLO WORLD"
              (Tokenizer.from_corpus "HELLO WORLD") 3 3 ds 1 2)
    as (x & y & Hx & _ & Hin & Htg); [lia|lia|exact E| |lia|].
  - vm_compute in E. injection E as <-. vm_compute. reflexivity.
  - exists ds, x, y. split_and!; [reflexivity|exact Hx|exact Hin|exact Htg].
Defined.

Section TrainModelFacts.

Variable Optimizer : Type.
Variable adam : Q -> Optimizer.
Variable optimization_step :
  Transformer.TransformerModel -> Tf.IntMatrix -> Tf.IntMatrix ->
  Tf.Store -> Optimizer -> Tf.result (Tf.Store * Optimizer * Q).
Variable toFixed4 : Q -> string.

Variable model : Transformer.TransformerModel.
Variable tokenizer : Tokenizer.SimpleTokenizer.
Variable corpus : string.
Variable cfg : Types.TrainingConfig.

Let ids := Tokenizer.encode tokenizer corpus.
Let L := Types.seqLen cfg.
Let B := Types.batchSize cfg.
Let steps := (Z.of_nat (String.length corpus) - L) / B.
Let batches :=
  concat (replicate (Z.to_nat (Types.epochs cfg))
            (epoch_batches ids L B (Z.to_nat steps))).

Hypothesis L_nonneg : 0 <= L.
Hypothesis B_pos : 0 < B.

(** A training on a dataset that was built is the steps made in turn on
    the batches of the epochs. *)
Lemma trainModel_built ds st st' opt' losses thrown :
  Training.buildDataset corpus tokenizer L B = Tf.Ok ds ->
  steps_over (optimization_step model) batches st
    (adam (Types.learningRate cfg))
  = (st', opt', losses, thrown) ->
  exists chunks rest,
    losses = concat chunks ++ rest
    /\ Forall (fun c => length c = Z.to_nat steps) chunks
    /\ match thrown with
       | None => rest = [] /\ length chunks = Z.to_nat (Types.epochs cfg)
       | Some _ =>
           (length rest < Z.to_nat steps)%nat
           /\ (length chunks < Z.to_nat (Types.epochs cfg))%nat
       end
    /\ Training.trainModel Optimizer adam optimization_step toFixed4 model
         tokenizer corpus cfg st
       = Training.mkOutcome st'
           (["Preparing dataset from " +:+ pretty (String.length corpus)
             +:+ " characters...";
             "Dataset created. Samples: " +:+ pretty (steps * B)
             +:+ ". Batches per epoch: " +:+ pretty steps]
            ++ imap (fun j c => epoch_line toFixed4 cfg j
                                  (average_loss c steps)) chunks
            ++ match thrown with
               | None => ["Training complete. Weights updated."]
               | Some _ => []
               end)
           (thrown_result thrown).
Proof.
  intros E Hover.
  destruct (dataset_rows corpus tokenizer L B ds L_nonneg B_pos E)
    as (Hds & Hsteps & _).
  fold ids steps in Hds, Hsteps.
  unfold Training.trainModel. fold L B. rewrite E. cbv zeta.
  assert (Hn : (Tf.mshape (Training.inputs ds)).1 = steps * B)
    by (by rewrite Hds).
  rewrite Hn, Z.div_mul by lia.
  destruct (run_epochs_over Optimizer optimization_step toFixed4 model cfg
              ids steps L_nonneg B_pos ltac:(lia)
              (Z.to_nat (Types.epochs cfg)) 0%nat st
              (adam (Types.learningRate cfg))
              (["Preparing dataset from " +:+ pretty (String.length corpus)
                +:+ " characters..."]
               ++ ["Dataset created. Samples: " +:+ pretty (steps * B)
                   +:+ ". Batches per epoch: " +:+ pretty steps])
              st' opt' losses thrown Hover)
    as (chunks & rest & Hlosses & Hall & Hend & Hrun).
  fold L B in Hrun. rewrite <- Hds in Hrun.
  change (Z.of_nat 0 + 1) with 1 in Hrun. rewrite Hrun.
  exists chunks, rest. split; [done|]. split; [done|]. split; [done|].
  cbn [Training.out_result Training.out_store Training.out_log].
  destruct thrown as [msg|]; cbn [thrown_result].
  - by rewrite app_nil_r.
  - by rewrite <- !app_assoc.
Qed.

(** Without a dataset there is no batch. *)
Lemma no_dataset_no_batches msg :
  Training.buildDataset corpus tokenizer L B = Tf.Throw msg ->
  batches = [].
Proof.
  intros E.
  rewrite (buildDataset_outcome corpus tokenizer L B L_nonneg B_pos) in E.
  case_decide as Hn; [|discriminate].
  assert (Hsteps : steps <= 0).
  { unfold steps.
    destruct (Z.le_gt_cases (Z.of_nat (String.length corpus) - L) 0)
      as [Hle|Hgt].
    - apply Z.div_le_upper_bound; lia.
    - rewrite Z.max_r in Hn by lia. nia. }
  unfold batches. replace (Z.to_nat steps) with 0%nat by lia.
  unfold epoch_batches. simpl.
  induction (Z.to_nat (Types.epochs cfg)) as [|e IH]; [done|exact IH].
Qed.

End TrainModelFacts.

(** X16. When the dataset can be built and the optimization steps, made in
    turn, all return, [trainModel] returns after every step of every epoch
    has run: the parameters it leaves are those the last step left.  The
    step [k] of each epoch is made on the [batchSize] consecutive windows
    from the window [k * batchSize] on, with targets the windows shifted
    by one token, from the parameters and the optimizer the step before
    left, through all the epochs.  The log is the two opening lines, one
    line per epoch with the average of the losses of the steps of that
    epoch, and the closing line.  With [epochs <= 0] no step is made, the
    log has no epoch line and the closing line is logged all the same. *)
Theorem trainModel_runs_every_batch
  (Optimizer : Type) (adam : Q -> Optimizer)
  (optimization_step :
     Transformer.TransformerModel -> Tf.IntMatrix -> Tf.IntMatrix ->
     Tf.Store -> Optimizer -> Tf.result (Tf.Store * Optimizer * Q))
  (toFixed4 : Q -> string)
  (model : Transformer.TransformerModel)
  (tokenizer : Tokenizer.SimpleTokenizer) (corpus : string)
  (cfg : Types.TrainingConfig) (st st' : Tf.Store) (opt' : Optimizer)
  (losses : list Q) :
  let ids := Tokenizer.encode tokenizer corpus in
  let L := Types.seqLen cfg in
  let B := Types.batchSize cfg in
  let steps := (Z.of_nat (String.length corpus) - L) / B in
  let batches :=
    concat (replicate (Z.to_nat (Types.epochs cfg))
              (epoch_batches ids L B (Z.to_nat steps))) in
  let run := Training.trainModel Optimizer adam optimization_step toFixed4
               model tokenizer corpus cfg st in
  0 <= L -> 0 < B -> B <= Z.of_nat (String.length corpus) - L ->
  steps_over (optimization_step model) batches st
    (adam (Types.learningRate cfg))
  = (st', opt', losses, None) ->
  Training.out_result run = Tf.Ok tt
  /\ Training.out_store run = st'
  /\ length losses = length batches
  /\ exists chunks,
       losses = concat chunks
       /\ length chunks = Z.to_nat (Types.epochs cfg)
       /\ Forall (fun c => length c = Z.to_nat steps) chunks
       /\ Training.out_log run
          = ["Preparing dataset from " +:+ pretty (String.length corpus)
             +:+ " characters...";
             "Dataset created. Samples: " +:+ pretty (steps * B)
             +:+ ". Batches per epoch: " +:+ pretty steps]
            ++ imap (fun j c => epoch_line toFixed4 cfg j
                                  (average_loss c steps)) chunks
            ++ ["Training complete. Weights updated."].
Proof.
  intros ids L B steps batches run HL HB Hfit Hover.
  destruct (Training.buildDataset corpus tokenizer L B) as [ds|msg] eqn:E.
  - destruct (trainModel_built Optimizer adam optimization_step toFixed4
                model tokenizer corpus cfg HL HB ds st st' opt' losses None
                E Hover)
      as (chunks & rest & Hlosses & Hall & [-> Hlen] & Hrun).
    fold ids L B steps in Hrun. fold run in Hrun. rewrite Hrun.
    cbn [Training.out_result Training.out_store Training.out_log
         thrown_result].
    split; [done|]. split; [done|].
    split; [exact (steps_over_length _ _ _ _ _ _ _ _ Hover)|].
    exists chunks. rewrite app_nil_r in Hlosses. done.
  - rewrite (buildDataset_outcome corpus tokenizer L B HL HB) in E.
    rewrite decide_False in E; [discriminate|].
    rewrite Z.max_r by lia.
    assert (0 < (Z.of_nat (String.length corpus) - L) / B)
      by (apply Z.div_str_pos; lia).
    nia.
Qed.

Lemma trainModel_runs_every_batch_witness :
  let zeroed :=
    fmap (M := list)
      (fun t => Tf.mkTensor (Tf.shape t) (Sample.zeros 0 (Tf.shape t))) in
  let run := Training.trainModel nat (fun _ => 0%nat)
               (fun _ _ _ st opt => Tf.Ok (zeroed st, S opt, 1 # 2))
               (fun _ => "0.5000") Sample.model
               (Tokenizer.from_corpus "HELLO WORLD") "HELLO WORLD"
               (Types.mkTrainingConfig 3 2 (1 # 200) 3) Sample.store in
  Training.out_result run = Tf.Ok tt
  /\ Training.out_store run = zeroed Sample.store
  /\ Training.out_log run
     = ["Preparing dataset from 11 characters...";
        "Dataset created. Samples: 6. Batches per epoch: 2";
        "Epoch 1/2 - Loss: 0.5000"; "Epoch 2/2 - Loss: 0.5000";
        "Training complete. Weights updated."].
Proof.
  intros zeroed run.
  destruct (trainModel_runs_every_batch nat (fun _ => 0%nat)
              (fun _ _ _ st opt => Tf.Ok (zeroed st, S opt, 1 # 2))
              (fun _ => "0.5000") Sample.model
              (Tokenizer.from_corpus "HELLO WORLD") "HELLO WORLD"
              (Types.mkTrainingConfig 3 2 (1 # 200) 3) Sample.store
              (zeroed Sample.store) 4%nat [1 # 2; 1 # 2; 1 # 2; 1 # 2]%Q)
    as (Hres & Hstore & _ & _).
  - simpl. lia.
  - simpl. lia.
  - simpl. lia.
  - vm_compute. reflexivity.
  - split; [exact Hres|]. split; [exact Hstore|]. vm_compute. reflexivity.
Defined.

(** X17. [trainModel] leaves the parameters as the steps that returned
    left them, and ends as they ended: with the steps made in turn on the
    batches of the epochs, up to the first that throws, it leaves the store
    after the steps that returned, and it throws what that step threw, or
    returns.  The updates made before a throw are kept, not rolled back:
    when the step [n] throws, the store left is the one the [n] steps
    before it produced, in the epoch of the throw as in the epochs before
    it.  A dataset that cannot be built means no step and the store as it
    was. *)
Theorem trainModel_keeps_updates_before_a_throw
  (Optimizer : Type) (adam : Q -> Optimizer)
  (optimization_step :
     Transformer.TransformerModel -> Tf.IntMatrix -> Tf.IntMatrix ->
     Tf.Store -> Optimizer -> Tf.result (Tf.Store * Optimizer * Q))
  (toFixed4 : Q -> string)
  (model : Transformer.TransformerModel)
  (tokenizer : Tokenizer.SimpleTokenizer) (corpus : string)
  (cfg : Types.TrainingConfig) (st st' : Tf.Store) (opt' : Optimizer)
  (losses : list Q) (thrown : option string) :
  let ids := Tokenizer.encode tokenizer corpus in
  let L := Types.seqLen cfg in
  let B := Types.batchSize cfg in
  let steps := (Z.of_nat (String.length corpus) - L) / B in
  let batches :=
    concat (replicate (Z.to_nat (Types.epochs cfg))
              (epoch_batches ids L B (Z.to_nat steps))) in
  let run := Training.trainModel Optimizer adam optimization_step toFixed4
               model tokenizer corpus cfg st in
  0 <= L -> 0 < B ->
  steps_over (optimization_step model) batches st
    (adam (Types.learningRate cfg))
  = (st', opt', losses, thrown) ->
  Training.out_store run = st'
  /\ Training.out_result run = thrown_result thrown
  /\ (forall msg, thrown = Some msg ->
        exists x y,
          batches !! length losses = Some (x, y)
          /\ steps_over (optimization_step model)
               (take (length losses) batches) st
               (adam (Types.learningRate cfg))
             = (st', opt', losses, None)
          /\ optimization_step model x y st' opt' = Tf.Throw msg)
  /\ (forall msg,
        Training.buildDataset corpus tokenizer L B = Tf.Throw msg ->
        st' = st /\ thrown = None).
Proof.
  intros ids L B steps batches run HL HB Hover.
  assert (Hthrown : forall msg, thrown = Some msg ->
            exists x y,
              batches !! length losses = Some (x, y)
              /\ steps_over (optimization_step model)
                   (take (length losses) batches) st
                   (adam (Types.learningRate cfg))
                 = (st', opt', losses, None)
              /\ optimization_step model x y st' opt' = Tf.Throw msg).
  { intros msg ->. exact (steps_over_thrown _ _ _ _ _ _ _ _ Hover). }
  destruct (Training.buildDataset corpus tokenizer L B) as [ds|msg] eqn:E.
  - destruct (trainModel_built Optimizer adam optimization_step toFixed4
                model tokenizer corpus cfg HL HB ds st st' opt' losses thrown
                E Hover)
      as (chunks & rest & _ & _ & _ & Hrun).
    fold run in Hrun. rewrite Hrun.
    cbn [Training.out_result Training.out_store].
    split; [done|]. split; [done|]. split; [exact Hthrown|]. done.
  - pose proof (no_dataset_no_batches tokenizer corpus cfg HL HB msg E)
      as Hnone.
    fold ids L B steps in Hnone. fold batches in Hnone.
    rewrite Hnone in Hover. simpl in Hover. injection Hover as <- <- <- <-.
    unfold run, Training.trainModel. fold L B. rewrite E.
    cbn [Training.out_result Training.out_store thrown_result].
    split; [done|]. split; [done|]. split; [exact Hthrown|]. done.
Qed.

Lemma trainModel_keeps_updates_before_a_throw_witness :
  let zeroed :=
    fmap (M := list)
      (fun t => Tf.mkTensor (Tf.shape t) (Sample.zeros 0 (Tf.shape t))) in
  let run := Training.trainModel nat (fun _ => 0%nat)
               (fun _ bi _ st opt =>
                  if decide (Tf.rows bi = [[5; 4; 6]; [4; 6; 6]; [6; 6; 7]])
                  then Tf.Ok (zeroed st, S opt, 1%Q)
                  else Tf.Throw "out of memory")
               (fun _ => "1.0000") Sample.model
               (Tokenizer.from_corpus "HELLO WORLD") "HELLO WORLD"
               (Types.mkTrainingConfig 3 2 (1 # 200) 3) Sample.store in
  Training.out_store run = zeroed Sample.store
  /\ Training.out_store run <> Sample.store
  /\ Training.out_result run = Tf.Throw "out of memory".
Proof.
  intros zeroed run.
  destruct (trainModel_keeps_updates_before_a_throw nat (fun _ => 0%nat)
              (fun _ bi _ st opt =>
                 if decide (Tf.rows bi = [[5; 4; 6]; [4; 6; 6]; [6; 6; 7]])
                 then Tf.Ok (zeroed st, S opt, 1%Q)
                 else Tf.Throw "out of memory")
              (fun _ => "1.0000") Sample.model
              (Tokenizer.from_corpus "HELLO WORLD") "HELLO WORLD"
              (Types.mkTrainingConfig 3 2 (1 # 200) 3) Sample.store
              (zeroed Sample.store) 1%nat [1%Q] (Some "out of memory"))
    as (Hstore & Hres & _).
  - simpl. lia.
  - simpl. lia.
  - vm_compute. reflexivity.
  - split; [exact Hstore|]. split; [|exact Hres].
    unfold run. rewrite Hstore. vm_compute. discriminate.
Defined.

Section LogFacts.

Import Training.

Lemma epoch_is_not_complete x :
  "Epoch " +:+ x <> "Training complete. Weights updated.".
Proof. intros H. vm_compute in H. discriminate. Qed.

Lemma error_is_not_complete x :
  "Error: " +:+ x <> "Training complete. Weights updated.".
Proof. intros H. vm_compute in H. discriminate. Qed.

Lemma preparing_is_not_complete x :
  "Preparing dataset from " +:+ x <> "Training complete. Weights updated.".
Proof. intros H. vm_compute in H. discriminate. Qed.

Lemma created_is_not_complete x :
  "Dataset created. Samples: " +:+ x
  <> "Training complete. Weights updated.".
Proof. intros H. vm_compute in H. discriminate. Qed.

(** The epochs log no closing line. *)
Lemma run_epochs_log Optimizer optimization_step toFixed4 model cfg ds steps :
  forall todo epoch st opt log,
  Forall (fun line => line <> "Training complete. Weights updated.") log ->
  Forall (fun line => line <> "Training complete. Weights updated.")
    (out_log (run_epochs Optimizer optimization_step toFixed4 model cfg ds
                steps todo epoch st opt log)).
Proof.
  induction todo as [|todo IH]; intros epoch st opt log Hlog; [done|].
  cbn [run_epochs]. destruct (run_steps _ _ _ _ _ _ _ _) as [s' [[]|msg]].
  - apply IH. apply Forall_app. split; [done|].
    apply Forall_singleton, epoch_is_not_complete.
  - done.
Qed.

End LogFacts.

(** X18. [trainModel] logs its closing line, "Training complete. Weights
    updated.", exactly when the dataset was built and every step of every
    epoch returned: never after a dataset error, and never when a step
    has thrown. *)
Theorem completion_is_logged_only_on_success
  (Optimizer : Type) (adam : Q -> Optimizer)
  (optimization_step :
     Transformer.TransformerModel -> Tf.IntMatrix -> Tf.IntMatrix ->
     Tf.Store -> Optimizer -> Tf.result (Tf.Store * Optimizer * Q))
  (toFixed4 : Q -> string)
  (model : Transformer.TransformerModel)
  (tokenizer : Tokenizer.SimpleTokenizer) (corpus : string)
  (cfg : Types.TrainingConfig) (st : Tf.Store) :
  let run := Training.trainModel Optimizer adam optimization_step toFixed4
               model tokenizer corpus cfg st in
  "Training complete. Weights updated." ∈ Training.out_log run
  <-> Training.out_result run = Tf.Ok tt
      /\ exists ds,
           Training.buildDataset corpus tokenizer (Types.seqLen cfg)
             (Types.batchSize cfg) = Tf.Ok ds.
Proof.
  intros run. unfold run, Training.trainModel.
  destruct (Training.buildDataset corpus tokenizer _ _) as [ds|msg] eqn:E.
  - cbv zeta.
    match goal with
    | |- context [Training.run_epochs ?O ?f ?t ?m ?c ?d ?s ?n ?e ?st0 ?o ?l] =>
        pose proof (run_epochs_log O f t m c d s n e st0 o l) as Hlog;
        set (out := Training.run_epochs O f t m c d s n e st0 o l) in *
    end.
    destruct (Training.out_result out) as [[]|msg] eqn:R.
    + cbn [Training.out_log Training.out_result]. split.
      * intros _. split; [done|]. by exists ds.
      * intros _. apply elem_of_app. right. apply list_elem_of_singleton.
        done.
    + rewrite R. split.
      * intros Hin. exfalso.
        assert (Hall : Forall
                  (fun line => line <> "Training complete. Weights updated.")
                  (Training.out_log out)).
        { apply Hlog. apply Forall_app. split; apply Forall_singleton;
            [apply preparing_is_not_complete|apply created_is_not_complete]. }
        rewrite Forall_forall in Hall. by apply (Hall _ Hin).
      * intros [? _]. discriminate.
  - cbn [Training.out_log Training.out_result]. split.
    + intros Hin. exfalso.
      apply elem_of_app in Hin as [Hin|Hin];
        apply list_elem_of_singleton in Hin; symmetry in Hin; revert Hin;
        [apply preparing_is_not_complete|apply error_is_not_complete].
    + intros [_ [ds' ?]]. discriminate.
Qed.

(** ** What the import leaves alone *)

Section ImportFacts.

Import Persistence.

Variable vars : gmap string Tf.Var.

(** A tensor the library accepts has the shape it was asked for. *)
Lemma tensor_shape data shp t :
  Tf.tensor data shp = Tf.Ok t -> t = Tf.mkTensor shp (Tf.float32 <$> data).
Proof.
  unfold Tf.tensor. destruct (_ && _); [|discriminate]. by intros [= <-].
Qed.

(** One entry leaves every shape as it is, whatever it holds. *)
Lemma import_entry_shapes (s : ImportState) entry :
  Tf.shape <$> store (import_entry vars s entry) = Tf.shape <$> store s.
Proof.
  destruct entry as [name spec]. unfold import_entry.
  destruct (thrown s); [done|].
  destruct (get_property vars name) as [v| |]; [|done|done].
  destruct (store s !! v) as [live|] eqn:Hv; [|done].
  case_decide as Hshape; [|done].
  destruct (Tf.tensor _ _) as [t|msg] eqn:Ht; [|done].
  apply tensor_shape in Ht as ->. cbn [store].
  rewrite list_fmap_insert. apply list_insert_id.
  rewrite list_lookup_fmap, Hv. simpl. by rewrite Hshape.
Qed.

Lemma import_fold_shapes entries : forall s : ImportState,
  Tf.shape <$> store (fold_left (import_entry vars) entries s)
  = Tf.shape <$> store s.
Proof.
  induction entries as [|e entries IH]; intros s; [done|].
  simpl. by rewrite IH, import_entry_shapes.
Qed.

(** Two runs of the import from stores with the same shapes go the same
    way: a position is assigned in both, with the same tensor, or in
    neither. *)
Variables a b : Tf.Store.

Let alike (s1 s2 : ImportState) : Prop :=
  thrown s1 = thrown s2 /\ warnings s1 = warnings s2
  /\ Tf.shape <$> store s1 = Tf.shape <$> store s2
  /\ forall p,
       store s1 !! p = store s2 !! p
       \/ (store s1 !! p = a !! p /\ store s2 !! p = b !! p).

Lemma import_entry_alike s1 s2 entry :
  alike s1 s2 ->
  alike (import_entry vars s1 entry) (import_entry vars s2 entry).
Proof.
  intros (Hthrown & Hwarn & Hshapes & Hat).
  assert (Hafter : Tf.shape <$> store (import_entry vars s1 entry)
                   = Tf.shape <$> store (import_entry vars s2 entry)).
  { by rewrite !import_entry_shapes. }
  destruct entry as [name spec]. unfold import_entry in *.
  rewrite <- Hthrown. destruct (thrown s1) eqn:Ht1.
  { split_and!; try done. by rewrite Ht1. }
  destruct (get_property vars name) as [v| |].
  - assert (Hv : Tf.shape <$> store s1 !! v = Tf.shape <$> store s2 !! v).
    { by rewrite <- !list_lookup_fmap, Hshapes. }
    destruct (store s1 !! v) as [live1|], (store s2 !! v) as [live2|];
      try discriminate.
    + injection Hv as Hv. rewrite <- Hv.
      case_decide.
      * destruct (Tf.tensor _ _) as [t|msg].
        -- split_and!;
             [done|done
             |cbn [store]; by rewrite !list_fmap_insert, Hshapes|].
           intros p. cbn [store].
           destruct (decide (p = v)) as [->|Hne].
           ++ left. destruct (decide (v < length (store s1))%nat).
              ** rewrite !list_lookup_insert_eq; [done| |done].
                 rewrite <- (length_fmap Tf.shape (store s2)), <- Hshapes.
                 by rewrite length_fmap.
              ** rewrite !lookup_ge_None_2; [done| |];
                   rewrite length_insert; [|lia].
                 rewrite <- (length_fmap Tf.shape (store s2)), <- Hshapes.
                 rewrite length_fmap. lia.
           ++ rewrite !list_lookup_insert_ne by done. apply Hat.
        -- split_and!; done.
      * split_and!; try done. cbn [warnings]. by rewrite Hwarn.
    + split_and!; done.
  - split_and!; try done. cbn [warnings]. by rewrite Hwarn.
  - split_and!; try done. cbn [warnings]. by rewrite Hwarn.
Qed.

Lemma import_fold_alike entries : forall s1 s2,
  alike s1 s2 ->
  alike (fold_left (import_entry vars) entries s1)
    (fold_left (import_entry vars) entries s2).
Proof.
  induction entries as [|e entries IH]; intros s1 s2 Hal; [done|].
  simpl. apply IH. by apply import_entry_alike.
Qed.

End ImportFacts.

(** X19. [importModelState] never changes the shape of a parameter
    tensor, nor the number of tensors, whatever the saved state holds:
    entries of other shapes, of unknown names, with too few values, or one
    that makes the import throw half-way. *)
Theorem import_keeps_every_shape
  (model : Transformer.TransformerModel)
  (state : Persistence.SavedModelState) (st : Tf.Store) :
  let after := Persistence.importModelState model state st in
  Tf.shape <$> Persistence.store after = Tf.shape <$> st
  /\ length (Persistence.store after) = length st.
Proof.
  intros after.
  assert (H : Tf.shape <$> Persistence.store after = Tf.shape <$> st).
  { unfold after, Persistence.importModelState. cbv zeta.
    by rewrite import_fold_shapes. }
  split; [done|].
  by rewrite <- (length_fmap Tf.shape), H, length_fmap.
Qed.

(** X20. Importing a saved state a second time changes nothing: the
    parameters, the warnings and the exception, if any, are those of the
    first import. *)
Theorem import_is_idempotent
  (model : Transformer.TransformerModel)
  (state : Persistence.SavedModelState) (st : Tf.Store) :
  let once := Persistence.importModelState model state st in
  let twice :=
    Persistence.importModelState model state (Persistence.store once) in
  Persistence.store twice = Persistence.store once
  /\ Persistence.warnings twice = Persistence.warnings once
  /\ Persistence.thrown twice = Persistence.thrown once.
Proof.
  intros once twice.
  destruct (import_fold_alike (Transformer.getTrainableVariables model)
              st (Persistence.store once)
              (map_to_list (Persistence.weights state))
              (Persistence.mkImportState st [] None)
              (Persistence.mkImportState (Persistence.store once) [] None))
    as (Hthrown & Hwarn & _ & Hat).
  { split_and!; [done|done| |by right].
    cbn [Persistence.store]. unfold once, Persistence.importModelState.
    cbv zeta. by rewrite import_fold_shapes. }
  fold (Persistence.importModelState model state st) in *.
  fold (Persistence.importModelState model state (Persistence.store once))
    in *.
  fold once in Hthrown, Hwarn, Hat. fold twice in Hthrown, Hwarn, Hat.
  split_and!; [|done|done].
  apply list_eq. intros p. destruct (Hat p) as [Heq|[_ Heq]]; done.
Qed.

(** ** A saved state and a new model *)

Section ShapeFacts.

Import Types Layers Transformer.

Variable randomNormal : nat -> list Z -> list Q.

(** [appends m shs]: when [m] returns, it has added tensors of the shapes
    [shs] to the store and touched no other. *)
Let appends {A} (m : Tf.Alloc A) (shs : list (list Z)) : Prop :=
  forall st a st', m st = (Tf.Ok a, st') ->
    exists new, st' = st ++ new /\ Tf.shape <$> new = shs.

Lemma appends_ret {A} (a : A) : appends (Tf.ret a) [].
Proof. intros st a' st' [= <- <-]. exists []. by rewrite app_nil_r. Qed.

Lemma appends_bind {A B} (m : Tf.Alloc A) (k : A -> Tf.Alloc B) s1 s2 :
  appends m s1 -> (forall a, appends (k a) s2) ->
  appends (Tf.bind m k) (s1 ++ s2).
Proof.
  intros Hm Hk st b st' E. unfold Tf.bind in E.
  destruct (m st) as [[a|msg] st1] eqn:E1; [|discriminate].
  destruct (Hm _ _ _ E1) as (n1 & -> & <-).
  destruct (Hk a _ _ _ E) as (n2 & -> & <-).
  exists (n1 ++ n2). by rewrite app_assoc, fmap_app.
Qed.

Lemma appends_variable shp init : appends (Tf.variable shp init) [shp].
Proof.
  intros st a st'. unfold Tf.variable.
  destruct (Tf.allocatable shp); [|discriminate].
  intros [= <- <-]. by eexists.
Qed.

Lemma appends_random_variable shp :
  appends (random_variable randomNormal shp) [shp].
Proof. intros st. apply appends_variable. Qed.

Lemma appends_eq {A} (m : Tf.Alloc A) s s' :
  appends m s -> s = s' -> appends m s'.
Proof. by intros H <-. Qed.

Ltac appended :=
  repeat first
    [ apply appends_ret
    | apply appends_random_variable
    | apply appends_variable
    | eapply appends_bind; [|intros ?] ].

Lemma appends_EncoderBlock cfg :
  appends (EncoderBlock_new randomNormal (dModel cfg) (numHeads cfg) (dff cfg))
    (block_shapes cfg).
Proof.
  eapply appends_eq.
  - unfold EncoderBlock_new, MultiHeadAttention_new, FeedForward_new,
      LayerNormalization_new, constant_variable. cbv zeta. appended.
  - reflexivity.
Qed.

Lemma appends_push_blocks cfg todo : forall blocks,
  appends (push_blocks randomNormal todo cfg blocks)
    (concat (replicate todo (block_shapes cfg))).
Proof.
  induction todo as [|todo IH]; intros blocks; cbn [push_blocks].
  - apply appends_ret.
  - eapply appends_eq.
    + eapply appends_bind; [apply appends_EncoderBlock|].
      intros b. apply IH.
    + reflexivity.
Qed.

(** The constructor adds tensors of the shapes of the configuration, and
    leaves the tensors of the store as they are. *)
Lemma constructed_shapes cfg (st st' : Tf.Store) m :
  TransformerModel_new randomNormal cfg st = (Tf.Ok m, st') ->
  exists new, st' = st ++ new /\ Tf.shape <$> new = model_shapes cfg.
Proof.
  revert st m st'. change (appends (TransformerModel_new randomNormal cfg)
                             (model_shapes cfg)).
  eapply appends_eq.
  - unfold TransformerModel_new, TokenEmbedding_new.
    eapply appends_bind; [appended|]. intros e.
    eapply appends_bind; [apply appends_push_blocks|]. intros blocks.
    appended.
  - reflexivity.
Qed.

End ShapeFacts.

Section NameFacts.

Import Types Layers Transformer.

(** The names depend on the number of blocks only. *)
Lemma block_entries_names i b b' :
  (block_entries i b).*1 = (block_entries i b').*1.
Proof. unfold block_entries. by rewrite !fst_zip by (simpl; lia). Qed.

Lemma blocks_entries_names blocks : forall blocks' i,
  length blocks = length blocks' ->
  (blocks_entries i blocks).*1 = (blocks_entries i blocks').*1.
Proof.
  induction blocks as [|b blocks IH]; intros [|b' blocks'] i Hlen;
    try discriminate; [done|].
  cbn [blocks_entries]. rewrite !fmap_app.
  rewrite (block_entries_names i b b'). f_equal. apply IH.
  simpl in Hlen. lia.
Qed.

Lemma model_entries_names m m' :
  length (encoderBlocks m) = length (encoderBlocks m') ->
  (model_entries m).*1 = (model_entries m').*1.
Proof.
  intros Hlen. unfold model_entries.
  rewrite !fmap_cons, !fmap_app. simpl. f_equal. f_equal.
  by apply blocks_entries_names.
Qed.

Lemma fold_insert_fmap {K A B} `{Countable K} (f : A -> B)
  (ks : list K) : forall (xs : list A) (acc : gmap K A),
  fold_left (fun m kv => <[kv.1 := kv.2]> m) (zip ks (f <$> xs)) (f <$> acc)
  = f <$> fold_left (fun m kv => <[kv.1 := kv.2]> m) (zip ks xs) acc.
Proof.
  induction ks as [|k ks IH]; intros [|x xs] acc; try done.
  cbn [zip zip_with fmap list_fmap fold_left fst snd].
  rewrite <- fmap_insert. apply IH.
Qed.

(** The variables of a model whose handles are consecutive positions:
    the positions of the names, counted from the first. *)
Lemma model_variables_shift m base n :
  model_handles m = seq base n ->
  getTrainableVariables m
  = Nat.add base
      <$> fold_left (fun m kv => <[kv.1 := kv.2]> m)
            (zip (model_entries m).*1 (seq 0 n)) ∅.
Proof.
  intros Hh. rewrite getTrainableVariables_fold.
  rewrite <- (zip_fst_snd (model_entries m)) at 1.
  rewrite model_entries_handles, Hh.
  replace (seq base n) with (Nat.add base <$> seq 0 n)
    by (rewrite fmap_add_seq; f_equal; lia).
  rewrite <- (fmap_empty (Nat.add base)) at 1.
  apply fold_insert_fmap.
Qed.

End NameFacts.

Lemma omap_none {A B} (f : A -> option B) (l : list A) :
  Forall (fun x => f x = None) l -> omap f l = [].
Proof.
  induction 1 as [|x l Hx _ IH]; [done|].
  cbn [omap list_omap]. by rewrite Hx.
Qed.

(** A tensor of float32 numbers is saved and made again as it is. *)
Lemma saved_serialized t :
  Tf.float32 <$> Tf.values t = Tf.values t -> saved_tensor (serialized t) = t.
Proof.
  destruct t as [shp vals]. unfold saved_tensor, serialized. simpl.
  by intros ->.
Qed.

(** X21. Saving and loading, as the application does them: the state
    exported from a model that was built for a configuration and trained
    (its tensors have the shapes they were created with) is imported into
    a model newly built for the saved configuration.  The import does not
    throw and warns of nothing; the new model has the variables of the
    saved one, name for name, and each holds the tensor the saved model
    held under that name; the tensors that were in the store before the
    new model was built are untouched; and the tokenizer is the one
    saved. *)
Theorem saved_state_loads_into_a_new_model
  (randomNormal1 randomNormal2 : nat -> list Z -> list Q)
  (cfg : Types.ModelConfig) (st1 st1' trained st2 : Tf.Store)
  (m1 : Transformer.TransformerModel)
  (tokenizer : Tokenizer.SimpleTokenizer) (now : Z) :
  0 <= Types.vocabSize cfg -> 0 <= Types.dModel cfg -> 0 <= Types.dff cfg ->
  Transformer.TransformerModel_new randomNormal1 cfg st1 = (Tf.Ok m1, st1') ->
  store_ok trained -> Tf.shape <$> trained = Tf.shape <$> st1' ->
  exists state m2 st2',
    Persistence.exportModelState m1 tokenizer trained now = Tf.Ok state
    /\ Transformer.TransformerModel_new randomNormal2
         (Persistence.saved_config state) st2 = (Tf.Ok m2, st2')
    /\ Persistence.thrown (Persistence.importModelState m2 state st2') = None
    /\ Persistence.warnings (Persistence.importModelState m2 state st2') = []
    /\ dom (Transformer.getTrainableVariables m2)
       = dom (Transformer.getTrainableVariables m1)
    /\ (forall name v1 v2,
          Transformer.getTrainableVariables m1 !! name = Some v1 ->
          Transformer.getTrainableVariables m2 !! name = Some v2 ->
          Persistence.store (Persistence.importModelState m2 state st2')
            !! v2 = trained !! v1
          /\ is_Some (trained !! v1))
    /\ take (length st2)
         (Persistence.store (Persistence.importModelState m2 state st2'))
       = st2
    /\ Persistence.importTokenizer (Persistence.saved_tokenizer state)
       = tokenizer.
Proof.
  intros Hv Hd Hf E1 Hok Hsh.
  set (n := (2 + 10 * Z.to_nat (Types.numLayers cfg))%nat).
  (* the saved model *)
  destruct (allocates_TransformerModel randomNormal1 cfg Hv Hd Hf st1)
    as (m1' & s1 & E1' & Hlen1 & Hcfg1 & Hblocks1 & _ & Hh1).
  rewrite E1 in E1'. injection E1' as <- <-.
  pose proof (constructed_vars_ok randomNormal1 cfg st1 st1' m1 Hv Hd Hf E1)
    as Hvars1.
  destruct (constructed_shapes randomNormal1 cfg st1 st1' m1 E1)
    as (new1 & -> & Hnew1).
  (* the new model *)
  destruct (allocates_TransformerModel randomNormal2 cfg Hv Hd Hf st2)
    as (m2 & st2' & E2 & Hlen2 & Hcfg2 & Hblocks2 & _ & Hh2).
  pose proof (constructed_vars_ok randomNormal2 cfg st2 st2' m2 Hv Hd Hf E2)
    as Hvars2.
  destruct (constructed_shapes randomNormal2 cfg st2 st2' m2 E2)
    as (new2 & -> & Hnew2).
  fold n in Hlen1, Hlen2, Hh1, Hh2.
  assert (Hlt : length trained = length (st1 ++ new1)).
  { by rewrite <- (length_fmap Tf.shape trained), Hsh, length_fmap. }
  (* the variables, by position *)
  set (idx := fold_left (fun (m : gmap string nat) kv => <[kv.1 := kv.2]> m)
                (zip (model_entries m1).*1 (seq 0 n)) ∅).
  assert (Hv1 : Transformer.getTrainableVariables m1
                = Nat.add (length st1) <$> idx)
    by apply model_variables_shift, Hh1.
  assert (Hv2 : Transformer.getTrainableVariables m2
                = Nat.add (length st2) <$> idx).
  { rewrite (model_variables_shift m2 _ _ Hh2).
    rewrite (model_entries_names m2 m1) by lia. done. }
  assert (Hidx : forall name i, idx !! name = Some i -> (i < n)%nat).
  { intros name i Hi. apply fold_insert_from in Hi as [Hin|Hi].
    - apply elem_of_zip_r in Hin. apply elem_of_seq in Hin. lia.
    - by rewrite lookup_empty in Hi. }
  (* the export *)
  assert (Hlive : Forall (fun e => is_Some (trained !! e.2))
                    (map_to_list (Transformer.getTrainableVariables m1))).
  { apply Forall_forall. intros [name v] Hin.
    apply elem_of_map_to_list in Hin. apply lookup_lt_is_Some.
    destruct Hvars1 as [Hl _]. specialize (Hl name v Hin). simpl in *. lia. }
  destruct (export_fold trained _ ∅ Hlive) as (ws & Ews & Hdom & Hfrom).
  exists (Persistence.mkSavedModelState (Transformer.config m1)
            (Tokenizer.mkSerialized (Tokenizer.vocab tokenizer)
               (Tokenizer.inverseVocab tokenizer)
               (Tokenizer.vocabSize tokenizer)) ws now), m2, (st2 ++ new2).
  split. { unfold Persistence.exportModelState. cbv zeta. by rewrite Ews. }
  split. { cbn [Persistence.saved_config]. by rewrite Hcfg1. }
  assert (Hentries : forall name spec, ws !! name = Some spec ->
    exists i t, idx !! name = Some i
                /\ trained !! (length st1 + i)%nat = Some t
                /\ spec = serialized t).
  { intros name spec Hin.
    destruct (Hfrom name spec Hin) as [He|(v & t & Hvin & Ht & ->)].
    - by rewrite lookup_empty in He.
    - apply elem_of_map_to_list in Hvin. rewrite Hv1 in Hvin.
      apply lookup_fmap_Some in Hvin as (i & <- & Hi). eauto. }
  assert (Hshape1 : forall i t, trained !! (length st1 + i)%nat = Some t ->
    model_shapes cfg !! i = Some (Tf.shape t)).
  { intros i t Ht.
    assert (Hs : (Tf.shape <$> trained) !! (length st1 + i)%nat
                 = Some (Tf.shape t)) by (by rewrite list_lookup_fmap, Ht).
    rewrite Hsh, fmap_app, lookup_app_r in Hs by (rewrite length_fmap; lia).
    rewrite length_fmap, Hnew1 in Hs.
    by replace (length st1 + i - length st1)%nat with i in Hs by lia. }
  assert (Hshape2 : forall i,
    (Tf.shape <$> (st2 ++ new2)) !! (length st2 + i)%nat
    = model_shapes cfg !! i).
  { intros i. rewrite fmap_app, lookup_app_r by (rewrite length_fmap; lia).
    rewrite length_fmap, Hnew2. f_equal. lia. }
  (* the import *)
  unfold Persistence.importModelState. cbv zeta. cbn [Persistence.weights].
  destruct (import_fold (Transformer.getTrainableVariables m2)
              (map_to_list ws)
              (Persistence.mkImportState (st2 ++ new2) [] None))
    as (Hthrown & _ & Hwarn & Hat & Hother).
  { apply NoDup_fst_map_to_list. }
  { done. }
  { exact Hvars2. }
  { apply Forall_forall. intros [name spec] Hin _.
    apply elem_of_map_to_list in Hin.
    destruct (Hentries name spec Hin) as (i & t & _ & Ht & ->).
    unfold store_ok in Hok. rewrite Forall_forall in Hok.
    destruct (Hok t) as (Hal & Hsz & _);
      [by apply list_elem_of_lookup_2 in Ht|].
    by split. }
  cbv zeta in Hthrown, Hwarn, Hat, Hother.
  cbn [Persistence.store Persistence.warnings] in Hwarn, Hat, Hother.
  split; [exact Hthrown|]. split.
  { rewrite Hwarn. simpl. apply omap_none. apply Forall_forall.
    intros [name spec] Hin. apply elem_of_map_to_list in Hin.
    destruct (Hentries name spec Hin) as (i & t & Hi & Ht & ->).
    unfold warning_of, Persistence.get_property. cbn [fst snd].
    rewrite Hv2, lookup_fmap, Hi. simpl.
    rewrite decide_True; [done|].
    rewrite Hshape2. by apply Hshape1. }
  split. { by rewrite Hv1, Hv2, !dom_fmap_L. }
  split.
  { intros name v1 v2 H1 H2. rewrite Hv1 in H1. rewrite Hv2 in H2.
    apply lookup_fmap_Some in H1 as (i & <- & Hi).
    apply lookup_fmap_Some in H2 as (i' & <- & Hi').
    rewrite Hi in Hi'. injection Hi' as <-.
    pose proof (Hidx name i Hi) as Hin.
    destruct (lookup_lt_is_Some_2 (st2 ++ new2) (length st2 + i))
      as [live Hlive2]; [lia|].
    assert (Hdomws : is_Some (ws !! name)).
    { apply elem_of_dom. rewrite Hdom. apply elem_of_union_r.
      apply elem_of_list_to_set, list_elem_of_fmap.
      exists (name, (length st1 + i)%nat). split; [done|].
      apply elem_of_map_to_list. rewrite Hv1, lookup_fmap, Hi. done. }
    destruct Hdomws as [spec Hspec].
    destruct (Hentries name spec Hspec) as (i' & t & Hi' & Ht & ->).
    rewrite Hi in Hi'. injection Hi' as <-.
    rewrite (Hat name (length st2 + i)%nat live); [|by rewrite Hv2, lookup_fmap, Hi|done].
    rewrite list_to_map_to_list. unfold restored. rewrite Hspec.
    rewrite Ht. split; [|done]. f_equal.
    rewrite decide_True.
    { apply saved_serialized.
      unfold store_ok in Hok. rewrite Forall_forall in Hok.
      apply (Hok t). by apply list_elem_of_lookup_2 in Ht. }
    assert (Hs : (Tf.shape <$> (st2 ++ new2)) !! (length st2 + i)%nat
                 = Some (Tf.shape live))
      by (by rewrite list_lookup_fmap, Hlive2).
    rewrite Hshape2, (Hshape1 i t Ht) in Hs. by injection Hs as <-. }
  split; [|apply importTokenizer_exported].
  apply list_eq. intros p0. destruct (decide (p0 < length st2)%nat).
  - rewrite lookup_take_lt by done. rewrite Hother.
    + by rewrite lookup_app_l.
    + intros name Hname. rewrite Hv2 in Hname.
      apply lookup_fmap_Some in Hname as (i & Hi & _). lia.
  - rewrite lookup_take_ge by lia. by rewrite lookup_ge_None_2 by lia.
Qed.

Lemma saved_state_loads_into_a_new_model_witness :
  let trained :=
    (fun t => Tf.mkTensor (Tf.shape t) ((fun _ => 7%Q) <$> Tf.values t))
      <$> Sample.store in
  exists state m2 st2',
    Persistence.exportModelState Sample.model (Tokenizer.from_corpus "ab")
      trained 0 = Tf.Ok state
    /\ Transformer.TransformerModel_new
         (fun _ shp => repeat 1%Q (Z.to_nat (Tf.size shp)))
         (Persistence.saved_config state) [Tf.mkTensor [1] [5%Q]]
       = (Tf.Ok m2, st2')
    /\ Persistence.thrown (Persistence.importModelState m2 state st2') = None
    /\ Persistence.warnings (Persistence.importModelState m2 state st2') = [].
Proof.
  intros trained.
  destruct (saved_state_loads_into_a_new_model Sample.zeros
              (fun _ shp => repeat 1%Q (Z.to_nat (Tf.size shp)))
              Sample.config [] Sample.store trained [Tf.mkTensor [1] [5%Q]]
              Sample.model (Tokenizer.from_corpus "ab") 0)
    as (state & m2 & st2' & E & E2 & Hthrown & Hwarn & _).
  - simpl. lia.
  - simpl. lia.
  - simpl. lia.
  - reflexivity.
  - unfold store_ok. apply (bool_decide_unpack _). vm_compute. exact I.
  - reflexivity.
  - exists state, m2, st2'. split_and!; assumption.
Defined.

(** ** Prediction *)

(** [argMax] scans for the first entry larger than the best so far. *)
Lemma argMax_from_spec x : forall i bv bi,
  (Tf.argMax_from i (bv, bi) x = bi /\ Forall (fun v => (v <= bv)%Q) x)
  \/ exists (k : nat) m,
       Tf.argMax_from i (bv, bi) x = i + Z.of_nat k
       /\ x !! k = Some m /\ (bv < m)%Q
       /\ Forall (fun v => (v <= m)%Q) x
       /\ forall (j : nat) w, (j < k)%nat -> x !! j = Some w -> (w < m)%Q.
Proof.
  induction x as [|v x IH]; intros i bv bi; [left; by split|].
  cbn [Tf.argMax_from fst]. destruct (Qle_bool v bv) eqn:E.
  - apply Qle_bool_iff in E.
    destruct (IH (i + 1) bv bi) as [[-> Hall]|(k & m & -> & Hk & Hm & Hall & Hlow)].
    + left. split; [done|]. by apply Forall_cons.
    + right. exists (S k), m. split_and!; [lia|done|done| |].
      * apply Forall_cons. split; [lra|done].
      * intros [|j] w Hj Hw; simplify_eq/=; [lra|].
        apply (Hlow j w); [lia|done].
  - assert (bv < v)%Q as Hlt.
    { apply Qnot_le_lt. intros H. apply Qle_bool_iff in H. congruence. }
    destruct (IH (i + 1) v i) as [[-> Hall]|(k & m & -> & Hk & Hm & Hall & Hlow)].
    + right. exists 0%nat, v. split_and!; [lia|done|done| |].
      * apply Forall_cons. split; [lra|done].
      * intros j w Hj. lia.
    + right. exists (S k), m. split_and!; [lia|done|lra| |].
      * apply Forall_cons. split; [lra|done].
      * intros [|j] w Hj Hw; simplify_eq/=; [lra|].
        apply (Hlow j w); [lia|done].
Qed.

Lemma argMax_spec x :
  x <> [] ->
  exists (k : nat) m,
    Tf.argMax x = Z.of_nat k /\ x !! k = Some m
    /\ Forall (fun v => (v <= m)%Q) x
    /\ forall (j : nat) w, (j < k)%nat -> x !! j = Some w -> (w < m)%Q.
Proof.
  destruct x as [|v x]; [done|]. intros _. cbn [Tf.argMax].
  destruct (argMax_from_spec x 1 v 0)
    as [[-> Hall]|(k & m & -> & Hk & Hm & Hall & Hlow)].
  - exists 0%nat, v. split_and!; [done|done| |].
    + apply Forall_cons. split; [lra|done].
    + intros j w Hj. lia.
  - exists (S k), m. split_and!; [lia|done| |].
    + apply Forall_cons. split; [lra|done].
    + intros [|j] w Hj Hw; simplify_eq/=; [lra|].
      apply (Hlow j w); [lia|done].
Qed.

(** X22. [predict] on a non-empty list of token ids is greedy decoding:
    it runs the forward pass once, on the ids as one row, and returns the
    first position of a largest logit of the last token: no logit is
    larger, and every logit before it is smaller.  The attention weights
    are those of the forward pass, [[]] when it has none. *)
Theorem predict_returns_first_largest_logit
  (forward : Transformer.TransformerModel -> Tf.Store -> Tf.IntMatrix ->
             bool -> Tf.result Transformer.ForwardResult)
  (m : Transformer.TransformerModel) (st : Tf.Store) (tokenIds : list Z)
  (out : Transformer.ForwardResult) :
  let n := Z.of_nat (length tokenIds) in
  let lg := Transformer.last_token_logits (Transformer.logits out) n in
  tokenIds <> [] ->
  forward m st (Tf.mkIntMatrix [tokenIds] (1, n)) false = Tf.Ok out ->
  lg <> [] ->
  exists (id : nat) top,
    Transformer.predict forward m st tokenIds
    = Tf.Ok (Transformer.mkPrediction (Z.of_nat id)
               (default [] (Transformer.fwd_attentionWeights out)))
    /\ lg !! id = Some top
    /\ Forall (fun v => (v <= top)%Q) lg
    /\ forall (j : nat) w, (j < id)%nat -> lg !! j = Some w -> (w < top)%Q.
Proof.
  intros n lg Hne Hfw Hlg.
  destruct (argMax_spec lg Hlg) as (k & top & Hk & Hat & Hall & Hlow).
  exists k, top. split_and!; [|done|done|done].
  unfold Transformer.predict.
  destruct (Z.eqb_spec (Z.of_nat (length tokenIds)) 0) as [Hz|_].
  { destruct tokenIds; [done|]. simpl in Hz. lia. }
  cbv zeta. rewrite tensor2d_ok; [|done|by apply Forall_singleton].
  fold n. rewrite Hfw. fold lg. rewrite Hk.
  by destruct (Transformer.fwd_attentionWeights out).
Qed.

Lemma predict_returns_first_largest_logit_witness :
  exists (id : nat) top,
    Transformer.predict
      (fun _ _ _ _ => Tf.Ok (Transformer.mkForwardResult
                               [[[0; 2; 2]%Q; [1; 3; 3]%Q]] None))
      Sample.model Sample.store [2; 1]
    = Tf.Ok (Transformer.mkPrediction (Z.of_nat id) [])
    /\ [1; 3; 3]%Q !! id = Some top.
Proof.
  destruct (predict_returns_first_largest_logit
              (fun _ _ _ _ => Tf.Ok (Transformer.mkForwardResult
                                       [[[0; 2; 2]%Q; [1; 3; 3]%Q]] None))
              Sample.model Sample.store [2; 1]
              (Transformer.mkForwardResult [[[0; 2; 2]%Q; [1; 3; 3]%Q]] None))
    as (id & top & E & Hat & _); [done|reflexivity|done|].
  exists id, top. split; [exact E|exact Hat].
Defined.

(** ** The names of the parameters *)

Section NameDistinctFacts.

Import Types Layers Transformer.

Lemma string_app_cons c (a b : string) :
  String c a +:+ b = String c (a +:+ b).
Proof. reflexivity. Qed.

(** Decimal numerals hold no underscore. *)
Lemma pretty_N_go_no_underscore x : forall s,
  "_" ∉ Js.split_chars s -> "_" ∉ Js.split_chars (pretty_N_go x s).
Proof.
  induction (N.lt_wf_0 x) as [x _ IH]; intros s Hs.
  destruct (decide (x = 0)%N) as [->|Hx]; [by rewrite pretty_N_go_0|].
  rewrite pretty_N_go_step by lia. apply IH.
  - apply N.div_lt; lia.
  - cbn [Js.split_chars]. apply not_elem_of_cons. split; [|done].
    unfold pretty_N_char. repeat case_match; discriminate.
Qed.

Lemma pretty_nat_no_underscore (i : nat) :
  "_" ∉ Js.split_chars (pretty i).
Proof.
  unfold pretty, pretty_nat, pretty, pretty_N. case_decide.
  - cbn [Js.split_chars]. apply not_elem_of_cons.
    split; [discriminate|apply not_elem_of_nil].
  - apply pretty_N_go_no_underscore. apply not_elem_of_nil.
Qed.

(** A numeral followed by an underscore ends where the underscore is. *)
Lemma underscore_splits d1 : forall d2 r1 r2,
  "_" ∉ Js.split_chars d1 -> "_" ∉ Js.split_chars d2 ->
  d1 +:+ String "_" r1 = d2 +:+ String "_" r2 -> d1 = d2.
Proof.
  induction d1 as [|c d1 IH]; intros [|c' d2] r1 r2 H1 H2 E.
  - done.
  - rewrite string_app_cons in E. injection E as <- _.
    destruct H2. cbn [Js.split_chars]. apply elem_of_cons. by left.
  - rewrite string_app_cons in E. injection E as -> _.
    destruct H1. cbn [Js.split_chars]. apply elem_of_cons. by left.
  - rewrite !string_app_cons in E. injection E as <- E.
    cbn [Js.split_chars] in H1, H2.
    apply not_elem_of_cons in H1 as [_ H1].
    apply not_elem_of_cons in H2 as [_ H2].
    f_equal. by apply (IH d2 r1 r2).
Qed.

(** The names of the block [i]. *)
Let suffixes : list string :=
  ["_mha_wq"; "_mha_wk"; "_mha_wv"; "_mha_wo"; "_ffn_w1"; "_ffn_w2";
   "_ln1_g"; "_ln1_b"; "_ln2_g"; "_ln2_b"].

Let block_name (i : nat) (suffix : string) : string :=
  "blk" +:+ pretty i +:+ suffix.

Lemma suffixes_start_with_underscore suffix :
  suffix ∈ suffixes -> exists r, suffix = String "_" r.
Proof.
  unfold suffixes. intros H.
  repeat (apply elem_of_cons in H as [->|H]; [by eexists|]).
  by apply elem_of_nil in H.
Qed.

Lemma block_name_inj i j s s' :
  s ∈ suffixes -> s' ∈ suffixes ->
  block_name i s = block_name j s' -> i = j /\ s = s'.
Proof.
  intros Hs Hs' E. unfold block_name in E. apply (inj _) in E.
  destruct (suffixes_start_with_underscore s Hs) as [r ->].
  destruct (suffixes_start_with_underscore s' Hs') as [r' ->].
  assert (Hp : pretty i = pretty j).
  { apply (underscore_splits _ _ r r');
      [apply pretty_nat_no_underscore..|done]. }
  split; [by apply (inj pretty)|].
  rewrite Hp in E. by apply (inj _) in E.
Qed.

Lemma block_entries_fst i b :
  (block_entries i b).*1 = block_name i <$> suffixes.
Proof. unfold block_entries. by rewrite fst_zip by (simpl; lia). Qed.

Lemma blocks_entries_distinct blocks : forall i,
  NoDup (blocks_entries i blocks).*1
  /\ (forall name, name ∈ (blocks_entries i blocks).*1 ->
        exists j s, (i <= j)%nat /\ s ∈ suffixes /\ name = block_name j s)
  /\ length (blocks_entries i blocks) = (10 * length blocks)%nat.
Proof.
  induction blocks as [|b blocks IH]; intros i.
  - split_and!; [constructor| |done]. intros name H.
    by apply elem_of_nil in H.
  - destruct (IH (S i)) as (Hnd & Hfrom & Hlen).
    cbn [blocks_entries]. rewrite fmap_app, block_entries_fst.
    split_and!.
    + apply NoDup_app. split_and!; [| |done].
      * apply NoDup_fmap_2_strong.
        -- intros s s' Hs Hs' E. by apply block_name_inj in E as [_ ?].
        -- unfold suffixes. apply (bool_decide_unpack _). vm_compute.
           exact I.
      * intros name Hin Hin'.
        apply list_elem_of_fmap in Hin as (s & -> & Hs).
        destruct (Hfrom _ Hin') as (j & s' & Hj & Hs' & E).
        apply block_name_inj in E as [-> _]; [lia|done|done].
    + intros name Hin. apply elem_of_app in Hin as [Hin|Hin].
      * apply list_elem_of_fmap in Hin as (s & -> & Hs).
        exists i, s. split_and!; [lia|done|done].
      * destruct (Hfrom _ Hin) as (j & s & Hj & Hs & ->).
        exists j, s. split_and!; [lia|done|done].
    + rewrite length_app, Hlen. unfold block_entries.
      rewrite length_zip_with. simpl. lia.
Qed.

Lemma model_entries_distinct m :
  NoDup (model_entries m).*1
  /\ length (model_entries m) = (2 + 10 * length (encoderBlocks m))%nat.
Proof.
  destruct (blocks_entries_distinct (encoderBlocks m) 0)
    as (Hnd & Hfrom & Hlen).
  unfold model_entries. split.
  - rewrite fmap_cons, fmap_app. cbn [fst fmap list_fmap].
    apply NoDup_cons. split.
    + intros Hin. apply elem_of_app in Hin as [Hin|Hin].
      * destruct (Hfrom _ Hin) as (j & s & _ & _ & E).
        unfold block_name in E. revert E.
        generalize (pretty j +:+ s). intros y E. discriminate.
      * apply list_elem_of_singleton in Hin. discriminate.
    + apply NoDup_app. split_and!; [done| |apply NoDup_singleton].
      intros name Hin Hin'. apply list_elem_of_singleton in Hin'.
      subst name. destruct (Hfrom _ Hin) as (j & s & _ & _ & E).
      unfold block_name in E. revert E.
      generalize (pretty j +:+ s). intros y E. discriminate.
  - cbn [length]. rewrite length_app, Hlen. simpl. lia.
Qed.

End NameDistinctFacts.

(** X23. [getTrainableVariables] gives every parameter of the model a
    name of its own: the embedding, the final projection and the ten
    tensors of every block are all there, [2 + 10 * blocks] of them, and
    no name of one block is a name of another, so no tensor is lost
    when the variables are saved by name. *)
Theorem every_parameter_has_its_own_name (m : Transformer.TransformerModel) :
  let vars := Transformer.getTrainableVariables m in
  size vars = (2 + 10 * length (Transformer.encoderBlocks m))%nat
  /\ (forall name v, vars !! name = Some v <-> (name, v) ∈ model_entries m)
  /\ map_to_list vars ≡ₚ model_entries m.
Proof.
  intros vars. destruct (model_entries_distinct m) as [Hnd Hlen].
  assert (Hmap : vars = list_to_map (model_entries m)).
  { apply map_eq. intros name. unfold vars.
    rewrite getTrainableVariables_fold, fold_insert_lookup by done.
    rewrite lookup_empty. by destruct (list_to_map _ !! name). }
  split_and!.
  - by rewrite Hmap, map_size_list_to_map.
  - intros name v. rewrite Hmap. symmetry. by apply elem_of_list_to_map.
  - rewrite Hmap. by apply map_to_list_to_map.
Qed.
